(** * HOPI: R-tree spatial index, RCB partitioner and UniqueMap

    A shallow embedding of the HOPI sources

      - [hopi/spatial/bound/box.hpp]                   (module [Bound])
      - [hopi/spatial/common/truncated_multiset.hpp]   ([TruncatedMultiSet])
      - [hopi/spatial/shared/predicate/*.hpp]          ([Predicate])
      - [hopi/spatial/shared/index/rtree/*.hpp],
        [hopi/spatial/shared/index/rtree.hpp]          ([Section RTreeIndex])
      - [hopi/spatial/shared/index/exhaustive.hpp]     ([Section ExhaustiveIndex])
      - [test/system/system.cpp] (class UniqueMap)     ([Section UniqueMapModel])
      - [hopi/partition/rcb.hpp]                       ([Module RCB])

    followed by the properties of these definitions.

    Modelling conventions.

    - Coordinates.  [Box<T,N>] is modelled at an exact integer coordinate
      type: a coordinate is a [Z], a corner is a [vec Z ndim] (the
      [std::array<T,N>]).  Sums, differences and products are exact;
      rounding is outside the model, and a result beyond
      [numeric_limits<T>::max()] stands for one that a [double] cannot
      hold.  Statements about what a scan selects are about the exact
      values; statements that need a value to be finite (an insertion
      returns, the distance query reaches every value) name the range of
      coordinates they are about.  [std::nexttoward] moves to the
      adjacent integer and stays where it is at its target.
    - Sentinels.  [numeric_limits<T>::max()] and [lowest()] are the
      concrete constants [numeric_max] and [numeric_lowest]: [reset]
      stores them in a box, the distance query and [Linear::pick_seeds]
      compare with them.  In the scans over areas ([find_best_fit_in_node],
      [Quadratic]) a running minimum or maximum that is initialised with
      one of them is an [option Z] whose [None] is the sentinel: it
      compares above (resp. below) every area.
    - Pointers.  A [std::shared_ptr<Node>] held in a page's child list is
      the child itself; where the code compares or removes children by
      pointer, the pointer is the child's position in that list.  The
      parent back-reference is the chain of pages recorded while
      descending from the root (innermost parent first): the loops
      [while (current->hasParent())] run over that chain.
    - Undefined behaviour (a failed [assert], dereferencing a null pointer
      or an end iterator, [front()] of an empty list, indexing past the
      end) is the result [None]. *)

From Stdlib Require Import ZArith Lia.
From stdpp Require Import base option list vector finite gmap sorting.

Local Open Scope Z_scope.

(** ** hopi/spatial/bound/box.hpp *)

Module Bound.

(** [std::numeric_limits<double>::max()] and [lowest()]. *)
Definition numeric_max : Z := 2 ^ 1024 - 2 ^ 971.
Definition numeric_lowest : Z := - numeric_max.

Record Box (ndim : nat) : Type := mkBox {
  min_ : vec Z ndim;
  max_ : vec Z ndim
}.
Arguments mkBox {ndim} _ _.
Arguments min_ {ndim} _.
Arguments max_ {ndim} _.

Section Ops.
Context {ndim : nat}.
Implicit Types a b box : Box ndim.

(** The index range [0 .. ndim-1] of the loops over dimensions. *)
Definition dims : list (fin ndim) := enum (fin ndim).

Definition min a (dim : fin ndim) : Z := min_ a !!! dim.
Definition max a (dim : fin ndim) : Z := max_ a !!! dim.

(** [0.5 * (max_[dim] + min_[dim])]: the half of the sum, rounded down
    where the sum is odd; exact on the point boxes that RCB stores. *)
Definition center a (dim : fin ndim) : Z := (max_ a !!! dim + min_ a !!! dim) / 2.

Definition length a (dim : fin ndim) : Z := max_ a !!! dim - min_ a !!! dim.

(** [s = max_[0]-min_[0]; for i in 1..ndim: s *= max_[i]-min_[i]] *)
Definition area a : Z :=
  match length a <$> dims with
  | [] => 0
  | s :: rest => fold_left Z.mul rest s
  end.

Definition set (min_corner max_corner : vec Z ndim) : Box ndim :=
  mkBox min_corner max_corner.

Definition reset : Box ndim :=
  mkBox (vreplicate ndim numeric_max) (vreplicate ndim numeric_lowest).

Definition stretch a box : Box ndim :=
  mkBox (vzip_with Z.min (min_ a) (min_ box)) (vzip_with Z.max (max_ a) (max_ box)).

(** [std::nexttoward(x, y)]: the value next to [x] in the direction of
    [y]; [x] itself when it is [y]. *)
Definition nexttoward (x y : Z) : Z :=
  if x <? y then Z.succ x else if y <? x then Z.pred x else x.

Definition next_larger a : Box ndim :=
  mkBox (vmap (fun x => nexttoward x numeric_lowest) (min_ a))
        (vmap (fun x => nexttoward x numeric_max) (max_ a)).

Definition next_smaller a : Box ndim :=
  mkBox (vmap (fun x => nexttoward x numeric_max) (min_ a))
        (vmap (fun x => nexttoward x numeric_lowest) (max_ a)).

Global Instance Box_eq_dec : EqDecision (Box ndim).
Proof. solve_decision. Defined.

(** [operator==] *)
Definition eqb a b : bool := bool_decide (a = b).

(** [struct less]: true as soon as one dimension has [a.min(i) < b.min(i)]. *)
Definition less a b : bool :=
  existsb (fun i => min a i <? min b i) dims.

(** [std::equal(v.cbegin(), v.cend(), w.cbegin(), op)] *)
Definition std_equal (op : Z -> Z -> bool) (v w : vec Z ndim) : bool :=
  forallb (fun i => op (v !!! i) (w !!! i)) dims.

Definition Disjoint a b : bool :=
  existsb (fun i => (max_ a !!! i <? min_ b !!! i) || (max_ b !!! i <? min_ a !!! i)) dims.

Definition Intersects a b : bool :=
  std_equal Z.leb (min_ a) (max_ b) && std_equal Z.geb (max_ a) (min_ b).

Definition Overlaps a b : bool :=
  std_equal Z.ltb (min_ a) (max_ b) && std_equal Z.gtb (max_ a) (min_ b).

Definition Contains a b : bool :=
  std_equal Z.leb (min_ a) (min_ b) && std_equal Z.geb (max_ a) (max_ b).

Definition ContainsNonInclusive a b : bool :=
  std_equal Z.leb (min_ a) (min_ b) && std_equal Z.gtb (max_ a) (max_ b).

Definition Covers a b : bool :=
  std_equal Z.ltb (min_ a) (min_ b) && std_equal Z.gtb (max_ a) (max_ b).

Definition Equals a b : bool :=
  std_equal Z.eqb (min_ a) (min_ b) && std_equal Z.eqb (max_ a) (max_ b).

(** One iteration of the loop of [Nearest]; [pow(b_dist, 2)] is the
    exact square. *)
Definition Nearest_step a b (dist_sq : Z) (i : fin ndim) : Z :=
  let b_bigger  := Z.max 0 (min_ b !!! i - max_ a !!! i) in
  let b_smaller := Z.max 0 (min_ a !!! i - max_ b !!! i) in
  let b_dist    := Z.max b_bigger b_smaller in
  dist_sq + b_dist ^ 2.

Definition Nearest a b : Z := fold_left (Nearest_step a b) dims 0.

(** One iteration of the loop of [Furthest]. *)
Definition Furthest_step a b (dist_sq : Z) (i : fin ndim) : Z :=
  if xorb (max_ a !!! i <? max_ b !!! i) (min_ b !!! i <? min_ a !!! i) then
    let b_bigger  := (max_ b !!! i - min_ a !!! i) ^ 2 in
    let b_smaller := (min_ b !!! i - max_ a !!! i) ^ 2 in
    dist_sq + Z.max b_bigger b_smaller
  else dist_sq.

Definition Furthest a b : Z := fold_left (Furthest_step a b) dims 0.

Definition Union a b : Box ndim := stretch a b.

(** [Union(a, b).area() - a.area()], of the exact areas. *)
Definition IncreaseToHold a b : Z := area (Union a b) - area a.

(** The corners of [a] lie in the cube from [-B] to [B]. *)
Definition within (B : Z) a : Prop :=
  forall i, - B <= min_ a !!! i <= B /\ - B <= max_ a !!! i <= B.

(** The cubes in which no length, area or difference of areas of the
    code leaves the range of the coordinate type: four times the area
    of the cube does not exceed [numeric_limits::max()]. *)
Definition no_overflow (B : Z) : Prop :=
  0 <= B /\ 4 * (2 * B) ^ Z.of_nat ndim <= numeric_max.

End Ops.

(** [longest_dimension]: [ans = 0; cur_max = length(0)], then the scan
    from dimension 1. *)
Definition longest_dimension {n : nat} (a : Box (S n)) : fin (S n) :=
  fst (fold_left
         (fun (acc : fin (S n) * Z) (i : fin (S n)) =>
            if length a i >? snd acc then (i, length a i) else acc)
         (FS <$> enum (fin n))
         (0%fin, length a 0%fin)).

End Bound.

Export Bound(Box, mkBox, min_, max_).

(** ** hopi/spatial/common/truncated_multiset.hpp *)

(** [std::multiset<std::pair<Z,A>, LessPair<0>>] as the list of its
    elements in iteration order.  [insert]/[emplace] put the new element
    at the upper bound of the elements with an equivalent key. *)
Fixpoint multiset_insert {A} (x : Z * A) (s : list (Z * A)) : list (Z * A) :=
  match s with
  | [] => [x]
  | y :: s' => if x.1 <? y.1 then x :: s else y :: multiset_insert x s'
  end.

Module TruncatedMultiSet.

Record t (A : Type) : Type := mk {
  _data_set : list (Z * A);
  _count : nat
}.
Arguments mk {A} _ _.
Arguments _data_set {A} _.
Arguments _count {A} _.

Section Ops.
Context {A : Type}.

(** [TruncatedMultiSet(const size_type count)] *)
Definition make (count : nat) : t A := mk [] count.

Definition size (s : t A) : nat := length (_data_set s).

(** [if (size > _count) erase(next(begin, _count), end)] *)
Definition truncate_ (s : t A) : t A :=
  if (_count s <? length (_data_set s))%nat
  then mk (take (_count s) (_data_set s)) (_count s)
  else s.

Definition emplace (x : Z * A) (s : t A) : t A :=
  truncate_ (mk (multiset_insert x (_data_set s)) (_count s)).

(** [insert(const value_type&)] *)
Definition insert (x : Z * A) (s : t A) : t A :=
  truncate_ (mk (multiset_insert x (_data_set s)) (_count s)).

(** [insert(first, last)]: the whole range goes into the set before it is
    truncated. *)
Definition insert_range (xs : list (Z * A)) (s : t A) : t A :=
  truncate_ (mk (fold_left (fun data x => multiset_insert x data) xs (_data_set s))
                (_count s)).

(** [crbegin()->first]; dereferencing [crbegin()] of an empty set is
    undefined. *)
Definition crbegin_first (s : t A) : option Z := fst <$> last (_data_set s).

End Ops.
End TruncatedMultiSet.

(** ** hopi/spatial/shared/predicate *)

Module Predicate.
Section Pred.
Context {ndim : nat}.

(** [spatial_predicate<BoundType, NodeOpTag, LeafOpTag>]: the two tags
    are the dispatched box tests. *)
Record spatial_predicate : Type := mkSpatial {
  sp_NodeOp : Box ndim -> Box ndim -> bool;
  sp_LeafOp : Box ndim -> Box ndim -> bool;
  sp_bound : Box ndim
}.

Definition spatial_apply (p : spatial_predicate) (bound : Box ndim) (is_leaf : bool) : bool :=
  if is_leaf then sp_LeafOp p bound (sp_bound p) else sp_NodeOp p bound (sp_bound p).

(** [distance_predicate<BoundType, NodeOpTag, LeafOpTag>] *)
Record distance_predicate : Type := mkDistance {
  dp_NodeOp : Box ndim -> Box ndim -> Z;
  dp_LeafOp : Box ndim -> Box ndim -> Z;
  dp_bound : Box ndim;
  dp_count : nat
}.

Definition distance_apply (p : distance_predicate) (bound : Box ndim) (is_leaf : bool) : Z :=
  if is_leaf then dp_LeafOp p bound (dp_bound p) else dp_NodeOp p bound (dp_bound p).

Definition count (p : distance_predicate) : nat := dp_count p.

(** factories.hpp, with the dispatch of dispatch.hpp inlined. *)
Definition Disjoint (bound : Box ndim) : spatial_predicate :=
  mkSpatial (fun _ _ => true) Bound.Disjoint bound.
Definition Intersects (bound : Box ndim) : spatial_predicate :=
  mkSpatial Bound.Intersects Bound.Intersects bound.
Definition Contains (bound : Box ndim) : spatial_predicate :=
  mkSpatial Bound.Contains Bound.Contains bound.
Definition ContainedBy (bound : Box ndim) : spatial_predicate :=
  mkSpatial Bound.Intersects (fun a b => Bound.Contains b a) bound.
Definition ContainedByNonInclusive (bound : Box ndim) : spatial_predicate :=
  mkSpatial Bound.Intersects (fun a b => Bound.ContainsNonInclusive b a) bound.
Definition Equals (bound : Box ndim) : spatial_predicate :=
  mkSpatial Bound.Intersects Bound.Equals bound.
Definition Nearest (bound : Box ndim) (n : nat) : distance_predicate :=
  mkDistance Bound.Nearest Bound.Nearest bound n.
Definition Overlaps (bound : Box ndim) : spatial_predicate :=
  mkSpatial Bound.Overlaps Bound.Overlaps bound.
Definition Covers (bound : Box ndim) : spatial_predicate :=
  mkSpatial Bound.Covers Bound.Covers bound.
Definition CoveredBy (bound : Box ndim) : spatial_predicate :=
  mkSpatial Bound.Overlaps (fun a b => Bound.Covers b a) bound.

End Pred.
Arguments spatial_predicate : clear implicits.
Arguments distance_predicate : clear implicits.
End Predicate.

(** ** hopi/spatial/shared/index/rtree: node storage *)

(** page.hpp: the child list and the cached bound.  The node type is a
    parameter because [Node] is only declared at this point of the
    source. *)
Record Page (ndim : nat) (node_type : Type) : Type := mkPage {
  nodes_ : list node_type;
  bound_ : Box ndim
}.
Arguments mkPage {ndim node_type} _ _.
Arguments nodes_ {ndim node_type} _.
Arguments bound_ {ndim node_type} _.

#[local] Set Warnings "-register-all".

Section RTreeIndex.
Context {ndim : nat} {Value : Type}.
(** The [BoundExtractor] functor and the equality used on leaf data. *)
Context (BoundGetter : Value -> Box ndim) (EqualOp : Value -> Value -> bool).

(** node.hpp: [std::variant<page_type, leaf_type> data_]. *)
Inductive Node : Type :=
  | LeafNode (value_ : Value)
  | PageNode (page : Page ndim Node).

Definition isLeaf (n : Node) : bool :=
  match n with LeafNode _ => true | PageNode _ => false end.

Definition isPage (n : Node) : bool := negb (isLeaf n).

Definition getBound (n : Node) : Box ndim :=
  match n with
  | LeafNode v => BoundGetter v
  | PageNode p => bound_ p
  end.

(** [Node::size]: zero for a leaf. *)
Definition size (n : Node) : nat :=
  match n with
  | LeafNode _ => 0%nat
  | PageNode p => length (nodes_ p)
  end.

Definition area (n : Node) : Z := Bound.area (getBound n).

(** [Node::getValue]: asserts that the node is a leaf. *)
Definition getValue (n : Node) : option Value :=
  match n with
  | LeafNode v => Some v
  | PageNode _ => None
  end.

Definition Page_size (p : Page ndim Node) : nat := length (nodes_ p).

Definition Page_stretch (p : Page ndim Node) (other_bound : Box ndim) : Page ndim Node :=
  mkPage (nodes_ p) (Bound.stretch (bound_ p) other_bound).

(** [bound_.reset(); for (node : nodes_) stretch(node->getBound())] *)
Definition Page_restretch (p : Page ndim Node) : Page ndim Node :=
  mkPage (nodes_ p) (fold_left Bound.stretch (getBound <$> nodes_ p) Bound.reset).

(** [nodes_.push_back(child); stretch(child->getBound())] *)
Definition Page_insert (p : Page ndim Node) (child : Node) : Page ndim Node :=
  mkPage (nodes_ p ++ [child]) (Bound.stretch (bound_ p) (getBound child)).

(** [remove(child_ptr, std::false_type)]: the child is named by its
    position; the bound is left as it is. *)
Definition Page_remove (p : Page ndim Node) (child_pos : nat) : Page ndim Node :=
  mkPage (delete child_pos (nodes_ p)) (bound_ p).

Definition Page_clear (p : Page ndim Node) : Page ndim Node := mkPage [] (bound_ p).

(** The child object at [child_pos] has been mutated through a pointer
    to it: the page sees the new state. *)
Definition Page_update (p : Page ndim Node) (child_pos : nat) (child : Node) : Page ndim Node :=
  mkPage (<[child_pos := child]> (nodes_ p)) (bound_ p).

(** [Node()]: an empty page whose bound has been [restretch]ed. *)
Definition Node_new : Page ndim Node := Page_restretch (mkPage [] Bound.reset).

(** The children of a page paired with their positions. *)
Definition indexed (p : Page ndim Node) : list (nat * Node) := imap pair (nodes_ p).

(** The number of nodes below and including [n]. *)
Fixpoint node_count (n : Node) : nat :=
  match n with
  | LeafNode _ => 1%nat
  | PageNode p => S (sum_list (node_count <$> nodes_ p))
  end.

(** The leaf values below [n], left to right. *)
Fixpoint values (n : Node) : list Value :=
  match n with
  | LeafNode v => [v]
  | PageNode p => concat (values <$> nodes_ p)
  end.

(** *** Sentinel-initialised running extrema *)

(** [x < current] where [current] starts as [numeric_limits::max()]. *)
Definition below (x : Z) (current : option Z) : bool :=
  match current with None => true | Some c => x <? c end.

(** [x > current] where [current] starts as [numeric_limits::lowest()]. *)
Definition above (x : Z) (current : option Z) : bool :=
  match current with None => true | Some c => x >? c end.

(** [x == current] for a [current] that starts as
    [numeric_limits::max()]. *)
Definition equal_to (x : Z) (current : option Z) : bool :=
  match current with None => false | Some c => x =? c end.

(** *** The splitting strategies (linear.hpp, quadratic.hpp)

    [pick_seeds] returns the two seed children, [pick_next] the child to
    place and the page to place it into ([true]: the A page); a null
    pointer in the answer is [None]. *)
Class SplittingType : Type := {
  max_children : nat;
  min_children : nat;
  pick_seeds : Page ndim Node -> option (nat * nat);
  pick_next : Page ndim Node -> Page ndim Node -> Page ndim Node -> option (nat * bool)
}.

(** quadratic.hpp, [pick_seeds]: the pair with the largest wasted area. *)
Definition Quadratic_pick_seeds (parent : Page ndim Node) : option (nat * nat) :=
  snd (fold_left
         (fun acc '(i, it) =>
            let i_area := area it in
            fold_left
              (fun (acc : option Z * option (nat * nat)) '(j, jt) =>
                 let j_area := area jt in
                 let c_area := Bound.area (Bound.Union (getBound it) (getBound jt)) in
                 let wasted_area := c_area - i_area - j_area in
                 if above wasted_area (fst acc) then (Some wasted_area, Some (i, j)) else acc)
              (drop (S i) (indexed parent)) acc)
         (indexed parent) (None, None)).

(** quadratic.hpp, [pick_next]: the child with the largest difference of
    the two area increases, placed where the increase is smaller. *)
Definition Quadratic_pick_next (parent a_node b_node : Page ndim Node) : option (nat * bool) :=
  snd (fold_left
         (fun (acc : option Z * option (nat * bool)) '(k, child) =>
            let a_increased_area := Bound.IncreaseToHold (bound_ a_node) (getBound child) in
            let b_increased_area := Bound.IncreaseToHold (bound_ b_node) (getBound child) in
            let diff := Z.abs (a_increased_area - b_increased_area) in
            if above diff (fst acc)
            then (Some diff, Some (k, a_increased_area <? b_increased_area))
            else acc)
         (indexed parent) (None, None)).

(** [Quadratic<MaxChildren, MinChildren>] *)
Definition Quadratic (MaxChildren MinChildren : nat) : SplittingType := {|
  max_children := MaxChildren;
  min_children := MinChildren;
  pick_seeds := Quadratic_pick_seeds;
  pick_next := Quadratic_pick_next
|}.

(** The quotient [n / d] of linear.hpp as the comparison that follows it
    sees it: not a number for [0 / 0], an infinity for another division
    by zero, and otherwise the exact ratio, kept with a positive
    denominator. *)
Inductive quotient : Type :=
  | quotient_nan
  | quotient_inf (negative : bool)
  | quotient_ratio (n d : Z).

Definition divide (n d : Z) : quotient :=
  if d =? 0 then (if n =? 0 then quotient_nan else quotient_inf (n <? 0))
  else if 0 <? d then quotient_ratio n d
  else quotient_ratio (- n) (- d).

(** [x > y]: false as soon as one side is not a number. *)
Definition quotient_gt (x y : quotient) : bool :=
  match x, y with
  | quotient_nan, _ | _, quotient_nan => false
  | quotient_inf x_negative, quotient_inf y_negative => negb x_negative && y_negative
  | quotient_inf x_negative, quotient_ratio _ _ => negb x_negative
  | quotient_ratio _ _, quotient_inf y_negative => y_negative
  | quotient_ratio n d, quotient_ratio n' d' => n' * d <? n * d'
  end.

(** linear.hpp, [pick_seeds], the loop over the children for the
    dimension [i]: the child with the greatest minimum and the child with
    the least maximum, each with its value. *)
Definition Linear_extremes (parent : Page ndim Node) (i : fin ndim)
  : (option nat * Z) * (option nat * Z) :=
  fold_left
    (fun (acc : (option nat * Z) * (option nat * Z)) '(k, child) =>
       let '((maximum_min_child, maximum_min_value),
             (minimum_max_child, minimum_max_value)) := acc in
       ((if Bound.min (getBound child) i >? maximum_min_value
         then (Some k, Bound.min (getBound child) i)
         else (maximum_min_child, maximum_min_value)),
        (if Bound.max (getBound child) i <? minimum_max_value
         then (Some k, Bound.max (getBound child) i)
         else (minimum_max_child, minimum_max_value))))
    (indexed parent) ((None, Bound.numeric_lowest), (None, Bound.numeric_max)).

(** linear.hpp, [pick_seeds]: the two extreme children of the dimension
    with the greatest scaled separation; when the two are the same
    pointer the second becomes the front child, or the back child when
    the first is the front child.  The three [assert]s on the answer
    close the function. *)
Definition Linear_pick_seeds (parent : Page ndim Node) : option (nat * nat) :=
  if (1 <? Page_size parent)%nat then
    let ans :=
      snd (fold_left
             (fun (acc : quotient * (option nat * option nat)) i =>
                let '((maximum_min_child, maximum_min_value),
                      (minimum_max_child, minimum_max_value)) := Linear_extremes parent i in
                let scaled_length :=
                  divide (Z.abs (minimum_max_value - maximum_min_value))
                         (Bound.length (bound_ parent) i) in
                if quotient_gt scaled_length (fst acc)
                then (scaled_length, (minimum_max_child, maximum_min_child))
                else acc)
             Bound.dims (quotient_ratio Bound.numeric_lowest 1, (None, None))) in
    let front := Some 0%nat in
    let back := Some (pred (Page_size parent)) in
    let first := fst ans in
    let second :=
      if decide (first = snd ans)
      then (if decide (first = front) then back else front)
      else snd ans in
    match first, second with
    | Some seed0, Some seed1 => if decide (seed0 = seed1) then None else Some (seed0, seed1)
    | _, _ => None
    end
  else None.

(** linear.hpp, [pick_next]: the front child, placed where the increase
    is smaller. *)
Definition Linear_pick_next (parent a_node b_node : Page ndim Node) : option (nat * bool) :=
  next_child ← head (nodes_ parent);
  let a_increased_area := Bound.IncreaseToHold (bound_ a_node) (getBound next_child) in
  let b_increased_area := Bound.IncreaseToHold (bound_ b_node) (getBound next_child) in
  Some (0%nat, a_increased_area <? b_increased_area).

(** [Linear<MaxChildren, MinChildren>] *)
Definition Linear (MaxChildren MinChildren : nat) : SplittingType := {|
  max_children := MaxChildren;
  min_children := MinChildren;
  pick_seeds := Linear_pick_seeds;
  pick_next := Linear_pick_next
|}.

(** [static_assert((MinChildren > 1) && (MinChildren <= MaxChildren/2))] *)
Definition static_assert (S : SplittingType) : Prop :=
  (1 < @min_children S)%nat /\ (@min_children S <= @max_children S / 2)%nat.

(** What the [assert]s of the strategies promise about their answers:
    two different children of the parent as seeds, and a child of the
    parent as the next child to place. *)
Class SplittingContract (S : SplittingType) : Prop := {
  contract_static_assert : static_assert S;
  contract_pick_seeds parent :
    (2 <= Page_size parent)%nat ->
    exists seed0 seed1,
      @pick_seeds S parent = Some (seed0, seed1)
      /\ (seed0 < Page_size parent)%nat /\ (seed1 < Page_size parent)%nat
      /\ seed0 <> seed1;
  contract_pick_next parent a_node b_node :
    (0 < Page_size parent)%nat ->
    exists next_pos into_a,
      @pick_next S parent a_node b_node = Some (next_pos, into_a)
      /\ (next_pos < Page_size parent)%nat
}.

(** *** algorithm.hpp *)

Section Algorithm.
Context {SplittingT : SplittingType}.

(** Where the child at position [pos] sits once the child at [removed]
    is gone from the list; [None] when it was that child. *)
Definition position_after (removed pos : nat) : option nat :=
  if (pos <? removed)%nat then Some pos
  else if (pos =? removed)%nat then None
  else Some (pred pos).

(** The [while] loop of [split_node]; [fuel] bounds the number of
    iterations and is only consulted when the loop condition holds. *)
Fixpoint split_loop (fuel : nat) (parent a_node b_node : Page ndim Node)
  : option (Page ndim Node * Page ndim Node * Page ndim Node) :=
  if (0 <? Page_size parent)%nat
     && (min_children <? Page_size parent + Page_size a_node)%nat
     && (min_children <? Page_size parent + Page_size b_node)%nat
  then
    match fuel with
    | O => None
    | S fuel' =>
        '(next_pos, into_a) ← pick_next parent a_node b_node;
        next_child ← nodes_ parent !! next_pos;
        let parent' := Page_remove parent next_pos in
        if into_a : bool
        then split_loop fuel' parent' (Page_insert a_node next_child) b_node
        else split_loop fuel' parent' a_node (Page_insert b_node next_child)
    end
  else Some (parent, a_node, b_node).

(** [do { n->insert(parent->front()); parent->remove(parent->front()); }
    while (parent->size() > 0)] *)
Definition drain_into (parent target : Page ndim Node) : Page ndim Node * Page ndim Node :=
  (Page_clear parent, fold_left Page_insert (nodes_ parent) target).

(** [split_node]: the two new pages and the emptied parent. *)
Definition split_node (parent : Page ndim Node)
  : option (Page ndim Node * Page ndim Node * Page ndim Node) :=
  '(seed0, seed1) ← pick_seeds parent;
  child0 ← nodes_ parent !! seed0;
  child1 ← nodes_ parent !! seed1;
  let a_node := Page_insert Node_new child0 in
  let parent := Page_remove parent seed0 in
  let b_node := Page_insert Node_new child1 in
  let parent := match position_after seed0 seed1 with
                | Some pos => Page_remove parent pos
                | None => parent
                end in
  '(parent, a_node, b_node) ← split_loop (Page_size parent) parent a_node b_node;
  let '(parent, a_node, b_node) :=
    if (0 <? Page_size parent)%nat then
      if (Page_size a_node <? min_children)%nat
      then let '(p, a) := drain_into parent a_node in (p, a, b_node)
      else let '(p, b) := drain_into parent b_node in (p, a_node, b)
    else (parent, a_node, b_node) in
  let parent := Page_clear parent in
  if (min_children <=? Page_size a_node)%nat && (min_children <=? Page_size b_node)%nat
     && (Page_size a_node <=? max_children)%nat && (Page_size b_node <=? max_children)%nat
     && (Page_size parent =? 0)%nat
  then Some (a_node, b_node, parent)
  else None.

(** One iteration of the scan of [find_best_fit_in_node].  The
    [assert(best_node)] of the tie branch cannot fail: once a child has
    been accepted [current_minimum] is no longer the sentinel. *)
Definition best_fit_step (bounding_box : Box ndim)
    (acc : option (nat * Node) * option Z) (entry : nat * Node)
  : option (nat * Node) * option Z :=
  let '(best_node, current_minimum) := acc in
  let '(pos, child) := entry in
  let area_to_enlarge := Bound.IncreaseToHold (getBound child) bounding_box in
  if below area_to_enlarge current_minimum
  then (Some (pos, child), Some area_to_enlarge)
  else if equal_to area_to_enlarge current_minimum then
    match best_node with
    | Some (_, best) =>
        if (area child <? area best) || (size child <? size best)%nat
        then (Some (pos, child), current_minimum)
        else acc
    | None => acc
    end
  else acc.

(** [find_best_fit_in_node]: the position of the returned child. *)
Definition find_best_fit_in_node (bounding_box : Box ndim) (current_node : Page ndim Node)
  : option nat :=
  match nodes_ current_node with
  | [] => None
  | front :: _ =>
      if isLeaf front then Some 0%nat
      else fst <$> fst (fold_left (best_fit_step bounding_box) (indexed current_node) (None, None))
  end.

(** The chain of parents of a page: each parent as it was when the
    descent went through it, with the position of the child taken. *)
Definition parents : Type := list (Page ndim Node * nat).

(** The descent loop of [find_best_fit_in_tree]; the answer is the
    parent of the leaf reached, with its own chain of parents. *)
Fixpoint find_best_fit_from (bounding_box : Box ndim) (current_node : Node) (chain : parents)
  : option (Page ndim Node * parents) :=
  match current_node with
  | LeafNode _ => None
  | PageNode p =>
      pos ← find_best_fit_in_node bounding_box p;
      (fix child_at (children : list Node) (i : nat) {struct children} :=
         match children, i with
         | [], _ => None
         | child :: _, O =>
             match child with
             | LeafNode _ => Some (p, chain)
             | PageNode _ => find_best_fit_from bounding_box child ((p, pos) :: chain)
             end
         | _ :: children', S i' => child_at children' i'
         end) (nodes_ p) pos
  end.

Definition find_best_fit_in_tree (starting_node : option Node) (bounding_box : Box ndim)
  : option (Page ndim Node * parents) :=
  match starting_node with
  | None => Some (Node_new, [])
  | Some root => find_best_fit_from bounding_box root []
  end.

(** One iteration of [while (current_node_ptr->hasParent())] in
    [expand_tree]: the new state of the parent. *)
Definition expand_step (start_bound : Box ndim) (current : Page ndim Node)
    (parent : Page ndim Node * nat) : option (Page ndim Node) :=
  let '(parent_node, pos) := parent in
  parent_node ←
    (if (max_children <? Page_size current)%nat then
       '(a, b, _) ← split_node current;
       Some (Page_insert (Page_insert (Page_remove parent_node pos) (PageNode a)) (PageNode b))
     else Some (Page_update parent_node pos (PageNode current)));
  Some (Page_stretch parent_node start_bound).

Fixpoint expand_loop (start_bound : Box ndim) (current : Page ndim Node) (chain : parents)
  : option (Page ndim Node) :=
  match chain with
  | [] => Some current
  | parent :: chain' =>
      parent_node ← expand_step start_bound current parent;
      expand_loop start_bound parent_node chain'
  end.

(** [expand_tree]: the new root. *)
Definition expand_tree (starting_node : Page ndim Node) (chain : parents)
  : option (Page ndim Node) :=
  current ← expand_loop (bound_ starting_node) starting_node chain;
  if (max_children <? Page_size current)%nat then
    '(a, b, _) ← split_node current;
    Some (Page_insert (Page_insert Node_new (PageNode a)) (PageNode b))
  else Some current.

(** [Algorithm::insert]: the new root. *)
Definition insert (starting_node : option Node) (place_node : Node) : option Node :=
  '(best_node, chain) ← find_best_fit_in_tree starting_node (getBound place_node);
  PageNode <$> expand_tree (Page_insert best_node place_node) chain.





End Algorithm.

(** *** rtree.hpp: class RTree *)

Record RTree : Type := mkRTree { root_node_ptr_ : option Node }.

(** [RTree() = default] *)
Definition RTree_default : RTree := mkRTree None.

Section Tree.
Context {Parameters : SplittingType}.

Definition RTree_insert (t : RTree) (value : Value) : option RTree :=
  root ← insert (root_node_ptr_ t) (LeafNode value);
  Some (mkRTree (Some root)).


(** [template<Iterator> insert(first, last)] *)
Definition RTree_insert_range (t : RTree) (values : list Value) : option RTree :=
  fold_left (fun t value => t ← t; RTree_insert t value) values (Some t).

End Tree.


(** [return root_node_ptr_->getBound();] *)
Definition RTree_bounds (t : RTree) : option (Box ndim) :=
  getBound <$> root_node_ptr_ t.

(** The [while] loop of the spatial [query_dispatch]: [candidate_nodes]
    is the work list, [out] what has been written to the output
    iterator. *)
Fixpoint spatial_loop (fuel : nat) (pred : Predicate.spatial_predicate ndim)
    (candidate_nodes : list Node) (out : list Value) : option (list Value) :=
  match candidate_nodes with
  | [] => Some out
  | current_candidate :: rest =>
      match fuel with
      | O => None
      | S fuel' =>
          let candidate_is_leaf := isLeaf current_candidate in
          if Predicate.spatial_apply pred (getBound current_candidate) candidate_is_leaf then
            match current_candidate with
            | LeafNode v => spatial_loop fuel' pred rest (out ++ [v])
            | PageNode p => spatial_loop fuel' pred (rest ++ nodes_ p) out
            end
          else spatial_loop fuel' pred rest out
      end
  end.

(** [query_dispatch(pred, out_it, std::false_type)]: the values written;
    the count returned is their number. *)
Definition query_spatial (t : RTree) (pred : Predicate.spatial_predicate ndim)
  : option (list Value) :=
  match root_node_ptr_ t with
  | None => Some []
  | Some root => spatial_loop (node_count root) pred [root] []
  end.

(** The [for] loop that puts the children of a page into
    [candidate_nodes]. *)
Definition push_children (pred : Predicate.distance_predicate ndim)
    (children : list Node) (candidate_nodes : list (Z * Node)) : list (Z * Node) :=
  fold_left
    (fun candidates child =>
       multiset_insert (Predicate.distance_apply pred (getBound child) (isLeaf child), child)
                       candidates)
    children candidate_nodes.

(** The [while] loop of the distance [query_dispatch]. *)
Fixpoint distance_loop (fuel : nat) (pred : Predicate.distance_predicate ndim)
    (candidate_nodes : list (Z * Node))
    (candidate_leafs : TruncatedMultiSet.t Node)
    (distance_threshhold : Z) : option (TruncatedMultiSet.t Node) :=
  match candidate_nodes with
  | [] => Some candidate_leafs
  | (dist, current_candidate) :: rest =>
      match fuel with
      | O => None
      | S fuel' =>
          if dist <=? distance_threshhold then
            match current_candidate with
            | LeafNode _ =>
                let candidate_leafs :=
                  TruncatedMultiSet.emplace (dist, current_candidate) candidate_leafs in
                if (Predicate.count pred <=? TruncatedMultiSet.size candidate_leafs)%nat then
                  threshhold ← TruncatedMultiSet.crbegin_first candidate_leafs;
                  distance_loop fuel' pred rest candidate_leafs threshhold
                else distance_loop fuel' pred rest candidate_leafs distance_threshhold
            | PageNode p =>
                distance_loop fuel' pred (push_children pred (nodes_ p) rest)
                              candidate_leafs distance_threshhold
            end
          else distance_loop fuel' pred rest candidate_leafs distance_threshhold
      end
  end.

(** [query_dispatch(pred, out_it, std::true_type)]: the values written
    through [out_it], in order.  [distance_threshhold] starts as
    [numeric_limits::max()]. *)
Definition query_distance (t : RTree) (pred : Predicate.distance_predicate ndim)
  : option (list Value) :=
  match root_node_ptr_ t with
  | None => Some []
  | Some root =>
      let distance_threshhold := Bound.numeric_max in
      let is_leaf := isLeaf root in
      let dist := Predicate.distance_apply pred (getBound root) is_leaf in
      candidate_leafs ←
        distance_loop (node_count root) pred [(dist, root)]
                      (TruncatedMultiSet.make (Predicate.count pred)) distance_threshhold;
      mapM (fun value_pair => getValue (snd value_pair))
           (TruncatedMultiSet._data_set candidate_leafs)
  end.

End RTreeIndex.

Arguments Node : clear implicits.
Arguments RTree : clear implicits.
Arguments SplittingType : clear implicits.
Arguments SplittingContract {ndim Value} S.
Arguments parents : clear implicits.

(** ** hopi/spatial/shared/index/exhaustive.hpp *)

(** [std::remove_if(first, last, p)] on a container whose elements are
    copied by move assignment: the elements that are kept are shifted to
    the front, the positions behind them keep what they held, and the
    container keeps its size. *)
Definition std_remove_if {A} (p : A -> bool) (l : list A) : list A :=
  let kept := filter (fun x => p x = false) l in
  kept ++ drop (length kept) l.

Section ExhaustiveIndex.
Context {ndim : nat} {Value : Type}.
Context (BoundExtractor : Value -> Box ndim) (EqualOp : Value -> Value -> bool).

Record Exhaustive : Type := mkExhaustive {
  _values : list Value;
  _bound : Box ndim
}.

Definition _stretch (e : Exhaustive) (value : Value) : Exhaustive :=
  mkExhaustive (_values e) (Bound.stretch (_bound e) (BoundExtractor value)).

Definition _restretch (e : Exhaustive) : Exhaustive :=
  mkExhaustive (_values e)
               (fold_left Bound.stretch (BoundExtractor <$> _values e) Bound.reset).

(** [_remove]: the iterator returned by [std::remove_if] is dropped. *)
Definition _remove (e : Exhaustive) (value : Value) : Exhaustive :=
  mkExhaustive (std_remove_if (fun v => EqualOp value v) (_values e)) (_bound e).

Definition Exhaustive_insert (e : Exhaustive) (value : Value) : Exhaustive :=
  let e := _stretch e value in
  mkExhaustive (_values e ++ [value]) (_bound e).

Definition Exhaustive_remove (e : Exhaustive) (value : Value) : Exhaustive :=
  _restretch (_remove e value).

Definition Exhaustive_size (e : Exhaustive) : nat := length (_values e).

(** [_query_dispatch(pred, out_it, std::false_type)]: the values written;
    the count returned is their number. *)
Definition Exhaustive_query (e : Exhaustive) (pred : Predicate.spatial_predicate ndim)
  : list Value :=
  List.filter (fun value => Predicate.spatial_apply pred (BoundExtractor value) true)
              (_values e).

(** [template<Iterator> insert(first, last)] *)
Definition Exhaustive_insert_range (e : Exhaustive) (values : list Value) : Exhaustive :=
  fold_left Exhaustive_insert values e.

Definition Exhaustive_bounds (e : Exhaustive) : Box ndim := _bound e.

(** [_query_dispatch(pred, out_it, std::true_type)]: the values written
    through [out_it] and the count returned, which is [pred.count()]. *)
Definition Exhaustive_query_distance (e : Exhaustive)
    (pred : Predicate.distance_predicate ndim) : list Value * nat :=
  let min_set :=
    fold_left
      (fun min_set value =>
         TruncatedMultiSet.emplace
           (Predicate.distance_apply pred (BoundExtractor value) true, value) min_set)
      (_values e) (TruncatedMultiSet.make (Predicate.count pred)) in
  (snd <$> TruncatedMultiSet._data_set min_set, Predicate.count pred).

End ExhaustiveIndex.

Arguments Exhaustive : clear implicits.

(** ** test/system/system.cpp: class UniqueMap *)

Section UniqueMapModel.
Context {T : Type} `{Countable T} `{Inhabited T}.

Record UniqueMap : Type := mkUniqueMap {
  unique_idx_ : list nat;
  non_unique_map_ : list (nat * nat)
}.

(** One iteration of the loop of [setup]; [unique_id_map] is the
    [std::unordered_map] from a value to the index it was first seen at. *)
Definition setup_step (state : gmap T nat * UniqueMap) (entry : nat * T)
  : gmap T nat * UniqueMap :=
  let '(unique_id_map, um) := state in
  let '(i, val) := entry in
  match unique_id_map !! val with
  | None =>
      (<[val := i]> unique_id_map,
       mkUniqueMap (unique_idx_ um ++ [i]) (non_unique_map_ um))
  | Some first_seen =>
      (unique_id_map,
       mkUniqueMap (unique_idx_ um) (non_unique_map_ um ++ [(i, first_seen)]))
  end.

Definition setup (vals : list T) : UniqueMap :=
  snd (fold_left setup_step (imap pair vals) (∅, mkUniqueMap [] [])).

(** [vout.resize(num_unique); for i: vout[i] = vin[unique_idx_[i]]] *)
Definition reduce_to_unique (um : UniqueMap) (vin vout : list T) : option (list T) :=
  let num_unique := length (unique_idx_ um) in
  fold_left
    (fun vout i =>
       vout ← vout;
       idx ← unique_idx_ um !! i;
       x ← vin !! idx;
       Some (<[i := x]> vout))
    (seq 0 num_unique)
    (Some (resize num_unique inhabitant vout)).

(** [vout[i] = x] with the bounds of the vector checked. *)
Definition store (vout : list T) (i : nat) (x : T) : option (list T) :=
  if decide (i < length vout)%nat then Some (<[i := x]> vout) else None.

Definition expand_to_non_unique (um : UniqueMap) (vin vout : list T) : option (list T) :=
  let vout := resize (length (unique_idx_ um) + length (non_unique_map_ um)) inhabitant vout in
  vout ←
    fold_left
      (fun vout i =>
         vout ← vout;
         idx ← unique_idx_ um !! i;
         x ← vin !! i;
         store vout idx x)
      (seq 0 (length (unique_idx_ um))) (Some vout);
  fold_left
    (fun vout i =>
       vout ← vout;
       entry ← non_unique_map_ um !! i;
       x ← vout !! (snd entry);
       store vout (fst entry) x)
    (seq 0 (length (non_unique_map_ um))) (Some vout).

Definition num_total (um : UniqueMap) : nat :=
  (length (unique_idx_ um) + length (non_unique_map_ um))%nat.

End UniqueMapModel.

Arguments UniqueMap : clear implicits.

(** ** hopi/partition/rcb.hpp *)

Module RCB.

(** [WeightedAdaptor3D::NDim] and the types of the private section. *)
Definition NDim : nat := 3.
Definition box_type : Type := Box NDim.
Definition index_type : Type := (box_type * nat)%type.
Definition IndexExtractor (index : index_type) : box_type := fst index.
Definition Parameters : SplittingType NDim index_type := Quadratic IndexExtractor 10 4.

(** The strided views handed to [init]; [count] is the [local_count]
    that the source uses without declaring it. *)
Record adaptor_type : Type := mkAdaptor {
  count : nat;
  x_ : list Z; xinc_ : nat;
  y_ : list Z; yinc_ : nat;
  z_ : list Z; zinc_ : nat;
  w_ : option (list Z); winc_ : nat
}.

(** [std::vector<weight_type> weight(local_count, 1)], overwritten from
    [w] when it is given. *)
Definition copy_weights (adapt : adaptor_type) : option (list Z) :=
  match w_ adapt with
  | None => Some (replicate (count adapt) 1)
  | Some w => mapM (fun i => w !! (i * winc_ adapt)%nat) (seq 0 (count adapt))
  end.

(** The loop that builds the tree of points. *)
Definition build_rtree (adapt : adaptor_type) : option (RTree NDim index_type) :=
  fold_left
    (fun rtree i =>
       rtree ← rtree;
       x ← x_ adapt !! (i * xinc_ adapt)%nat;
       y ← y_ adapt !! (i * yinc_ adapt)%nat;
       z ← z_ adapt !! (i * zinc_ adapt)%nat;
       let point : vec Z NDim := [# x; y; z] in
       RTree_insert IndexExtractor (Parameters := Parameters) rtree (mkBox point point, i))
    (seq 0 (count adapt)) (Some RTree_default).

(** [std::partial_sum] *)
Fixpoint partial_sum (acc : Z) (l : list Z) : list Z :=
  match l with
  | [] => []
  | x :: l' => (acc + x) :: partial_sum (acc + x) l'
  end.

(** [std::upper_bound(first, last, ratio * back)] for the ratio
    [small/total]: the position of the first element [e] with
    [ratio * back < e], read in exact arithmetic as
    [small * back < e * total]. *)
Fixpoint upper_bound (small total back : Z) (l : list Z) : nat :=
  match l with
  | [] => O
  | e :: l' => if small * back <? e * total then O else S (upper_bound small total back l')
  end.

(** The order of the [std::sort] of the contained points. *)
Definition center_le (long_dim : fin NDim) (a b : index_type) : Prop :=
  Bound.center (fst a) long_dim <= Bound.center (fst b) long_dim.

Global Instance center_le_dec long_dim a b : Decision (center_le long_dim a b).
Proof. unfold center_le. apply _. Defined.

(** The body of the first [for] loop over the boxes: this rank's packed
    split candidate.  ([std::sort] leaves the relative order of points
    with equal centers open; the model keeps them in query order.) *)
Definition local_split (rtree : RTree NDim index_type) (weight : list Z)
    (to_split : box_type * Z) : option (Z * Z) :=
  let '(search_box, total_partition) := to_split in
  let small_partition := total_partition `quot` 2 in
  contained_points ←
    query_spatial IndexExtractor rtree (Predicate.ContainedByNonInclusive search_box);
  let long_dim := Bound.longest_dimension search_box in
  let contained_points := merge_sort (center_le long_dim) contained_points in
  contained_weights ← mapM (fun p : index_type => weight !! snd p) contained_points;
  let contained_weights := partial_sum 0 contained_weights in
  back ← last contained_weights;
  let median_index := upper_bound small_partition total_partition back contained_weights in
  median_point ← contained_points !! median_index;
  let median_value := Bound.center (fst median_point) long_dim in
  let total_weight := back in
  Some (median_value * total_weight, total_weight).

(** The combiner handed to [all_reduce] in [init]. *)
Definition init_combiner {A B} (a b : list (A * B)) : option (list (A * B)) :=
  fold_left
    (fun ans n =>
       ans ← ans;
       bn ← b !! n;
       Some (<[n := (fst bn, snd bn)]> ans))
    (seq 0 (length a)) (Some a).

(** The combiner handed to [all_reduce] in [report]. *)
Definition report_combiner (a b : list Z) : option (list Z) :=
  fold_left
    (fun ans n =>
       ans ← ans;
       an ← ans !! n;
       bn ← b !! n;
       Some (<[n := an + bn]> ans))
    (seq 0 (length a)) (Some a).

(** [mpixx::all_reduce(comm, in, out, op)]: the per-rank values folded
    with [op] in rank order; every rank receives the result. *)
Definition all_reduce {A} (op : A -> A -> option A) (in_values : list A) : option A :=
  match in_values with
  | [] => None
  | v0 :: rest => fold_left (fun acc v => acc ← acc; op acc v) rest (Some v0)
  end.

(** [global_split_list[index].first / global_split_list[index].second] *)
Definition weighted_split (global : Z * Z) : Z := fst global / snd global.

(** "Build 2 Boxes": the low and the high bound. *)
Definition split_box (search_box : box_type) (long_dim : fin NDim) (split : Z)
  : box_type * box_type :=
  let hgh_bound := search_box in
  let new_min_corner := vinsert long_dim split (min_ hgh_bound) in
  let hgh_bound := Bound.set new_min_corner (max_ hgh_bound) in
  let low_bound := search_box in
  let new_max_corner := vinsert long_dim split (max_ low_bound) in
  let low_bound := Bound.set (min_ low_bound) new_max_corner in
  (low_bound, hgh_bound).

(** [std::set<box_type, box_type::less>::insert] on the set as the list
    of its elements in iteration order: the new box goes in front of the
    first element that is not [less] than it, unless that element is
    equivalent to it (neither is [less] than the other).  [less] is not
    a strict weak order, so on boxes that it does not order consistently
    the search tree of a [std::set] can place a box elsewhere; the scan
    from the front and the tree agree where [less] orders the boxes met. *)
Fixpoint set_insert (box : box_type) (s : list box_type) : list box_type :=
  match s with
  | [] => [box]
  | y :: s' =>
      if Bound.less y box then y :: set_insert box s'
      else if Bound.less box y then box :: s
      else s
  end.

(** The body of the second [for] loop over the boxes. *)
Definition place_boxes (to_split : box_type * Z) (global : Z * Z)
    (state : list (box_type * Z) * list box_type) : list (box_type * Z) * list box_type :=
  let '(new_boxes_to_split, final_boxes) := state in
  let '(search_box, total_partition) := to_split in
  let long_dim := Bound.longest_dimension search_box in
  let '(low_bound, hgh_bound) := split_box search_box long_dim (weighted_split global) in
  let small_partition := total_partition `quot` 2 in
  let large_partition := total_partition - small_partition in
  let '(new_boxes_to_split, final_boxes) :=
    if 1 =? small_partition
    then (new_boxes_to_split, set_insert low_bound final_boxes)
    else (new_boxes_to_split ++ [(low_bound, small_partition)], final_boxes) in
  if 1 =? large_partition
  then (new_boxes_to_split, set_insert hgh_bound final_boxes)
  else (new_boxes_to_split ++ [(hgh_bound, large_partition)], final_boxes).

(** One iteration of [while (boxes_to_split.size() > 0)], run by all
    ranks; [ranks] holds each rank's tree and weights. *)
Definition round (ranks : list (RTree NDim index_type * list Z))
    (boxes_to_split : list (box_type * Z)) (final_boxes : list box_type)
  : option (list (box_type * Z) * list box_type) :=
  local_split_lists ←
    mapM (fun '(rtree, weight) => mapM (local_split rtree weight) boxes_to_split) ranks;
  global_split_list ← all_reduce init_combiner local_split_lists;
  fold_left
    (fun state index =>
       state ← state;
       to_split ← boxes_to_split !! index;
       global ← global_split_list !! index;
       Some (place_boxes to_split global state))
    (seq 0 (length boxes_to_split)) (Some ([], final_boxes)).

Fixpoint rounds (fuel : nat) (ranks : list (RTree NDim index_type * list Z))
    (boxes_to_split : list (box_type * Z)) (final_boxes : list box_type)
  : option (list box_type) :=
  match boxes_to_split with
  | [] => Some final_boxes
  | _ :: _ =>
      match fuel with
      | O => None
      | S fuel' =>
          '(new_boxes_to_split, final_boxes) ← round ranks boxes_to_split final_boxes;
          rounds fuel' ranks new_boxes_to_split final_boxes
      end
  end.

(** [RCB::init], run by the ranks of the communicator on their adaptors:
    the vector [m_bounds] that every rank ends with. *)
Definition init (adaptors : list adaptor_type) : option (list box_type) :=
  ranks ← mapM (fun adapt =>
                  weight ← copy_weights adapt;
                  rtree ← build_rtree adapt;
                  Some (rtree, weight)) adaptors;
  bounds_by_rank ← mapM (fun '(rtree, _) => RTree_bounds IndexExtractor rtree) ranks;
  global_box ← match bounds_by_rank with
               | [] => None
               | b0 :: rest => Some (fold_left Bound.stretch rest b0)
               end;
  let global_box := Bound.next_larger global_box in
  let total_partitions := Z.of_nat (length adaptors) in
  let '(boxes_to_split, final_boxes) :=
    if total_partitions =? 1
    then ([], set_insert global_box [])
    else ([(global_box, total_partitions)], []) in
  rounds (length adaptors) ranks boxes_to_split final_boxes.

End RCB.

(** ** Invariants *)

(** A running maximum with its argument: either still at the sentinel
    with no argument, or holding an argument that satisfies [P]. *)
Definition running_ok {B} (P : B -> Prop) (acc : option Z * option B) : Prop :=
  match acc with
  | (None, None) => True
  | (Some _, Some r) => P r
  | _ => False
  end.

Section Invariants.
Context {ndim : nat} {Value : Type}.
Context (BoundGetter : Value -> Box ndim) (EqualOp : Value -> Value -> bool).

(** The cached bound of a page is the union of the bounds of its
    children, accumulated from the reset box as [restretch] does. *)
Definition Page_bound_ok (p : Page ndim (Node ndim Value)) : Prop :=
  bound_ p = fold_left Bound.stretch (getBound BoundGetter <$> nodes_ p) Bound.reset.

(** Every page below and including the node has the bound of its
    children. *)
Inductive bounds_ok : Node ndim Value -> Prop :=
  | bounds_ok_leaf v : bounds_ok (LeafNode v)
  | bounds_ok_page p :
      Page_bound_ok p -> Forall bounds_ok (nodes_ p) -> bounds_ok (PageNode p).

Definition tree_bounds_ok (t : RTree ndim Value) : Prop :=
  match root_node_ptr_ t with
  | None => True
  | Some root => bounds_ok root
  end.

(** The chain of parents of [child] is a path of the tree: every entry
    holds the page below it at the recorded position. *)
Inductive chain_ok : Page ndim (Node ndim Value) -> parents ndim Value -> Prop :=
  | chain_ok_root child : chain_ok child []
  | chain_ok_parent child parent pos chain :
      nodes_ parent !! pos = Some (PageNode child) ->
      bounds_ok (PageNode parent) ->
      chain_ok parent chain ->
      chain_ok child ((parent, pos) :: chain).

(** What the scan of [find_best_fit_in_node] has established after the
    children [l]. *)
Definition best_fit_inv (bb : Box ndim) (l : list (Node ndim Value))
    (acc : option (nat * Node ndim Value) * option Z) : Prop :=
  let increase n := Bound.IncreaseToHold (getBound BoundGetter n) bb in
  match acc with
  | (None, None) => l = []
  | (Some (pos, c), Some m) =>
      l !! pos = Some c
      /\ increase c = m
      /\ (forall c', c' ∈ l -> m <= increase c')
      /\ (forall j c', (pos < j)%nat -> l !! j = Some c' -> increase c' = m ->
            area BoundGetter c <= area BoundGetter c' /\ (size c <= size c')%nat)
      /\ ((forall j c', (j < pos)%nat -> l !! j = Some c' -> m < increase c')
          \/ (exists j c', (j < pos)%nat /\ l !! j = Some c' /\ increase c' = m
                /\ (area BoundGetter c < area BoundGetter c' \/ (size c < size c')%nat)))
  | _ => False
  end.


End Invariants.

Section SizeInvariant.
Context {ndim : nat} {Value : Type} {Parameters : SplittingType ndim Value}.

(** Every page below and including the node holds at least one child
    and at most [max_children] children. *)
Inductive sizes_ok : Node ndim Value -> Prop :=
  | sizes_ok_leaf v : sizes_ok (LeafNode v)
  | sizes_ok_page p :
      (1 <= Page_size p <= max_children)%nat ->
      Forall sizes_ok (nodes_ p) -> sizes_ok (PageNode p).

(** The root of a tree is a page, as [insert] makes it. *)
Definition tree_sizes_ok (t : RTree ndim Value) : Prop :=
  match root_node_ptr_ t with
  | None => True
  | Some root => isPage root = true /\ sizes_ok root
  end.

(** The pages of a chain of parents, with the positions recorded. *)
Definition chain_sizes_ok (chain : parents ndim Value) : Prop :=
  Forall (fun parent => sizes_ok (PageNode (fst parent))
                        /\ (snd parent < Page_size (fst parent))%nat) chain.

End SizeInvariant.

Section ChainInvariant.
Context {ndim : nat} {Value : Type}.

(** The chain of parents of [child] as a path of pages: every entry
    holds the page below it at the recorded position. *)
Inductive chain_holds : Page ndim (Node ndim Value) -> parents ndim Value -> Prop :=
  | chain_holds_root child : chain_holds child []
  | chain_holds_parent child parent pos chain :
      nodes_ parent !! pos = Some (PageNode child) ->
      chain_holds parent chain ->
      chain_holds child ((parent, pos) :: chain).

(** The page the chain of parents ends in: the root of the descent. *)
Fixpoint chain_top (child : Page ndim (Node ndim Value)) (chain : parents ndim Value)
  : Page ndim (Node ndim Value) :=
  match chain with
  | [] => child
  | parent :: chain' => chain_top (fst parent) chain'
  end.

End ChainInvariant.

Section SpatialInvariant.
Context {ndim : nat}.

(** A box whose minimum corner is not beyond its maximum corner. *)
Definition ordered (b : Box ndim) : Prop := forall i, min_ b !!! i <= max_ b !!! i.

(** A box that [stretch] can take the reset box to: its corners are
    within the sentinels of [reset]. *)
Definition representable (b : Box ndim) : Prop :=
  forall i, min_ b !!! i <= Bound.numeric_max /\ Bound.numeric_lowest <= max_ b !!! i.

(** The node test of a predicate never rejects a page that holds a value
    its leaf test accepts. *)
Definition prunes_soundly (pred : Predicate.spatial_predicate ndim) : Prop :=
  forall leaf page : Box ndim,
    ordered leaf -> Bound.Contains page leaf = true ->
    Predicate.spatial_apply pred leaf true = true ->
    Predicate.spatial_apply pred page false = true.

End SpatialInvariant.

Section UniqueMapInvariant.
Context {T : Type} `{Countable T}.

(** What [setup] has recorded after the values [vals]. *)
Definition setup_inv (vals : list T) (state : gmap T nat * UniqueMap) : Prop :=
  let '(unique_id_map, um) := state in
  (forall v i, unique_id_map !! v = Some i -> vals !! i = Some v /\ i ∈ unique_idx_ um)
  /\ (length (unique_idx_ um) + length (non_unique_map_ um) = length vals)%nat
  /\ (forall u, u ∈ unique_idx_ um -> (u < length vals)%nat)
  /\ (forall d r, (d, r) ∈ non_unique_map_ um ->
        (d < length vals)%nat /\ r ∈ unique_idx_ um /\ vals !! d = vals !! r)
  /\ (forall i, (i < length vals)%nat ->
        i ∈ unique_idx_ um \/ exists r, (i, r) ∈ non_unique_map_ um).

(** What [setup] has recorded, in terms of the values alone: the values
    known to the map are the values seen, the representatives are the
    distinct values in the order of their first occurrence, and the
    lists of representatives and of duplicates share out the positions. *)
Definition setup_first_inv (vals : list T) (state : gmap T nat * UniqueMap) : Prop :=
  let '(unique_id_map, um) := state in
  (forall v, is_Some (unique_id_map !! v) <-> v ∈ vals)
  /\ (fun u => vals !! u) <$> unique_idx_ um = Some <$> reverse (remove_dups (reverse vals))
  /\ unique_idx_ um ++ (fst <$> non_unique_map_ um) ≡ₚ seq 0 (length vals)
  /\ (forall d r, (d, r) ∈ non_unique_map_ um -> (r < d)%nat).

End UniqueMapInvariant.

(** The order of [LessPair<0>], as "not greater". *)
Definition key_le {A} (x y : Z * A) : Prop := fst x <= fst y.

(** The state of a set that has received the elements [seen]: what it
    holds, and what it has let go. *)
Definition kept_smallest {A : Type} (K : nat) (seen s dropped : list (Z * A)) : Prop :=
  StronglySorted key_le s
  /\ length s = Nat.min K (length seen)
  /\ s ++ dropped ≡ₚ seen
  /\ (forall d e, d ∈ dropped -> e ∈ s -> fst e <= fst d).

Section DistanceInvariant.
Context {ndim : nat} {Value : Type}.
Context (BoundGetter : Value -> Box ndim).
Context (q : Box ndim) (K : nat) (stored : list Value).

(** The metric of [Nearest(q, K)] on a node and on a value. *)
Definition node_dist (n : Node ndim Value) : Z := Bound.Nearest (getBound BoundGetter n) q.
Definition value_dist (v : Value) : Z := Bound.Nearest (BoundGetter v) q.

(** The values below the nodes of a set of (distance, node) pairs. *)
Definition candidate_values (candidates : list (Z * Node ndim Value)) : list Value :=
  candidates ≫= (fun e => values (snd e)).

Definition candidates_count (candidates : list (Z * Node ndim Value)) : nat :=
  sum_list ((fun e => node_count (snd e)) <$> candidates).

(** The threshold of the loop: [numeric_limits::max()] until the set of
    leaves is full, the largest distance kept from then on. *)
Definition threshold_of (reached : option Z) : Z := default Bound.numeric_max reached.

(** The state of the loop of the distance query: the work list, the
    leaves kept, the threshold once the set is full, and (not in the
    code) the values given up so far. *)
Record distance_inv (candidate_nodes : list (Z * Node ndim Value))
    (candidate_leafs : TruncatedMultiSet.t (Node ndim Value))
    (distance_threshhold : option Z) (given_up : list Value) : Prop := {
  inv_candidates :
    Forall (fun e => bounds_ok BoundGetter (snd e) /\ fst e = node_dist (snd e))
           candidate_nodes;
  inv_leafs :
    Forall (fun e => exists v, snd e = LeafNode v /\ fst e = value_dist v)
           (TruncatedMultiSet._data_set candidate_leafs);
  inv_sorted : StronglySorted key_le (TruncatedMultiSet._data_set candidate_leafs);
  inv_count : TruncatedMultiSet._count candidate_leafs = K;
  inv_values :
    candidate_values (TruncatedMultiSet._data_set candidate_leafs)
    ++ candidate_values candidate_nodes ++ given_up ≡ₚ stored;
  inv_threshold :
    match distance_threshhold with
    | None =>
        (length (TruncatedMultiSet._data_set candidate_leafs) < K)%nat /\ given_up = []
    | Some x =>
        length (TruncatedMultiSet._data_set candidate_leafs) = K
        /\ fst <$> last (TruncatedMultiSet._data_set candidate_leafs) = Some x
    end;
  inv_given_up :
    forall v e, v ∈ given_up -> e ∈ TruncatedMultiSet._data_set candidate_leafs ->
      fst e <= value_dist v
}.

End DistanceInvariant.

(** The values stored in a tree. *)
Definition tree_values {ndim : nat} {Value : Type} (t : RTree ndim Value) : list Value :=
  match root_node_ptr_ t with
  | None => []
  | Some root => values root
  end.

(** ** Statements taken from the specification

    Definitions that follow the words of the specification, to be
    compared with the definitions above. *)

Module Spec.

(** "All-reduce across ranks component-wise": the combiner that sums
    both fields. *)
Definition sum_combiner (a b : list (Z * Z)) : option (list (Z * Z)) :=
  if decide (length a = length b)
  then Some (zip_with (fun an bn => (fst an + fst bn, snd an + snd bn)) a b)
  else None.

Section BestFit.
Context {ndim : nat} {Value : Type} (BoundGetter : Value -> Box ndim).


End BestFit.

End Spec.

(** ** Instances used in the examples *)

Module Examples.

(** Values [(bound, key)] with the [pair_extractor], as in system.cpp,
    in two dimensions and with [Quadratic<4,2>]. *)
Definition value_type : Type := (Box 2 * nat)%type.
Definition pair_extractor (v : value_type) : Box 2 := fst v.
Definition equal_to (a b : value_type) : bool := bool_decide (a = b).
Definition Quadratic_4_2 : SplittingType 2 value_type := Quadratic pair_extractor 4 2.

Definition point (x y : Z) : Box 2 := mkBox [# x; y] [# x; y].

Definition build (vals : list value_type) : option (RTree 2 value_type) :=
  RTree_insert_range pair_extractor (Parameters := Quadratic_4_2) RTree_default vals.

Definition cloud : list value_type :=
  imap (fun i '(x, y) => (point x y, i))
       [(0,0); (1,5); (7,3); (2,2); (9,9); (4,6); (3,8); (5,1); (6,6); (8,2); (0,9)].


(** A page of [Quadratic<4,2>] in the overflow state. *)
Definition overfull_page : Page 2 (Node 2 value_type) :=
  mkPage [LeafNode (point 0 0, 0%nat); LeafNode (point 1 5, 1%nat);
          LeafNode (point 7 3, 2%nat); LeafNode (point 2 2, 3%nat);
          LeafNode (point 9 9, 4%nat)]
         (mkBox [# 0; 0] [# 9; 9]).

(** [Linear<4,2>], and a page in its overflow state whose five children
    are the same point: what the fifth insertion of an equal value makes
    of the root. *)
Definition Linear_4_2 : SplittingType 2 value_type := Linear pair_extractor 4 2.

Definition equal_points : list value_type :=
  [(point 3 3, 0%nat); (point 3 3, 1%nat); (point 3 3, 2%nat); (point 3 3, 3%nat);
   (point 3 3, 4%nat)].

Definition equal_points_page : Page 2 (Node 2 value_type) :=
  mkPage (LeafNode <$> equal_points) (point 3 3).

(** A tree holding one value. *)
Definition single_value_tree : RTree 2 value_type :=
  mkRTree (Some (PageNode (mkPage [LeafNode (point 1 5, 0%nat)] (point 1 5)))).

(** The adaptor of a rank of RCB that holds the points (0,0,0), (0,0,0),
    (0,0,0) and (10,0,0) with unit weights. *)
Definition duplicates_adaptor : RCB.adaptor_type :=
  RCB.mkAdaptor 4 [0; 0; 0; 10] 1 [0; 0; 0; 0] 1 [0; 0; 0; 0] 1 None 1.

End Examples.

(** * Properties *)

(** ** Boxes *)

Section BoundFacts.
Context {ndim : nat}.
Implicit Types a b c : Box ndim.

Lemma std_equal_spec (op : Z -> Z -> bool) (v w : vec Z ndim) :
  Bound.std_equal op v w = true <-> forall i, op (v !!! i) (w !!! i) = true.
Proof.
  unfold Bound.std_equal. rewrite forallb_forall. split.
  - intros Hall i. apply Hall. apply list_elem_of_In, elem_of_enum.
  - intros Hall i _. apply Hall.
Qed.

Lemma std_equal_false (op : Z -> Z -> bool) (v w : vec Z ndim) i :
  op (v !!! i) (w !!! i) = false -> Bound.std_equal op v w = false.
Proof.
  intros Hop. destruct (Bound.std_equal op v w) eqn:E; [|done].
  rewrite std_equal_spec in E. congruence.
Qed.

Lemma Box_eq a b : min_ a = min_ b -> max_ a = max_ b -> a = b.
Proof. destruct a, b; simpl; congruence. Qed.

Lemma stretch_comm a b : Bound.stretch a b = Bound.stretch b a.
Proof.
  apply Box_eq; apply vec_eq; intros i; simpl;
    rewrite !vlookup_zip_with; lia.
Qed.

Lemma stretch_assoc a b c :
  Bound.stretch (Bound.stretch a b) c = Bound.stretch a (Bound.stretch b c).
Proof.
  apply Box_eq; apply vec_eq; intros i; simpl;
    rewrite !vlookup_zip_with; lia.
Qed.

Lemma stretch_idemp a : Bound.stretch a a = a.
Proof.
  apply Box_eq; apply vec_eq; intros i; simpl;
    rewrite !vlookup_zip_with; lia.
Qed.

End BoundFacts.

(** C7: the two halves [split_box] makes of a box never both own a point
    under [ContainsNonInclusive], and a point on the shared face is not
    owned by the low half. *)
Theorem split_box_one_owner (search_box : RCB.box_type) (long_dim : fin RCB.NDim)
    (split : Z) (p : RCB.box_type) :
  min_ p = max_ p ->
  (Bound.ContainsNonInclusive (fst (RCB.split_box search_box long_dim split)) p
   && Bound.ContainsNonInclusive (snd (RCB.split_box search_box long_dim split)) p = false)
  /\ max_ (fst (RCB.split_box search_box long_dim split)) !!! long_dim
     = min_ (snd (RCB.split_box search_box long_dim split)) !!! long_dim
  /\ (Bound.min p long_dim = split ->
      Bound.ContainsNonInclusive (fst (RCB.split_box search_box long_dim split)) p = false).
Proof.
  intros Hpoint. simpl.
  assert (Hlow : split <= max_ p !!! long_dim ->
            Bound.ContainsNonInclusive
              (Bound.set (min_ search_box) (vinsert long_dim split (max_ search_box))) p = false).
  { intros Hle. unfold Bound.ContainsNonInclusive.
    rewrite (std_equal_false Z.gtb _ _ long_dim), andb_false_r; [done|].
    simpl. rewrite vlookup_insert. lia. }
  split; [|split].
  - destruct (Z_le_gt_dec split (max_ p !!! long_dim)) as [Hle|Hgt].
    + rewrite Hlow; done.
    + apply andb_false_intro2. unfold Bound.ContainsNonInclusive.
      rewrite (std_equal_false Z.leb _ _ long_dim); [done|].
      simpl. rewrite vlookup_insert, Hpoint. lia.
  - by rewrite !vlookup_insert.
  - intros Hface. apply Hlow. unfold Bound.min in Hface. rewrite <- Hpoint. lia.
Qed.

Lemma split_box_one_owner_witness :
  let search_box : RCB.box_type := mkBox [# 0; 0; 0] [# 10; 4; 4] in
  let p : RCB.box_type := mkBox [# 5; 1; 1] [# 5; 1; 1] in
  Bound.ContainsNonInclusive (fst (RCB.split_box search_box 0%fin 5)) p = false
  /\ Bound.ContainsNonInclusive (snd (RCB.split_box search_box 0%fin 5)) p = true.
Proof.
  split.
  - apply (split_box_one_owner (mkBox [# 0; 0; 0] [# 10; 4; 4]) 0%fin 5
             (mkBox [# 5; 1; 1] [# 5; 1; 1]) eq_refl). reflexivity.
  - reflexivity.
Defined.

(** ** The exhaustive index *)

Section ExhaustiveFacts.
Context {ndim : nat} {Value : Type}.
Context (BoundExtractor : Value -> Box ndim) (EqualOp : Value -> Value -> bool).

Lemma std_remove_if_length {A} (p : A -> bool) (l : list A) :
  length (std_remove_if p l) = length l.
Proof.
  unfold std_remove_if. rewrite length_app, length_drop.
  pose proof (length_filter (fun x => p x = false) l). lia.
Qed.

(** C10: [Exhaustive::remove] keeps the number of stored values, and a
    spatial query whose predicate accepts every bound emits that many
    items after the removal as before it. *)
Theorem Exhaustive_remove_keeps_size (e : Exhaustive ndim Value) (v : Value) :
  Exhaustive_size (Exhaustive_remove BoundExtractor EqualOp e v) = Exhaustive_size e
  /\ length (Exhaustive_query BoundExtractor
               (Exhaustive_remove BoundExtractor EqualOp e v)
               (Predicate.mkSpatial (fun _ _ => true) (fun _ _ => true) Bound.reset))
     = length (Exhaustive_query BoundExtractor e
               (Predicate.mkSpatial (fun _ _ => true) (fun _ _ => true) Bound.reset)).
Proof.
  assert (Hall : forall l : list Value,
             List.filter (fun value => Predicate.spatial_apply
                (Predicate.mkSpatial (fun _ _ => true) (fun _ _ => true) Bound.reset)
                (BoundExtractor value) true) l = l).
  { induction l as [|x l IH]; [done|]. simpl. f_equal. exact IH. }
  unfold Exhaustive_query. rewrite !Hall.
  unfold Exhaustive_size, Exhaustive_remove, _restretch, _remove. simpl.
  split; apply std_remove_if_length.
Qed.

End ExhaustiveFacts.

(** The value asked to be removed is still stored. *)
Example Exhaustive_remove_example :
  let e := mkExhaustive [1%nat; 2%nat; 1%nat; 3%nat] (Bound.reset (ndim := 1)) in
  _values (Exhaustive_remove (fun _ => Bound.reset) Nat.eqb e 1%nat)
  = [2%nat; 3%nat; 1%nat; 3%nat].
Proof. reflexivity. Qed.

(** ** The root pointer *)

Section RootFacts.
Context {ndim : nat} {Value : Type}.
Context (BoundGetter : Value -> Box ndim).
Context {Parameters : SplittingType ndim Value}.


End RootFacts.

(** ** The all-reduce of the split candidates *)

Lemma init_combiner_fold {A B} (b : list (A * B)) (n : nat) :
  forall (k : nat) (ans : list (A * B)),
    length ans = length b -> (k + n = length b)%nat ->
    take k ans = take k b ->
    fold_left (fun ans n => ans ← ans; bn ← b !! n; Some (<[n := (fst bn, snd bn)]> ans))
              (seq k n) (Some ans) = Some b.
Proof.
  induction n as [|n IH]; intros k ans Hlen Hk Htake; simpl.
  - rewrite Nat.add_0_r in Hk. subst k.
    rewrite <- Hlen in Htake at 1. rewrite !firstn_all in Htake. congruence.
  - destruct (lookup_lt_is_Some_2 b k) as [[x y] Hb]; [lia|].
    rewrite Hb. simpl. apply IH.
    + by rewrite length_insert.
    + lia.
    + rewrite (take_S_r b k (x, y)) by done.
      rewrite (take_S_r _ k (x, y)).
      * rewrite take_insert_ge by lia. by rewrite Htake.
      * apply list_lookup_insert_eq. lia.
Qed.

(** The combiner of [init] returns its right operand. *)
Lemma init_combiner_right {A B} (a b : list (A * B)) :
  length a = length b -> RCB.init_combiner a b = Some b.
Proof.
  intros Hlen. unfold RCB.init_combiner. rewrite Hlen.
  apply init_combiner_fold; [done|lia|done].
Qed.

(** C2: on two ranks whose local candidates differ, the all-reduce of
    [init] hands back the last rank's pair, and the split it yields is
    not the weight-weighted mean of the candidates. *)
Theorem init_all_reduce_takes_last_rank :
  let rank0 := [(2 * 4, 4)] in
  let rank1 := [(5 * 5, 5)] in
  RCB.all_reduce RCB.init_combiner [rank0; rank1] = Some [(25, 5)]
  /\ RCB.weighted_split (25, 5) = 5
  /\ RCB.all_reduce Spec.sum_combiner [rank0; rank1] = Some [(33, 9)]
  /\ RCB.weighted_split (25, 5) * 9 <> 33.
Proof. repeat split; try reflexivity. vm_compute. discriminate. Qed.

(** ** The choice of the child to descend into *)

Section BestFitFacts.
Context {ndim : nat} {Value : Type}.
Context (BoundGetter : Value -> Box ndim).
Context {SplittingT : SplittingType ndim Value}.

Local Abbreviation Node := (Node ndim Value).
Local Abbreviation increase bb n := (Bound.IncreaseToHold (getBound BoundGetter n) bb).

Lemma indexed_app (l : list Node) (x : Node) (b : Box ndim) :
  indexed (mkPage (l ++ [x]) b) = indexed (mkPage l b) ++ [(length l, x)].
Proof. unfold indexed. simpl. rewrite imap_app. simpl. by rewrite Nat.add_0_r. Qed.

Lemma best_fit_scan (bb : Box ndim) (b : Box ndim) (l : list Node) :
  best_fit_inv BoundGetter bb l
    (fold_left (best_fit_step BoundGetter bb) (indexed (mkPage l b)) (None, None)).
Proof.
  induction l as [|x l IH] using rev_ind; [done|].
  rewrite indexed_app, fold_left_app. simpl.
  unfold best_fit_inv in *.
  destruct (fold_left _ _ _) as [[[pos c]|] [m|]]; simpl in IH; try done.
  - destruct IH as (Hpos & Hinc & Hmin & Hlater & Hearlier).
    pose proof (lookup_lt_Some _ _ _ Hpos) as Hlt.
    unfold best_fit_step, below, equal_to.
    destruct (Z.ltb_spec (increase bb x) m) as [Hlt'|Hge].
    { (* a new strict minimum *)
      simpl. split; [by rewrite lookup_app_r, Nat.sub_diag by lia|].
      split; [done|]. split.
      { intros c' [Hin| ->%list_elem_of_singleton]%elem_of_app; [|lia].
        specialize (Hmin _ Hin). lia. }
      split.
      { intros j c' Hj Hl. apply lookup_lt_Some in Hl. rewrite length_app in Hl.
        simpl in Hl. lia. }
      left. intros j c' Hj Hl. rewrite lookup_app_l in Hl by lia.
      assert (c' ∈ l) as Hin by (eapply list_elem_of_lookup_2; eauto).
      specialize (Hmin _ Hin). lia. }
    destruct (Z.eqb_spec (increase bb x) m) as [Heq|Hne].
    { destruct (_ || _) eqn:Htie.
      - (* the tie displaces the child kept so far *)
        simpl. split; [by rewrite lookup_app_r, Nat.sub_diag by lia|].
        split; [done|]. split.
        { intros c' [Hin| ->%list_elem_of_singleton]%elem_of_app; [auto|lia]. }
        split.
        { intros j c' Hj Hl. apply lookup_lt_Some in Hl. rewrite length_app in Hl.
          simpl in Hl. lia. }
        right. exists pos, c. split; [lia|]. split; [by rewrite lookup_app_l by lia|].
        split; [done|].
        apply orb_true_iff in Htie as [Ha%Z.ltb_lt|Hs%Nat.ltb_lt]; [by left|by right].
      - (* the tie is ignored *)
        apply orb_false_iff in Htie as [Ha%Z.ltb_ge Hs%Nat.ltb_ge].
        simpl. split; [by rewrite lookup_app_l by lia|].
        split; [done|]. split.
        { intros c' [Hin| ->%list_elem_of_singleton]%elem_of_app; [auto|lia]. }
        split.
        { intros j c' Hj Hl Hm.
          destruct (decide (j < length l)%nat) as [Hjl|Hjl].
          - rewrite lookup_app_l in Hl by lia. eauto.
          - rewrite lookup_app_r in Hl by lia.
            destruct (j - length l)%nat eqn:Hd; simpl in Hl; [|by destruct n].
            simplify_eq. split; lia. }
        destruct Hearlier as [He|(j & c' & Hj & Hl & Hm & Hor)]; [left|right].
        + intros j c' Hj Hl. rewrite lookup_app_l in Hl by lia. eauto.
        + exists j, c'. split; [done|]. split; [by rewrite lookup_app_l by lia|]. done. }
    (* a larger increase *)
    simpl. split; [by rewrite lookup_app_l by lia|].
    split; [done|]. split.
    { intros c' [Hin| ->%list_elem_of_singleton]%elem_of_app; [auto|lia]. }
    split.
    { intros j c' Hj Hl Hm.
      destruct (decide (j < length l)%nat) as [Hjl|Hjl].
      - rewrite lookup_app_l in Hl by lia. eauto.
      - rewrite lookup_app_r in Hl by lia.
        destruct (j - length l)%nat eqn:Hd; simpl in Hl; [|by destruct n].
        simplify_eq; try lia. }
    destruct Hearlier as [He|(j & c' & Hj & Hl & Hm & Hor)]; [left|right].
    + intros j c' Hj Hl. rewrite lookup_app_l in Hl by lia. eauto.
    + exists j, c'. split; [done|]. split; [by rewrite lookup_app_l by lia|]. done.
  - (* the first child *)
    subst l. unfold best_fit_step. simpl. split; [done|]. split; [done|]. split.
    { intros c' ->%list_elem_of_singleton. lia. }
    split.
    { intros j c' Hj Hl. destruct j; [lia|]. by destruct j. }
    left. intros j c' Hj. lia.
Qed.

End BestFitFacts.




(** ** Splitting a page *)

Section SplitFacts.
Context {ndim : nat} {Value : Type}.
Context (BoundGetter : Value -> Box ndim).

Local Abbreviation Node := (Node ndim Value).
Local Abbreviation Page := (Page ndim Node).

Local Abbreviation Page_bound_ok := (Page_bound_ok BoundGetter).

Lemma Node_new_bound_ok : Page_bound_ok (Node_new BoundGetter).
Proof. done. Qed.

Lemma Page_insert_bound_ok (p : Page) (child : Node) :
  Page_bound_ok p -> Page_bound_ok (Page_insert BoundGetter p child).
Proof.
  unfold Page_bound_ok, Page_insert. simpl. intros ->.
  by rewrite fmap_app, fold_left_app.
Qed.

Lemma Page_restretch_bound_ok (p : Page) : Page_bound_ok (Page_restretch BoundGetter p).
Proof. done. Qed.

Lemma fold_Page_insert_nodes (l : list Node) (p : Page) :
  nodes_ (fold_left (Page_insert BoundGetter) l p) = nodes_ p ++ l.
Proof.
  revert p. induction l as [|x l IH]; intros p; simpl.
  - by rewrite app_nil_r.
  - rewrite IH. simpl. by rewrite <- app_assoc.
Qed.

Lemma fold_Page_insert_bound_ok (l : list Node) (p : Page) :
  Page_bound_ok p -> Page_bound_ok (fold_left (Page_insert BoundGetter) l p).
Proof.
  revert p. induction l as [|x l IH]; intros p Hp; simpl; [done|].
  apply IH. by apply Page_insert_bound_ok.
Qed.

Context {S : SplittingType ndim Value} {Contract : SplittingContract S}.

Lemma split_loop_spec (fuel : nat) (parent a b : Page) :
  (Page_size parent <= fuel)%nat ->
  (min_children <= Page_size parent + Page_size a)%nat ->
  (min_children <= Page_size parent + Page_size b)%nat ->
  exists parent' a' b',
    split_loop BoundGetter fuel parent a b = Some (parent', a', b')
    /\ nodes_ a' ++ nodes_ b' ++ nodes_ parent' ≡ₚ nodes_ a ++ nodes_ b ++ nodes_ parent
    /\ (min_children <= Page_size parent' + Page_size a')%nat
    /\ (min_children <= Page_size parent' + Page_size b')%nat
    /\ (Page_size parent' = 0
        \/ Page_size parent' + Page_size a' <= min_children
        \/ Page_size parent' + Page_size b' <= min_children)%nat
    /\ (Page_bound_ok a -> Page_bound_ok a')
    /\ (Page_bound_ok b -> Page_bound_ok b').
Proof.
  revert parent a b.
  induction fuel as [|fuel IH]; intros parent a b Hfuel Ha Hb.
  - exists parent, a, b. simpl.
    assert (Page_size parent = 0)%nat as Hz by lia. rewrite Hz. simpl.
    split; [done|]. split; [done|]. split; [lia|]. split; [lia|].
    split; [by left|done].
  - simpl. destruct (_ && _) eqn:Hcond.
    + apply andb_true_iff in Hcond as [[Hp%Nat.ltb_lt Hpa%Nat.ltb_lt]%andb_true_iff
                                        Hpb%Nat.ltb_lt].
      destruct (contract_pick_next parent a b Hp) as (k & into_a & Hnext & Hk).
      rewrite Hnext. simpl.
      destruct (lookup_lt_is_Some_2 (nodes_ parent) k Hk) as [child Hchild].
      rewrite Hchild. simpl.
      assert (Page_size (Page_remove parent k) = Page_size parent - 1)%nat as Hsize.
      { unfold Page_size, Page_remove. simpl. rewrite length_delete by eauto. done. }
      assert (nodes_ parent ≡ₚ child :: nodes_ (Page_remove parent k)) as Hperm.
      { by apply delete_Permutation. }
      destruct into_a.
      * destruct (IH (Page_remove parent k) (Page_insert BoundGetter a child) b)
          as (p' & a' & b' & Hloop & Hperm' & Ha' & Hb' & Hexit & Hoka & Hokb).
        { lia. }
        { unfold Page_size in *. simpl in *. rewrite length_app. simpl. lia. }
        { lia. }
        exists p', a', b'. split; [done|]. split.
        { etrans; [exact Hperm'|]. simpl.
          trans (nodes_ a ++ nodes_ b ++ child :: delete k (nodes_ parent)).
          - rewrite <- app_assoc. apply Permutation_app_head. simpl.
            apply Permutation_middle.
          - do 2 apply Permutation_app_head. symmetry. exact Hperm. }
        repeat split; auto using Page_insert_bound_ok.
      * destruct (IH (Page_remove parent k) a (Page_insert BoundGetter b child))
          as (p' & a' & b' & Hloop & Hperm' & Ha' & Hb' & Hexit & Hoka & Hokb).
        { lia. }
        { lia. }
        { unfold Page_size in *. simpl in *. rewrite length_app. simpl. lia. }
        exists p', a', b'. split; [done|]. split.
        { etrans; [exact Hperm'|]. simpl.
          trans (nodes_ a ++ nodes_ b ++ child :: delete k (nodes_ parent)).
          - apply Permutation_app_head. rewrite <- app_assoc.
            by apply Permutation_app_head.
          - do 2 apply Permutation_app_head. symmetry. exact Hperm. }
        repeat split; auto using Page_insert_bound_ok.
    + exists parent, a, b. split; [done|]. split; [done|].
      split; [done|]. split; [done|]. split; [|done].
      apply andb_false_iff in Hcond as [[Hp%Nat.ltb_ge|Hpa%Nat.ltb_ge]%andb_false_iff
                                        |Hpb%Nat.ltb_ge]; lia.
Qed.

End SplitFacts.

Section SplitNodeFacts.
Context {ndim : nat} {Value : Type}.
Context (BoundGetter : Value -> Box ndim).
Context {S : SplittingType ndim Value} {Contract : SplittingContract S}.

Local Abbreviation Node := (Node ndim Value).
Local Abbreviation Page := (Page ndim Node).

Lemma position_after_lookup (l : list Node) (removed pos : nat) (c : Node) :
  removed <> pos -> (removed < length l)%nat -> l !! pos = Some c ->
  exists pos', position_after removed pos = Some pos' /\ delete removed l !! pos' = Some c.
Proof.
  intros Hne Hlt Hl. unfold position_after.
  destruct (Nat.ltb_spec pos removed) as [Hlt'|Hge].
  - exists pos. split; [done|]. by rewrite list_lookup_delete_lt.
  - destruct (Nat.eqb_spec pos removed) as [->|_]; [done|].
    exists (pred pos). split; [done|].
    rewrite list_lookup_delete_ge by lia.
    replace (Datatypes.S (pred pos)) with pos by lia. done.
Qed.

Lemma static_assert_bounds :
  (1 < min_children)%nat /\ (2 * min_children <= max_children)%nat.
Proof.
  destruct (contract_static_assert (S := S)) as [H1 H2]. split; [done|].
  pose proof (Nat.div_mod_eq max_children 2). lia.
Qed.

Lemma split_node_spec (parent : Page) :
  Page_size parent = Datatypes.S max_children ->
  exists a b parent',
    split_node BoundGetter parent = Some (a, b, parent')
    /\ (min_children <= Page_size a <= max_children)%nat
    /\ (min_children <= Page_size b <= max_children)%nat
    /\ nodes_ a ++ nodes_ b ≡ₚ nodes_ parent
    /\ nodes_ parent' = []
    /\ Page_bound_ok BoundGetter a /\ Page_bound_ok BoundGetter b.
Proof.
  intros Hsize. destruct static_assert_bounds as [Hmin Hmax].
  unfold split_node.
  destruct (contract_pick_seeds parent) as (s0 & s1 & Hseeds & Hs0 & Hs1 & Hne); [lia|].
  rewrite Hseeds. simpl.
  destruct (lookup_lt_is_Some_2 (nodes_ parent) s0 Hs0) as [child0 Hc0].
  destruct (lookup_lt_is_Some_2 (nodes_ parent) s1 Hs1) as [child1 Hc1].
  rewrite Hc0, Hc1. simpl.
  destruct (position_after_lookup (nodes_ parent) s0 s1 child1 Hne Hs0 Hc1)
    as (pos & Hpos & Hc1').
  rewrite Hpos.
  pose proof (lookup_lt_Some _ _ _ Hc1') as Hpos_lt.
  rewrite length_delete in Hpos_lt by eauto.
  set (rest := Page_remove (Page_remove parent s0) pos).
  set (a0 := Page_insert BoundGetter (Node_new BoundGetter) child0).
  set (b0 := Page_insert BoundGetter (Node_new BoundGetter) child1).
  assert (Page_size rest = max_children - 1)%nat as Hrest.
  { unfold rest, Page_size, Page_remove in *. simpl.
    rewrite !length_delete by eauto. lia. }
  assert (nodes_ parent ≡ₚ child0 :: child1 :: nodes_ rest) as Hperm.
  { etrans; [apply (delete_Permutation _ s0 child0 Hc0)|]. apply perm_skip.
    apply (delete_Permutation _ pos child1 Hc1'). }
  assert (Page_size a0 = 1%nat) as Ha0 by done.
  assert (Page_size b0 = 1%nat) as Hb0 by done.
  destruct (split_loop_spec BoundGetter (Page_size rest) rest a0 b0)
    as (p' & a' & b' & Hloop & Hperm' & Ha' & Hb' & Hexit & Hoka & Hokb).
  { done. }
  { lia. }
  { lia. }
  rewrite Hloop. simpl.
  assert (Page_size a' + Page_size b' + Page_size p' = Datatypes.S max_children)%nat
    as Htotal.
  { apply Permutation_length in Hperm'. rewrite !length_app in Hperm'.
    fold (Page_size a') (Page_size b') (Page_size p') (Page_size a0) (Page_size b0)
         (Page_size rest) in Hperm'. lia. }
  specialize (Hoka (Page_insert_bound_ok _ _ _ (Node_new_bound_ok _))).
  specialize (Hokb (Page_insert_bound_ok _ _ _ (Node_new_bound_ok _))).
  assert (nodes_ a' ++ nodes_ b' ++ nodes_ p' ≡ₚ nodes_ parent) as Hall.
  { etrans; [exact Hperm'|]. by rewrite Hperm. }
  destruct (Nat.ltb_spec 0 (Page_size p')) as [Hp|Hp].
  - destruct (Nat.ltb_spec (Page_size a') min_children) as [Ha|Ha].
    + (* the remainder goes to A *)
      simpl.
      set (a'' := fold_left (Page_insert BoundGetter) (nodes_ p') a').
      assert (nodes_ a'' = nodes_ a' ++ nodes_ p') as Hnodes
        by apply fold_Page_insert_nodes.
      assert (Page_size a'' = Page_size a' + Page_size p')%nat as Hsz.
      { unfold Page_size. by rewrite Hnodes, length_app. }
      rewrite Hsz.
      replace (min_children <=? Page_size a' + Page_size p')%nat with true
        by (symmetry; apply Nat.leb_le; lia).
      replace (min_children <=? Page_size b')%nat with true
        by (symmetry; apply Nat.leb_le; lia).
      replace (Page_size a' + Page_size p' <=? max_children)%nat with true
        by (symmetry; apply Nat.leb_le; lia).
      replace (Page_size b' <=? max_children)%nat with true
        by (symmetry; apply Nat.leb_le; lia).
      simpl. eexists _, _, _. split; [done|].
      split; [lia|]. split; [lia|]. split.
      { rewrite Hnodes. rewrite <- Hall. rewrite <- !app_assoc.
        apply Permutation_app_head, Permutation_app_comm. }
      split; [done|]. split; [|done].
      by apply fold_Page_insert_bound_ok.
    + (* the remainder goes to B *)
      simpl.
      set (b'' := fold_left (Page_insert BoundGetter) (nodes_ p') b').
      assert (nodes_ b'' = nodes_ b' ++ nodes_ p') as Hnodes
        by apply fold_Page_insert_nodes.
      assert (Page_size b'' = Page_size b' + Page_size p')%nat as Hsz.
      { unfold Page_size. by rewrite Hnodes, length_app. }
      rewrite Hsz.
      replace (min_children <=? Page_size a')%nat with true
        by (symmetry; apply Nat.leb_le; lia).
      replace (min_children <=? Page_size b' + Page_size p')%nat with true
        by (symmetry; apply Nat.leb_le; lia).
      replace (Page_size a' <=? max_children)%nat with true
        by (symmetry; apply Nat.leb_le; lia).
      replace (Page_size b' + Page_size p' <=? max_children)%nat with true
        by (symmetry; apply Nat.leb_le; lia).
      simpl. eexists _, _, _. split; [done|].
      split; [lia|]. split; [lia|]. split.
      { by rewrite Hnodes. }
      split; [done|]. split; [done|].
      by apply fold_Page_insert_bound_ok.
  - assert (Page_size p' = 0)%nat as Hz by lia.
    assert (nodes_ p' = []) as Hnil.
    { unfold Page_size in Hz. by destruct (nodes_ p'). }
    simpl.
    replace (min_children <=? Page_size a')%nat with true
      by (symmetry; apply Nat.leb_le; lia).
    replace (min_children <=? Page_size b')%nat with true
      by (symmetry; apply Nat.leb_le; lia).
    replace (Page_size a' <=? max_children)%nat with true
      by (symmetry; apply Nat.leb_le; lia).
    replace (Page_size b' <=? max_children)%nat with true
      by (symmetry; apply Nat.leb_le; lia).
    simpl. eexists _, _, _. split; [done|].
    split; [lia|]. split; [lia|]. split.
    { rewrite <- Hall, Hnil. by rewrite app_nil_r. }
    done.
Qed.

End SplitNodeFacts.

(** ** The quadratic strategy keeps the contract *)

Section QuadraticFacts.
Context {ndim : nat} {Value : Type}.
Context (BoundGetter : Value -> Box ndim).

Local Abbreviation Node := (Node ndim Value).
Local Abbreviation Page := (Page ndim Node).

Lemma lookup_indexed (p : Page) (k : nat) :
  indexed p !! k = pair k <$> nodes_ p !! k.
Proof. unfold indexed. apply list_lookup_imap. Qed.

Lemma elem_of_indexed (p : Page) (k : nat) (c : Node) :
  (k, c) ∈ indexed p <-> nodes_ p !! k = Some c.
Proof.
  rewrite list_elem_of_lookup. split.
  - intros [i Hi]. rewrite lookup_indexed in Hi.
    destruct (nodes_ p !! i) eqn:E; simplify_eq/=. done.
  - intros Hk. exists k. rewrite lookup_indexed, Hk. done.
Qed.

Lemma running_max_fold {A B} (f : option Z * option B -> A -> option Z * option B)
    (score : A -> Z) (pick : A -> B) (P : B -> Prop) (l : list A) :
  (forall acc x, x ∈ l ->
     f acc x = if above (score x) (fst acc) then (Some (score x), Some (pick x)) else acc) ->
  (forall x, x ∈ l -> P (pick x)) ->
  forall acc, running_ok P acc ->
    running_ok P (fold_left f l acc)
    /\ (l <> [] \/ is_Some (snd acc) -> is_Some (snd (fold_left f l acc))).
Proof.
  induction l as [|x l IH]; intros Hf HP acc Hacc; simpl.
  - split; [done|]. intros [?|?]; done.
  - assert (running_ok P (f acc x) /\ is_Some (snd (f acc x))) as [Hok Hsome].
    { rewrite Hf by apply list_elem_of_here.
      destruct (above (score x) (fst acc)) eqn:Habove.
      - split; [apply HP, list_elem_of_here|by eexists].
      - split; [done|]. destruct acc as [[m|] [r|]]; simpl in *; done. }
    destruct (IH (fun acc y Hy => Hf acc y (list_elem_of_further _ _ _ Hy))
                 (fun y Hy => HP y (list_elem_of_further _ _ _ Hy)) (f acc x) Hok)
      as [Hok' Hsome'].
    split; [done|]. intros _. apply Hsome'. by right.
Qed.

Lemma Quadratic_pick_next_ok (parent a b : Page) :
  (0 < Page_size parent)%nat ->
  exists next_pos into_a,
    Quadratic_pick_next BoundGetter parent a b = Some (next_pos, into_a)
    /\ (next_pos < Page_size parent)%nat.
Proof.
  intros Hsize. unfold Quadratic_pick_next.
  edestruct (running_max_fold
    (fun (acc : option Z * option (nat * bool)) '(k, child) =>
       if above (Z.abs (Bound.IncreaseToHold (bound_ a) (getBound BoundGetter child)
                        - Bound.IncreaseToHold (bound_ b) (getBound BoundGetter child)))
                (fst acc)
       then (Some (Z.abs (Bound.IncreaseToHold (bound_ a) (getBound BoundGetter child)
                          - Bound.IncreaseToHold (bound_ b) (getBound BoundGetter child))),
             Some (k, Bound.IncreaseToHold (bound_ a) (getBound BoundGetter child)
                      <? Bound.IncreaseToHold (bound_ b) (getBound BoundGetter child)))
       else acc)
    (fun '(k, child) =>
       Z.abs (Bound.IncreaseToHold (bound_ a) (getBound BoundGetter child)
              - Bound.IncreaseToHold (bound_ b) (getBound BoundGetter child)))
    (fun '(k, child) =>
       (k, Bound.IncreaseToHold (bound_ a) (getBound BoundGetter child)
           <? Bound.IncreaseToHold (bound_ b) (getBound BoundGetter child)))
    (fun r : nat * bool => (fst r < Page_size parent)%nat)
    (indexed parent)) as [Hok Hsome].
  - by intros acc [k child] _.
  - intros [k child] Hin. simpl. apply elem_of_indexed in Hin.
    by apply lookup_lt_Some in Hin.
  - exact (I : running_ok _ (None, None)).
  - destruct Hsome as [[k into_a] Hres].
    { left. intros Hnil. apply (f_equal length) in Hnil.
      unfold indexed in Hnil. rewrite length_imap in Hnil.
      unfold Page_size in Hsize. simpl in Hnil. lia. }
    exists k, into_a. split; [exact Hres|].
    destruct (fold_left _ _ _) as [[m|] [r|]]; simpl in *; try done.
    by simplify_eq.
Qed.

End QuadraticFacts.

Section QuadraticSeeds.
Context {ndim : nat} {Value : Type}.
Context (BoundGetter : Value -> Box ndim).

Local Abbreviation Node := (Node ndim Value).
Local Abbreviation Page := (Page ndim Node).

(** The inner and the outer loop body of [Quadratic::pick_seeds]. *)
Let wasted (it jt : Node) : Z :=
  Bound.area (Bound.Union (getBound BoundGetter it) (getBound BoundGetter jt))
  - area BoundGetter it - area BoundGetter jt.

Let inner (i : nat) (it : Node) (acc : option Z * option (nat * nat)) (entry : nat * Node)
  : option Z * option (nat * nat) :=
  let '(j, jt) := entry in
  if above (wasted it jt) (fst acc) then (Some (wasted it jt), Some (i, j)) else acc.

Let outer (parent : Page) (acc : option Z * option (nat * nat)) (entry : nat * Node)
  : option Z * option (nat * nat) :=
  let '(i, it) := entry in fold_left (inner i it) (drop (Datatypes.S i) (indexed parent)) acc.

Let seeds_ok (parent : Page) (r : nat * nat) : Prop :=
  (fst r < Page_size parent)%nat /\ (snd r < Page_size parent)%nat /\ fst r <> snd r.

Lemma inner_loop_ok (parent : Page) (i : nat) (it : Node) (acc : option Z * option (nat * nat)) :
  nodes_ parent !! i = Some it ->
  running_ok (seeds_ok parent) acc ->
  running_ok (seeds_ok parent)
    (fold_left (inner i it) (drop (Datatypes.S i) (indexed parent)) acc)
  /\ (drop (Datatypes.S i) (indexed parent) <> [] \/ is_Some (snd acc) ->
      is_Some (snd (fold_left (inner i it) (drop (Datatypes.S i) (indexed parent)) acc))).
Proof.
  intros Hi Hacc.
  apply (running_max_fold (inner i it) (fun '(j, jt) => wasted it jt)
           (fun '(j, jt) => (i, j))); [| |done].
  - by intros acc' [j jt] _.
  - intros [j jt] [m Hm]%list_elem_of_lookup.
    rewrite lookup_drop, lookup_indexed in Hm.
    apply fmap_Some in Hm as (n & E & Heq). simplify_eq.
    apply lookup_lt_Some in E, Hi. unfold seeds_ok, Page_size. simpl. lia.
Qed.

Lemma outer_loop_ok (parent : Page) (l : list (nat * Node)) :
  (forall x, x ∈ l -> x ∈ indexed parent) ->
  forall acc, running_ok (seeds_ok parent) acc ->
    running_ok (seeds_ok parent) (fold_left (outer parent) l acc)
    /\ (is_Some (snd acc) -> is_Some (snd (fold_left (outer parent) l acc))).
Proof.
  induction l as [|[i it] l IH]; intros Hsub acc Hacc; simpl; [done|].
  assert (nodes_ parent !! i = Some it) as Hi.
  { apply elem_of_indexed, Hsub, list_elem_of_here. }
  destruct (inner_loop_ok parent i it acc Hi Hacc) as [Hok Hsome].
  destruct (IH (fun x Hx => Hsub x (list_elem_of_further _ _ _ Hx)) _ Hok) as [Hok' Hsome'].
  split; [done|]. intros Hs. apply Hsome', Hsome. by right.
Qed.

Lemma Quadratic_pick_seeds_ok (parent : Page) :
  (2 <= Page_size parent)%nat ->
  exists seed0 seed1,
    Quadratic_pick_seeds BoundGetter parent = Some (seed0, seed1)
    /\ (seed0 < Page_size parent)%nat /\ (seed1 < Page_size parent)%nat
    /\ seed0 <> seed1.
Proof.
  intros Hsize.
  change (Quadratic_pick_seeds BoundGetter parent)
    with (snd (fold_left (outer parent) (indexed parent) (None, None))).
  destruct (indexed parent) as [|[i it] rest] eqn:Hidx.
  { apply (f_equal length) in Hidx. unfold indexed in Hidx.
    rewrite length_imap in Hidx. unfold Page_size in Hsize. simpl in Hidx. lia. }
  assert (nodes_ parent !! i = Some it /\ i = 0%nat) as [Hi ->].
  { pose proof (lookup_indexed parent 0) as H0. rewrite Hidx in H0. simpl in H0.
    destruct (nodes_ parent !! 0%nat) eqn:E; simplify_eq/=. done. }
  destruct (inner_loop_ok parent 0 it (None, None) Hi I) as [Hok Hsome].
  rewrite Hidx in Hok, Hsome. simpl in Hok, Hsome. rewrite drop_0 in Hok, Hsome.
  cbn [fold_left]. unfold outer at 2. rewrite Hidx. simpl drop. rewrite drop_0.
  destruct (outer_loop_ok parent rest) with (acc := fold_left (inner 0 it) rest (None, None))
    as [Hok' Hsome'].
  { intros x Hx. rewrite Hidx. by apply list_elem_of_further. }
  { done. }
  destruct Hsome' as [[s0 s1] Hres].
  { apply Hsome. left. intros ->.
    apply (f_equal length) in Hidx. unfold indexed in Hidx.
    rewrite length_imap in Hidx. unfold Page_size in Hsize. simpl in Hidx. lia. }
  exists s0, s1. split; [done|].
  destruct (fold_left (outer parent) rest _) as [[m|] [r|]]; simpl in *; try done.
  simplify_eq. exact Hok'.
Qed.

(** [Quadratic<Max,Min>] fulfils the contract whenever its
    [static_assert] holds. *)
Lemma Quadratic_contract (MaxChildren MinChildren : nat) :
  static_assert (Quadratic BoundGetter MaxChildren MinChildren) ->
  SplittingContract (Quadratic BoundGetter MaxChildren MinChildren).
Proof.
  intros Hassert. split; [done| |].
  - apply Quadratic_pick_seeds_ok.
  - intros parent a b. apply Quadratic_pick_next_ok.
Qed.

End QuadraticSeeds.

(** On a page with [max_children + 1] children, and a strategy that
    keeps its contract, [split_node] passes its final assertions and
    returns two pages with between [min_children] and [max_children]
    children each, which together hold exactly the children of the
    page, while the page itself is left without children. *)
Theorem split_node_postcondition {ndim : nat} {Value : Type}
    (BoundGetter : Value -> Box ndim) (S : SplittingType ndim Value)
    (Contract : SplittingContract S) (parent : Page ndim (Node ndim Value)) :
  Page_size parent = Datatypes.S (@max_children _ _ S) ->
  exists a_node b_node parent',
    split_node BoundGetter (SplittingT := S) parent = Some (a_node, b_node, parent')
    /\ (@min_children _ _ S <= Page_size a_node <= @max_children _ _ S)%nat
    /\ (@min_children _ _ S <= Page_size b_node <= @max_children _ _ S)%nat
    /\ nodes_ a_node ++ nodes_ b_node ≡ₚ nodes_ parent
    /\ Page_size parent' = 0%nat.
Proof.
  intros Hsize.
  destruct (split_node_spec BoundGetter parent Hsize)
    as (a & b & p' & Hsplit & Ha & Hb & Hperm & Hnil & _).
  exists a, b, p'. unfold Page_size at 5. rewrite Hnil. done.
Qed.

Lemma split_node_postcondition_witness :
  exists a_node b_node parent',
    split_node Examples.pair_extractor (SplittingT := Examples.Quadratic_4_2)
               Examples.overfull_page = Some (a_node, b_node, parent')
    /\ (2 <= Page_size a_node <= 4)%nat
    /\ (2 <= Page_size b_node <= 4)%nat
    /\ nodes_ a_node ++ nodes_ b_node ≡ₚ nodes_ Examples.overfull_page
    /\ Page_size parent' = 0%nat.
Proof.
  apply (split_node_postcondition Examples.pair_extractor Examples.Quadratic_4_2
           (Quadratic_contract Examples.pair_extractor 4 2
              (conj (le_n 2) (le_n 2)))
           Examples.overfull_page eq_refl).
Defined.

(** C3, evaluated with the linear strategy: the fifth insertion of the
    same point into a tree of [Linear<4,2>] overflows the root page, and
    on that page of five equal points every scaled separation of
    [Linear::pick_seeds] is [0 / 0]; no dimension is accepted, the first
    seed stays null, [assert(ans.first)] fails and [split_node] returns
    no pages.  [Quadratic<4,2>] splits the same page into pages of two
    and three children. *)
Theorem Linear_split_node_equal_points :
  RTree_insert_range Examples.pair_extractor (Parameters := Examples.Linear_4_2)
                     RTree_default (take 4 Examples.equal_points)
  = Some (mkRTree (Some (PageNode (mkPage (LeafNode <$> take 4 Examples.equal_points)
                                          (Examples.point 3 3)))))
  /\ Page_size Examples.equal_points_page
     = Datatypes.S (@max_children _ _ Examples.Linear_4_2)
  /\ Linear_extremes Examples.pair_extractor Examples.equal_points_page 0%fin
     = ((Some 0%nat, 3), (Some 0%nat, 3))
  /\ Bound.length (bound_ Examples.equal_points_page) 0%fin = 0
  /\ divide (Z.abs (3 - 3)) 0 = quotient_nan
  /\ Linear_pick_seeds Examples.pair_extractor Examples.equal_points_page = None
  /\ split_node Examples.pair_extractor (SplittingT := Examples.Linear_4_2)
                Examples.equal_points_page = None
  /\ RTree_insert_range Examples.pair_extractor (Parameters := Examples.Linear_4_2)
                        RTree_default Examples.equal_points = None
  /\ exists a_node b_node parent',
       split_node Examples.pair_extractor (SplittingT := Examples.Quadratic_4_2)
                  Examples.equal_points_page = Some (a_node, b_node, parent')
       /\ Page_size a_node = 2%nat /\ Page_size b_node = 3%nat
       /\ Page_size parent' = 0%nat.
Proof.
  repeat (split; [vm_compute; reflexivity|]).
  eexists _, _, _. split; [vm_compute; reflexivity|]. repeat split.
Qed.

(** ** Cached bounds *)

Section StretchFacts.
Context {ndim : nat}.
Implicit Types a b x y : Box ndim.

Lemma fold_stretch_out (l : list (Box ndim)) x y :
  fold_left Bound.stretch l (Bound.stretch x y)
  = Bound.stretch (fold_left Bound.stretch l x) y.
Proof.
  revert x. induction l as [|b l IH]; intros x; simpl; [done|].
  rewrite <- IH. f_equal.
  rewrite !stretch_assoc. f_equal. apply stretch_comm.
Qed.

Lemma fold_stretch_perm (l l' : list (Box ndim)) :
  l ≡ₚ l' -> forall x, fold_left Bound.stretch l x = fold_left Bound.stretch l' x.
Proof.
  induction 1 as [|b l l' _ IH|a b l|l l' l'' _ IH1 _ IH2]; intros x; simpl.
  - done.
  - apply IH.
  - f_equal. rewrite !stretch_assoc. f_equal. apply stretch_comm.
  - by rewrite IH1.
Qed.

Lemma fold_stretch_insert (l : list (Box ndim)) (pos : nat) b sb r :
  l !! pos = Some b ->
  fold_left Bound.stretch (<[pos := Bound.stretch b sb]> l) r
  = Bound.stretch (fold_left Bound.stretch l r) sb.
Proof.
  revert pos r. induction l as [|b0 l IH]; intros [|pos] r Hl; simplify_eq/=.
  - rewrite <- fold_stretch_out. f_equal. by rewrite stretch_assoc.
  - by apply IH.
Qed.

Lemma fold_stretch_absorb (l : list (Box ndim)) b r :
  b ∈ l ->
  Bound.stretch (fold_left Bound.stretch l r) b = fold_left Bound.stretch l r.
Proof.
  revert r. induction l as [|b0 l IH]; intros r Hin; [by apply elem_of_nil in Hin|].
  apply elem_of_cons in Hin as [->|Hin]; simpl; [|by apply IH].
  rewrite <- fold_stretch_out. f_equal.
  by rewrite stretch_assoc, stretch_idemp.
Qed.

Lemma fold_stretch_start (l : list (Box ndim)) r :
  Bound.stretch (fold_left Bound.stretch l r) r = fold_left Bound.stretch l r.
Proof. by rewrite <- fold_stretch_out, stretch_idemp. Qed.

Lemma fold_stretch_from (l : list (Box ndim)) r y :
  Bound.stretch y r = y ->
  Bound.stretch y (fold_left Bound.stretch l r) = fold_left Bound.stretch l y.
Proof.
  revert y r. induction l as [|b l IH]; intros y r Hy; simpl.
  - done.
  - rewrite fold_stretch_out, <- stretch_assoc.
    rewrite (fold_stretch_out l y b). f_equal. by apply IH.
Qed.

Lemma fold_stretch_app (l1 l2 : list (Box ndim)) r :
  Bound.stretch (fold_left Bound.stretch l1 r) (fold_left Bound.stretch l2 r)
  = fold_left Bound.stretch (l1 ++ l2) r.
Proof.
  rewrite fold_left_app. apply fold_stretch_from, fold_stretch_start.
Qed.

Lemma fold_stretch_delete (l : list (Box ndim)) (pos : nat) b r :
  l !! pos = Some b ->
  fold_left Bound.stretch l r
  = Bound.stretch (fold_left Bound.stretch (delete pos l) r) b.
Proof.
  intros Hl. rewrite (fold_stretch_perm l (b :: delete pos l)) by by apply delete_Permutation.
  simpl. apply fold_stretch_out.
Qed.

End StretchFacts.

(** Equations between unions of boxes, coordinate by coordinate. *)
Ltac box_lia :=
  apply Box_eq; apply vec_eq; intros ?; simpl; rewrite ?vlookup_zip_with; lia.

Section BoundsFacts.
Context {ndim : nat} {Value : Type}.
Context (BoundGetter : Value -> Box ndim) (EqualOp : Value -> Value -> bool).
Context {S : SplittingType ndim Value} {Contract : SplittingContract S}.

Local Abbreviation Node := (Node ndim Value).
Local Abbreviation Page := (Page ndim Node).
Local Abbreviation parents := (parents ndim Value).
Local Abbreviation Page_bound_ok := (Page_bound_ok BoundGetter).
Local Abbreviation bounds_ok := (bounds_ok BoundGetter).
Local Abbreviation chain_ok := (chain_ok BoundGetter).

(** Induction on a node with the hypothesis for all children of a page. *)
Lemma Node_nested_ind (P : Node -> Prop) :
  (forall v, P (LeafNode v)) ->
  (forall p, Forall P (nodes_ p) -> P (PageNode p)) ->
  forall n, P n.
Proof.
  intros Hleaf Hpage. fix IH 1. intros [v|[children b]].
  - apply Hleaf.
  - apply Hpage. simpl. induction children as [|c children IHc]; constructor.
    + apply IH.
    + apply IHc.
Qed.

Lemma bounds_ok_page_inv (p : Page) :
  bounds_ok (PageNode p) -> Page_bound_ok p /\ Forall bounds_ok (nodes_ p).
Proof. by inversion 1. Qed.

Lemma bounds_ok_child (p : Page) (pos : nat) (child : Node) :
  bounds_ok (PageNode p) -> nodes_ p !! pos = Some child -> bounds_ok child.
Proof.
  intros [_ Hall]%bounds_ok_page_inv Hl.
  eapply Forall_lookup_1; eauto.
Qed.

(** The descent of [find_best_fit_in_tree], one level at a time. *)
Lemma find_best_fit_from_page (bb : Box ndim) (p : Page) (chain : parents) :
  find_best_fit_from BoundGetter bb (PageNode p) chain
  = pos ← find_best_fit_in_node BoundGetter bb p;
    child ← nodes_ p !! pos;
    match child with
    | LeafNode _ => Some (p, chain)
    | PageNode _ => find_best_fit_from BoundGetter bb child ((p, pos) :: chain)
    end.
Proof.
  simpl. destruct (find_best_fit_in_node BoundGetter bb p) as [pos|]; [|done]. simpl.
  assert (forall (k : Node -> option (Page * parents)) (l : list Node) (i : nat),
             (fix child_at (children : list Node) (i : nat) {struct children} :=
                match children, i with
                | [], _ => None
                | child :: _, O => k child
                | _ :: children', Datatypes.S i' => child_at children' i'
                end) l i = l !! i ≫= k) as Hchild.
  { intros k. induction l as [|c l IH]; intros [|i]; simpl; done. }
  exact (Hchild (fun child => match child with
                              | LeafNode _ => Some (p, chain)
                              | PageNode _ =>
                                  find_best_fit_from BoundGetter bb child ((p, pos) :: chain)
                              end) (nodes_ p) pos).
Qed.

Lemma find_best_fit_from_ok (bb : Box ndim) (current : Node) :
  forall (chain : parents) (p best : Page) (chain' : parents),
    current = PageNode p ->
    bounds_ok current -> chain_ok p chain ->
    find_best_fit_from BoundGetter bb current chain = Some (best, chain') ->
    bounds_ok (PageNode best) /\ chain_ok best chain'.
Proof.
  induction current as [v|q IH] using Node_nested_ind;
    intros chain p best chain' Heq Hok Hchain Hfind; [done|].
  simplify_eq. rewrite find_best_fit_from_page in Hfind.
  destruct (find_best_fit_in_node BoundGetter bb p) as [pos|]; [|done].
  simpl in Hfind. destruct (nodes_ p !! pos) as [child|] eqn:Hchild; [|done].
  simpl in Hfind. destruct child as [v|c].
  - by simplify_eq.
  - eapply (Forall_lookup_1 _ _ _ _ IH Hchild); [done| | |exact Hfind].
    + eapply bounds_ok_child; eauto.
    + by constructor.
Qed.

Lemma find_best_fit_in_tree_ok (starting_node : option Node) (bb : Box ndim)
    (best : Page) (chain : parents) :
  from_option bounds_ok True starting_node ->
  find_best_fit_in_tree BoundGetter starting_node bb = Some (best, chain) ->
  bounds_ok (PageNode best) /\ chain_ok best chain.
Proof.
  destruct starting_node as [root|]; simpl; intros Hok Hfind.
  - destruct root as [v|p]; [done|].
    eapply find_best_fit_from_ok; [done|done| |exact Hfind]. constructor.
  - simplify_eq. split; [|constructor].
    constructor; [done|]. constructor.
Qed.

End BoundsFacts.

Section ExpandFacts.
Context {ndim : nat} {Value : Type}.
Context (BoundGetter : Value -> Box ndim).
Context {S : SplittingType ndim Value} {Contract : SplittingContract S}.

Local Abbreviation Node := (Node ndim Value).
Local Abbreviation Page := (Page ndim Node).
Local Abbreviation parents := (parents ndim Value).
Local Abbreviation Page_bound_ok := (Page_bound_ok BoundGetter).
Local Abbreviation bounds_ok := (bounds_ok BoundGetter).
Local Abbreviation chain_ok := (chain_ok BoundGetter).

(** Whenever [split_node] returns on an overfull page, the two pages
    share out its children and carry their bounds. *)
Lemma split_node_Some (parent a b parent' : Page) :
  (max_children < Page_size parent)%nat ->
  split_node BoundGetter parent = Some (a, b, parent') ->
  nodes_ a ++ nodes_ b ≡ₚ nodes_ parent
  /\ Page_bound_ok a /\ Page_bound_ok b.
Proof.
  intros Hsize Hsplit. destruct (static_assert_bounds (S := S)) as [Hmin Hmax].
  unfold split_node in Hsplit.
  destruct (contract_pick_seeds parent) as (s0 & s1 & Hseeds & Hs0 & Hs1 & Hne); [lia|].
  rewrite Hseeds in Hsplit. simpl in Hsplit.
  destruct (lookup_lt_is_Some_2 (nodes_ parent) s0 Hs0) as [child0 Hc0].
  destruct (lookup_lt_is_Some_2 (nodes_ parent) s1 Hs1) as [child1 Hc1].
  rewrite Hc0, Hc1 in Hsplit. simpl in Hsplit.
  destruct (position_after_lookup (nodes_ parent) s0 s1 child1 Hne Hs0 Hc1)
    as (pos & Hpos & Hc1').
  rewrite Hpos in Hsplit.
  pose proof (lookup_lt_Some _ _ _ Hc1') as Hpos_lt.
  rewrite length_delete in Hpos_lt by eauto.
  set (rest := Page_remove (Page_remove parent s0) pos) in *.
  set (a0 := Page_insert BoundGetter (Node_new BoundGetter) child0) in *.
  set (b0 := Page_insert BoundGetter (Node_new BoundGetter) child1) in *.
  assert (Page_size rest = Page_size parent - 2)%nat as Hrest.
  { unfold rest, Page_size, Page_remove in *. simpl.
    rewrite !length_delete by eauto. lia. }
  assert (nodes_ parent ≡ₚ child0 :: child1 :: nodes_ rest) as Hperm.
  { etrans; [apply (delete_Permutation _ s0 child0 Hc0)|]. apply perm_skip.
    apply (delete_Permutation _ pos child1 Hc1'). }
  assert (Page_size a0 = 1%nat) as Ha0 by done.
  assert (Page_size b0 = 1%nat) as Hb0 by done.
  destruct (split_loop_spec BoundGetter (Page_size rest) rest a0 b0)
    as (p' & a' & b' & Hloop & Hperm' & _ & _ & _ & Hoka & Hokb); [done|lia|lia|].
  rewrite Hloop in Hsplit. simpl in Hsplit.
  specialize (Hoka (Page_insert_bound_ok _ _ _ (Node_new_bound_ok _))).
  specialize (Hokb (Page_insert_bound_ok _ _ _ (Node_new_bound_ok _))).
  assert (nodes_ a' ++ nodes_ b' ++ nodes_ p' ≡ₚ nodes_ parent) as Hall.
  { etrans; [exact Hperm'|]. by rewrite Hperm. }
  destruct (0 <? Page_size p')%nat eqn:Hp.
  - destruct (Page_size a' <? min_children)%nat; simpl in Hsplit;
      destruct (_ && _) in Hsplit; simplify_eq.
    + rewrite fold_Page_insert_nodes. split; [|split; [|done]].
      * rewrite <- Hall, <- !app_assoc.
        apply Permutation_app_head, Permutation_app_comm.
      * by apply fold_Page_insert_bound_ok.
    + rewrite fold_Page_insert_nodes. split; [done|split; [done|]].
      by apply fold_Page_insert_bound_ok.
  - apply Nat.ltb_ge in Hp.
    assert (nodes_ p' = []) as Hnil.
    { unfold Page_size in Hp. destruct (nodes_ p'); [done|simpl in Hp; lia]. }
    destruct (_ && _) in Hsplit; simplify_eq.
    split; [|by split]. rewrite <- Hall, Hnil. by rewrite app_nil_r.
Qed.

Lemma Forall_bounds_ok_perm (l l' : list Node) :
  l ≡ₚ l' -> Forall bounds_ok l -> Forall bounds_ok l'.
Proof. by intros ->. Qed.

Lemma split_node_bounds (current a b parent' : Page) :
  (max_children < Page_size current)%nat ->
  bounds_ok (PageNode current) ->
  split_node BoundGetter current = Some (a, b, parent') ->
  bounds_ok (PageNode a) /\ bounds_ok (PageNode b)
  /\ Bound.stretch (bound_ a) (bound_ b) = bound_ current.
Proof.
  intros Hsize [Hcur Hall]%bounds_ok_page_inv Hsplit.
  destruct (split_node_Some _ _ _ _ Hsize Hsplit) as (Hperm & Ha & Hb).
  apply (Forall_bounds_ok_perm _ _ (symmetry Hperm)), Forall_app in Hall as [Hall_a Hall_b].
  split; [by constructor|]. split; [by constructor|].
  rewrite Ha, Hb, Hcur, fold_stretch_app, <- fmap_app.
  apply fold_stretch_perm. by rewrite Hperm.
Qed.

Lemma expand_step_ok (sb : Box ndim) (current old parent parent' : Page) (pos : nat) :
  bounds_ok (PageNode current) ->
  bound_ current = Bound.stretch (bound_ old) sb ->
  nodes_ parent !! pos = Some (PageNode old) ->
  bounds_ok (PageNode parent) ->
  expand_step BoundGetter sb current (parent, pos) = Some parent' ->
  bounds_ok (PageNode parent')
  /\ bound_ parent' = Bound.stretch (bound_ parent) sb.
Proof.
  intros Hcur Hbound Hpos [Hpar Hall]%bounds_ok_page_inv Hstep.
  unfold expand_step in Hstep.
  assert (getBound BoundGetter <$> nodes_ parent !! pos = Some (bound_ old)) as Hold.
  { by rewrite Hpos. }
  rewrite <- list_lookup_fmap in Hold.
  destruct (Nat.ltb_spec max_children (Page_size current)) as [Hover|_].
  - destruct (split_node BoundGetter current) as [[[a b] p']|] eqn:Hsplit;
      simplify_eq/=.
    destruct (split_node_bounds _ _ _ _ Hover Hcur Hsplit) as (Ha & Hb & Hab).
    rewrite Hbound in Hab.
    assert (Bound.stretch (Bound.stretch (Bound.stretch (bound_ parent) (bound_ a)) (bound_ b)) sb
            = Bound.stretch (bound_ parent) sb) as Hbnd.
    { transitivity (Bound.stretch (Bound.stretch (bound_ parent)
                                     (Bound.stretch (bound_ a) (bound_ b))) sb).
      { by rewrite !stretch_assoc. }
      rewrite Hab.
      assert (Bound.stretch (bound_ parent) (bound_ old) = bound_ parent) as Habs.
      { unfold Page_bound_ok in Hpar. rewrite Hpar.
        eapply fold_stretch_absorb, list_elem_of_lookup_2, Hold. }
      rewrite <- Habs. box_lia. }
    split; [|done]. constructor.
    + unfold Page_bound_ok in *. simpl. rewrite Hbnd.
      rewrite !fmap_app, !fold_left_app. simpl.
      rewrite Hpar. rewrite (fold_stretch_delete _ pos _ _ Hold), <- list_fmap_delete.
      set (D := fold_left Bound.stretch (getBound BoundGetter <$> delete pos (nodes_ parent))
                          Bound.reset) in *.
      transitivity (Bound.stretch D (Bound.stretch (bound_ a) (bound_ b))).
      { rewrite Hab. box_lia. }
      by rewrite stretch_assoc.
    + simpl. rewrite !Forall_app, !Forall_singleton. split; [split|]; [|done..].
      rewrite delete_take_drop. apply Forall_app. split.
      * by apply Forall_take.
      * by apply Forall_drop.
  - simplify_eq/=. split; [|done]. constructor.
    + unfold Page_bound_ok in *. simpl.
      rewrite list_fmap_insert. simpl. rewrite Hbound, Hpar.
      symmetry. by apply fold_stretch_insert.
    + simpl. by apply Forall_insert.
Qed.

Lemma expand_loop_ok (sb : Box ndim) (chain : parents) :
  forall (current old root : Page),
    chain_ok old chain ->
    bounds_ok (PageNode current) ->
    bound_ current = Bound.stretch (bound_ old) sb ->
    expand_loop BoundGetter sb current chain = Some root ->
    bounds_ok (PageNode root).
Proof.
  induction chain as [|[parent pos] chain IH]; intros current old root Hchain Hcur Hb Hloop;
    cbn [expand_loop] in Hloop.
  - by simplify_eq.
  - inversion Hchain as [|? ? ? ? Hpos Hpar Hchain']; subst.
    destruct (expand_step BoundGetter sb current (parent, pos)) as [parent'|] eqn:Hstep;
      [|done].
    simpl in Hloop.
    destruct (expand_step_ok _ _ _ _ _ _ Hcur Hb Hpos Hpar Hstep) as [Hok Hb'].
    eapply IH; eauto.
Qed.

Lemma insert_bounds_ok (starting_node : option Node) (place_node root : Node) :
  from_option bounds_ok True starting_node ->
  bounds_ok place_node ->
  insert BoundGetter starting_node place_node = Some root ->
  bounds_ok root.
Proof.
  intros Hstart Hplace Hins. unfold insert in Hins.
  destruct (find_best_fit_in_tree _ _ _) as [[best chain]|] eqn:Hfind; [|done].
  simpl in Hins.
  destruct (find_best_fit_in_tree_ok _ _ _ _ _ Hstart Hfind)
    as [[Hbest Hall]%bounds_ok_page_inv Hchain].
  unfold expand_tree in Hins.
  set (current := Page_insert BoundGetter best place_node) in *.
  assert (bounds_ok (PageNode current)) as Hcur.
  { constructor; [by apply Page_insert_bound_ok|].
    simpl. apply Forall_app. split; [done|by apply Forall_singleton]. }
  destruct (expand_loop BoundGetter (bound_ current) current chain) as [top|] eqn:Hloop;
    [|done].
  simpl in Hins.
  assert (bounds_ok (PageNode top)) as Htop.
  { assert (bound_ current = Bound.stretch (bound_ best) (bound_ current)) as Hb.
    { simpl. box_lia. }
    exact (expand_loop_ok (bound_ current) chain current best top Hchain Hcur Hb Hloop). }
  destruct (Nat.ltb_spec max_children (Page_size top)) as [Hover|_].
  - destruct (split_node BoundGetter top) as [[[a b] p']|] eqn:Hsplit; simplify_eq/=.
    destruct (split_node_bounds _ _ _ _ Hover Htop Hsplit) as (Ha & Hb & _).
    constructor.
    + by do 2 apply Page_insert_bound_ok.
    + simpl. by rewrite Forall_cons, Forall_singleton.
  - by simplify_eq/=.
Qed.

End ExpandFacts.

Section CondenseFacts.
Context {ndim : nat} {Value : Type}.
Context (BoundGetter : Value -> Box ndim) (EqualOp : Value -> Value -> bool).
Context {S : SplittingType ndim Value} {Contract : SplittingContract S}.

Local Abbreviation Node := (Node ndim Value).
Local Abbreviation Page := (Page ndim Node).
Local Abbreviation parents := (parents ndim Value).
Local Abbreviation bounds_ok := (bounds_ok BoundGetter).
Local Abbreviation chain_ok := (chain_ok BoundGetter).








End CondenseFacts.




(** ** UniqueMap *)

(** A loop over [0 .. k-1] whose body may fail: an invariant that every
    iteration re-establishes holds at the end, and the loop returns. *)
Lemma fold_seq_inv {A} (f : option A -> nat -> option A) (P : nat -> A -> Prop) (k : nat) :
  (forall i a, (i < k)%nat -> P i a -> exists a', f (Some a) i = Some a' /\ P (Datatypes.S i) a') ->
  forall a0, P 0%nat a0 ->
    exists a, fold_left f (seq 0 k) (Some a0) = Some a /\ P k a.
Proof.
  intros Hstep.
  assert (forall n s a0, (s + n = k)%nat -> P s a0 ->
            exists a, fold_left f (seq s n) (Some a0) = Some a /\ P k a) as Hgen.
  { induction n as [|n IH]; intros s a0 Hk Ha0; simpl.
    - exists a0. split; [done|]. by replace k with s by lia.
    - destruct (Hstep s a0) as (a' & Hf & Ha'); [lia|done|].
      rewrite Hf. apply IH; [lia|done]. }
  intros a0 Ha0. by apply Hgen.
Qed.

Section UniqueMapFacts.
Context {T : Type} `{Countable T} `{Inhabited T}.

Lemma setup_fold_inv (vals : list T) :
  setup_inv vals (fold_left setup_step (imap pair vals) (∅, mkUniqueMap [] [])).
Proof.
  induction vals as [|x vals IH] using rev_ind.
  - simpl. split; [by intros v i; rewrite lookup_empty|].
    split; [done|]. split; [by intros u ?%elem_of_nil|].
    split; [by intros d r ?%elem_of_nil|]. simpl. lia.
  - rewrite imap_app, fold_left_app. simpl. rewrite Nat.add_0_r.
    destruct (fold_left setup_step (imap pair vals) _) as [m um].
    destruct IH as (Hm & Hlen & Hu & Hn & Hall).
    unfold setup_step. destruct (m !! x) as [first_seen|] eqn:Hx; simpl.
    + (* a value seen before *)
      destruct (Hm _ _ Hx) as [Hfirst Hin].
      pose proof (lookup_lt_Some _ _ _ Hfirst) as Hlt.
      split.
      { intros v i Hv. destruct (Hm _ _ Hv) as [Hi ?]. split; [|done].
        by apply lookup_app_l_Some. }
      split; [rewrite !length_app; simpl; lia|].
      split; [intros u Hu'; rewrite length_app; apply Hu in Hu'; lia|].
      split.
      { intros d r [Hd|Hd%list_elem_of_singleton]%elem_of_app.
        - destruct (Hn _ _ Hd) as (Hdl & Hr & Heq).
          split; [rewrite length_app; lia|]. split; [done|].
          rewrite !lookup_app_l; [done|by apply Hu|done].
        - simplify_eq. split; [rewrite length_app; simpl; lia|]. split; [done|].
          rewrite lookup_app_r, Nat.sub_diag by lia. simpl.
          symmetry. by apply lookup_app_l_Some. }
      intros i Hi. rewrite length_app in Hi. simpl in Hi.
      destruct (decide (i = length vals)) as [->|Hne].
      * right. exists first_seen. apply elem_of_app. right. apply list_elem_of_here.
      * destruct (Hall i) as [?|[r Hr]]; [lia|by left|].
        right. exists r. apply elem_of_app. by left.
    + (* a new value *)
      split.
      { intros v i Hv. destruct (decide (x = v)) as [->|Hne].
        - rewrite lookup_insert_eq in Hv. simplify_eq.
          split; [by rewrite lookup_app_r, Nat.sub_diag by lia|].
          apply elem_of_app. right. apply list_elem_of_here.
        - rewrite lookup_insert_ne in Hv by done.
          destruct (Hm _ _ Hv) as [Hi ?]. split; [by apply lookup_app_l_Some|].
          apply elem_of_app. by left. }
      split; [rewrite !length_app; simpl; lia|].
      split.
      { intros u [Hu'|Hu'%list_elem_of_singleton]%elem_of_app; rewrite length_app; simpl.
        - apply Hu in Hu'. lia.
        - lia. }
      split.
      { intros d r Hd. destruct (Hn _ _ Hd) as (Hdl & Hr & Heq).
        split; [rewrite length_app; lia|]. split; [apply elem_of_app; by left|].
        rewrite !lookup_app_l; [done|by apply Hu|done]. }
      intros i Hi. rewrite length_app in Hi. simpl in Hi.
      destruct (decide (i = length vals)) as [->|Hne].
      * left. apply elem_of_app. right. apply list_elem_of_here.
      * destruct (Hall i) as [?|[r Hr]]; [lia| |by right; exists r].
        left. apply elem_of_app. by left.
Qed.

End UniqueMapFacts.

Section UniqueMapRoundTrip.
Context {T : Type} `{Countable T} `{Inhabited T}.

Lemma store_Some (vout : list T) (i : nat) (x : T) :
  (i < length vout)%nat -> store vout i x = Some (<[i := x]> vout).
Proof. intros Hi. unfold store. by rewrite decide_True. Qed.

Lemma reduce_to_unique_spec (um : UniqueMap) (vin vout : list T) :
  (forall u, u ∈ unique_idx_ um -> (u < length vin)%nat) ->
  exists reduced,
    reduce_to_unique um vin vout = Some reduced
    /\ length reduced = length (unique_idx_ um)
    /\ forall i u, unique_idx_ um !! i = Some u -> reduced !! i = vin !! u.
Proof.
  intros Hu. unfold reduce_to_unique.
  set (k := length (unique_idx_ um)).
  destruct (fold_seq_inv
              (fun vout i => vout ← vout; idx ← unique_idx_ um !! i; x ← vin !! idx;
                             Some (<[i := x]> vout))
              (fun i (vout : list T) =>
                 length vout = k
                 /\ forall j u, (j < i)%nat -> unique_idx_ um !! j = Some u ->
                      vout !! j = vin !! u) k) with (a0 := resize k inhabitant vout)
    as (reduced & Hfold & Hlen & Hred).
  - intros i a Hi [Hlen Ha]. simpl.
    destruct (lookup_lt_is_Some_2 (unique_idx_ um) i Hi) as [u Hiu]. rewrite Hiu. simpl.
    destruct (lookup_lt_is_Some_2 vin u) as [x Hx].
    { apply Hu. by eapply list_elem_of_lookup_2. }
    rewrite Hx. simpl. eexists. split; [done|]. split; [by rewrite length_insert|].
    intros j u' Hj Hju'. destruct (decide (j = i)) as [->|Hne].
    + simplify_eq. rewrite list_lookup_insert_eq by lia. done.
    + rewrite list_lookup_insert_ne by done. apply Ha; [lia|done].
  - split; [by rewrite length_resize|]. intros j u Hj. lia.
  - exists reduced. split; [done|]. split; [done|].
    intros i u Hiu. apply Hred; [|done]. by eapply lookup_lt_Some.
Qed.

Lemma expand_to_non_unique_spec (vals reduced vout : list T) :
  length reduced = length (unique_idx_ (setup vals)) ->
  (forall i u, unique_idx_ (setup vals) !! i = Some u -> reduced !! i = vals !! u) ->
  expand_to_non_unique (setup vals) reduced vout = Some vals.
Proof.
  intros Hlen Hred. unfold expand_to_non_unique.
  pose proof (setup_fold_inv vals) as Hinv. unfold setup in *.
  destruct (fold_left setup_step (imap pair vals) _) as [m um]. simpl in *.
  destruct Hinv as (_ & Htotal & Hu & Hn & Hall).
  rewrite Htotal.
  (* the loop over the unique values *)
  destruct (fold_seq_inv
              (fun vout i => vout ← vout; idx ← unique_idx_ um !! i; x ← reduced !! i;
                             store vout idx x)
              (fun i (vout : list T) =>
                 length vout = length vals
                 /\ forall j u, (j < i)%nat -> unique_idx_ um !! j = Some u ->
                      vout !! u = vals !! u) (length (unique_idx_ um)))
    with (a0 := resize (length vals) inhabitant vout)
    as (vout1 & Hfold1 & Hlen1 & Hgood1).
  { intros i a Hi [Hla Ha]. simpl.
    destruct (lookup_lt_is_Some_2 (unique_idx_ um) i Hi) as [u Hiu]. rewrite Hiu. simpl.
    assert (u < length vals)%nat as Hult by (apply Hu; by eapply list_elem_of_lookup_2).
    destruct (lookup_lt_is_Some_2 vals u Hult) as [x Hx].
    rewrite (Hred _ _ Hiu), Hx. simpl. rewrite store_Some by lia.
    eexists. split; [done|]. split; [by rewrite length_insert|].
    intros j u' Hj Hju'. destruct (decide (u' = u)) as [->|Hne].
    - rewrite list_lookup_insert_eq by lia. done.
    - rewrite list_lookup_insert_ne by done.
      destruct (decide (j = i)) as [->|Hji]; [congruence|]. apply (Ha j); [lia|done]. }
  { split; [by rewrite length_resize|]. intros j u Hj. lia. }
  rewrite Hfold1. simpl.
  assert (forall u, u ∈ unique_idx_ um -> vout1 !! u = vals !! u) as Hunique.
  { intros u [j Hj]%list_elem_of_lookup. apply (Hgood1 j); [|done].
    by eapply lookup_lt_Some. }
  (* the loop over the duplicates *)
  destruct (fold_seq_inv
              (fun vout i => vout ← vout; entry ← non_unique_map_ um !! i;
                             x ← vout !! (snd entry); store vout (fst entry) x)
              (fun i (vout : list T) =>
                 length vout = length vals
                 /\ (forall u, u ∈ unique_idx_ um -> vout !! u = vals !! u)
                 /\ forall j d r, (j < i)%nat -> non_unique_map_ um !! j = Some (d, r) ->
                      vout !! d = vals !! d) (length (non_unique_map_ um)))
    with (a0 := vout1)
    as (vout2 & Hfold2 & Hlen2 & Hunique2 & Hgood2).
  { intros i a Hi (Hla & Hua & Ha). simpl.
    destruct (lookup_lt_is_Some_2 (non_unique_map_ um) i Hi) as [[d r] Hentry].
    rewrite Hentry. simpl.
    destruct (Hn d r) as (Hd & Hr & Hdr); [by eapply list_elem_of_lookup_2|].
    destruct (lookup_lt_is_Some_2 vals d Hd) as [x Hx].
    rewrite (Hua _ Hr), <- Hdr, Hx. simpl. rewrite store_Some by lia.
    eexists. split; [done|]. split; [by rewrite length_insert|]. split.
    - intros u Hin. destruct (decide (u = d)) as [->|Hne].
      + rewrite list_lookup_insert_eq by lia. done.
      + rewrite list_lookup_insert_ne by done. by apply Hua.
    - intros j d' r' Hj Hj'. destruct (decide (d' = d)) as [->|Hne].
      + rewrite list_lookup_insert_eq by lia. done.
      + rewrite list_lookup_insert_ne by done.
        destruct (decide (j = i)) as [->|Hji]; [congruence|]. apply (Ha j d' r'); [lia|done]. }
  { split; [done|]. split; [done|]. intros j d r Hj. lia. }
  rewrite Hfold2. f_equal. apply list_eq. intros i.
  destruct (decide (i < length vals)%nat) as [Hi|Hi].
  - destruct (Hall i Hi) as [Hin|[r [j Hj]%list_elem_of_lookup]].
    + by apply Hunique2.
    + apply (Hgood2 j i r); [|done]. by eapply lookup_lt_Some.
  - rewrite !lookup_ge_None_2; [done|lia|lia].
Qed.

(** C8: expanding what [reduce_to_unique] made of a vector gives the
    vector back. *)
Theorem expand_reduce_roundtrip (vals vout1 vout2 : list T) :
  (reduced ← reduce_to_unique (setup vals) vals vout1;
   expand_to_non_unique (setup vals) reduced vout2) = Some vals.
Proof.
  destruct (reduce_to_unique_spec (setup vals) vals vout1) as (reduced & Hred & Hlen & Hval).
  - pose proof (setup_fold_inv vals) as Hinv. unfold setup.
    destruct (fold_left setup_step (imap pair vals) _) as [m um].
    by destruct Hinv as (_ & _ & Hu & _).
  - rewrite Hred. simpl. by apply expand_to_non_unique_spec.
Qed.

End UniqueMapRoundTrip.

Example expand_reduce_example :
  let vals := [5; 7; 5; 9; 7; 5] in
  unique_idx_ (setup vals) = [0; 1; 3]%nat
  /\ non_unique_map_ (setup vals) = [(2, 0); (4, 1); (5, 0)]%nat
  /\ reduce_to_unique (setup vals) vals [] = Some [5; 7; 9]
  /\ expand_to_non_unique (setup vals) [5; 7; 9] [] = Some vals.
Proof. vm_compute. done. Qed.

(** ** RCB: the number of partitions *)

(** Two boxes with the same minimum corner are equivalent for
    [Box::less]: neither is less than the other. *)
Lemma less_same_min_corner {ndim : nat} (a b : Box ndim) :
  min_ a = min_ b -> Bound.less a b = false /\ Bound.less b a = false.
Proof.
  intros Hmin. unfold Bound.less, Bound.min. rewrite Hmin.
  assert (existsb (fun i => min_ b !!! i <? min_ b !!! i) Bound.dims = false) as Hnone.
  { induction (Bound.dims (ndim := ndim)) as [|i l IH]; simpl; [done|].
    by rewrite Z.ltb_irrefl. }
  done.
Qed.

(** A box is not inserted behind an element with its minimum corner. *)
Lemma set_insert_same_min_corner (box y : RCB.box_type) (s : list RCB.box_type) :
  min_ box = min_ y -> RCB.set_insert box (y :: s) = y :: s.
Proof.
  intros Hmin. simpl.
  destruct (less_same_min_corner box y Hmin) as [-> ->]. done.
Qed.

(** C5, evaluated: on three ranks that each hold the points (0,0,0)
    three times and (10,0,0) once, the second bisection splits at the
    minimum face of its box, the two halves have the same minimum
    corner, and the set of final boxes keeps only one of them: [init]
    ends with two boxes for three ranks. *)
Theorem init_loses_a_partition :
  RCB.init (replicate 3 Examples.duplicates_adaptor)
  = Some [mkBox [# -1; -1; -1] [# 0; 1; 1]; mkBox [# 0; -1; -1] [# 0; 1; 1]]
  /\ RCB.split_box (mkBox [# 0; -1; -1] [# 11; 1; 1]) 0%fin 0
     = (mkBox [# 0; -1; -1] [# 0; 1; 1], mkBox [# 0; -1; -1] [# 11; 1; 1])
  /\ RCB.set_insert (mkBox [# 0; -1; -1] [# 11; 1; 1])
       [mkBox [# -1; -1; -1] [# 0; 1; 1]; mkBox [# 0; -1; -1] [# 0; 1; 1]]
     = [mkBox [# -1; -1; -1] [# 0; 1; 1]; mkBox [# 0; -1; -1] [# 0; 1; 1]].
Proof. split; [|split]; vm_compute; reflexivity. Qed.

(** ** The distance query with a count of zero *)

(** C1, evaluated: with [K = 0] the first leaf that is reached is
    truncated away at once, [size() >= count()] holds, and the threshold
    is read through [crbegin()] of the empty set. *)
Theorem query_distance_zero_count :
  query_distance Examples.pair_extractor Examples.single_value_tree
                 (Predicate.Nearest (Examples.point 5 5) 0) = None
  /\ TruncatedMultiSet.crbegin_first
       (TruncatedMultiSet.emplace (16, LeafNode (Examples.point 1 5, 0%nat))
          (TruncatedMultiSet.make (A := Node 2 Examples.value_type) 0)) = None.
Proof. split; vm_compute; reflexivity. Qed.

(** ** The nearest-neighbour query *)

Section NearestFacts.
Context {ndim : nat}.
Implicit Types a b q : Box ndim.

Lemma stretch_absorbs_le a b (i : fin ndim) :
  Bound.stretch a b = a ->
  min_ a !!! i <= min_ b !!! i /\ max_ b !!! i <= max_ a !!! i.
Proof.
  intros Heq.
  assert (min_ (Bound.stretch a b) !!! i = min_ a !!! i) as Hmin by by rewrite Heq.
  assert (max_ (Bound.stretch a b) !!! i = max_ a !!! i) as Hmax by by rewrite Heq.
  simpl in Hmin, Hmax. rewrite vlookup_zip_with in Hmin, Hmax. lia.
Qed.

Lemma Nearest_fold_mono a b q (l : list (fin ndim)) (x y : Z) :
  Bound.stretch a b = a -> x <= y ->
  fold_left (Bound.Nearest_step a q) l x <= fold_left (Bound.Nearest_step b q) l y.
Proof.
  intros Heq. revert x y. induction l as [|i l IH]; intros x y Hxy; simpl; [done|].
  apply IH. unfold Bound.Nearest_step.
  destruct (stretch_absorbs_le a b i Heq) as [Hmin Hmax].
  apply Z.add_le_mono; [done|].
  apply Z.pow_le_mono_l. lia.
Qed.

(** The distance to a box is at most the distance to a box it holds. *)
Lemma Nearest_mono a b q :
  Bound.stretch a b = a -> Bound.Nearest a q <= Bound.Nearest b q.
Proof. intros Heq. by apply Nearest_fold_mono. Qed.

End NearestFacts.

Section MultisetFacts.
Context {A : Type}.
Implicit Types x y : Z * A.
Implicit Types s : list (Z * A).

Lemma multiset_insert_perm x s : multiset_insert x s ≡ₚ x :: s.
Proof.
  induction s as [|y s IH]; simpl; [done|].
  destruct (fst x <? fst y); [done|].
  rewrite IH. apply perm_swap.
Qed.

Lemma multiset_insert_length x s :
  length (multiset_insert x s) = Datatypes.S (length s).
Proof. by rewrite multiset_insert_perm. Qed.

Lemma multiset_insert_sorted x s :
  StronglySorted key_le s -> StronglySorted key_le (multiset_insert x s).
Proof.
  induction 1 as [|y s Hs IH Hy]; simpl.
  - repeat constructor.
  - destruct (Z.ltb_spec (fst x) (fst y)) as [Hlt|Hge].
    + constructor; [by constructor|]. constructor; [unfold key_le; lia|].
      eapply Forall_impl; [exact Hy|]. unfold key_le. intros z Hz. lia.
    + constructor; [done|]. rewrite multiset_insert_perm. by constructor.
Qed.

Lemma sorted_take (n : nat) s :
  StronglySorted key_le s -> StronglySorted key_le (take n s).
Proof.
  intros Hs. rewrite <- (take_drop n s) in Hs. by apply StronglySorted_app_1_l in Hs.
Qed.

Lemma sorted_last_max s x y :
  StronglySorted key_le s -> last s = Some y -> x ∈ s -> key_le x y.
Proof.
  intros Hs Hlast Hx. apply last_Some in Hlast as [s' ->].
  apply elem_of_app in Hx as [Hx| ->%list_elem_of_singleton].
  - eapply StronglySorted_app_1_elem_of; [exact Hs|done|apply list_elem_of_here].
  - unfold key_le. lia.
Qed.

(** The element that [truncate_] erases from a set that is one over its
    count is not below any element that is kept. *)
Lemma sorted_split_last (n : nat) s :
  StronglySorted key_le s -> length s = Datatypes.S n ->
  exists y, s = take n s ++ [y] /\ forall x, x ∈ take n s -> key_le x y.
Proof.
  intros Hs Hlen.
  destruct (drop n s) as [|y [|z rest]] eqn:Hdrop.
  - apply (f_equal length) in Hdrop. rewrite length_drop in Hdrop. simpl in Hdrop. lia.
  - exists y. rewrite <- Hdrop, take_drop. split; [done|].
    intros x Hx. rewrite <- (take_drop n s), Hdrop in Hs.
    eapply StronglySorted_app_1_elem_of; [exact Hs|done|apply list_elem_of_here].
  - apply (f_equal length) in Hdrop. rewrite length_drop in Hdrop. simpl in Hdrop. lia.
Qed.

End MultisetFacts.

Section DistanceQueryFacts.
Context {ndim : nat} {Value : Type}.
Context (BoundGetter : Value -> Box ndim).
Context (q : Box ndim) (K : nat).

Local Abbreviation Node := (Node ndim Value).
Local Abbreviation bounds_ok := (bounds_ok BoundGetter).
Local Abbreviation node_dist := (node_dist BoundGetter q).
Local Abbreviation value_dist := (value_dist BoundGetter q).
Local Abbreviation pred := (Predicate.Nearest q K).

Lemma distance_apply_Nearest (n : Node) :
  Predicate.distance_apply pred (getBound BoundGetter n) (isLeaf n) = node_dist n.
Proof. unfold Predicate.distance_apply. by destruct (isLeaf n). Qed.

Lemma elem_of_concat {A} (x : A) (ls : list (list A)) :
  x ∈ concat ls <-> exists l, l ∈ ls /\ x ∈ l.
Proof.
  rewrite list_elem_of_In, in_concat. split; intros (l & Hl & Hx); exists l.
  - by rewrite !list_elem_of_In.
  - by rewrite <- !list_elem_of_In.
Qed.

(** No value below a node is nearer than the node's bound. *)
Lemma values_not_nearer (n : Node) :
  bounds_ok n -> forall v, v ∈ values n -> node_dist n <= value_dist v.
Proof.
  induction n as [w|p IH] using Node_nested_ind; intros Hok v Hv; simpl in Hv.
  - apply list_elem_of_singleton in Hv as ->. done.
  - apply bounds_ok_page_inv in Hok as [Hbound Hall].
    apply elem_of_concat in Hv as (vs & Hvs & Hv).
    apply list_elem_of_fmap in Hvs as (child & -> & Hchild).
    trans (node_dist child).
    + apply Nearest_mono. simpl. rewrite Hbound.
      apply fold_stretch_absorb, list_elem_of_fmap. by exists child.
    + rewrite Forall_forall in IH, Hall. apply IH; auto.
Qed.

Lemma push_children_perm (children : list Node) (candidates : list (Z * Node)) :
  push_children BoundGetter pred children candidates
  ≡ₚ ((fun child => (node_dist child, child)) <$> children) ++ candidates.
Proof.
  unfold push_children. revert candidates.
  induction children as [|child children IH]; intros candidates; simpl; [done|].
  rewrite IH, multiset_insert_perm, distance_apply_Nearest.
  by rewrite Permutation_middle.
Qed.

Lemma candidate_values_children (children : list Node) :
  candidate_values ((fun child => (node_dist child, child)) <$> children)
  = concat (values <$> children).
Proof.
  unfold candidate_values. induction children as [|child children IH]; [done|].
  rewrite fmap_cons, bind_cons. simpl. by rewrite IH.
Qed.

Lemma candidates_count_children (children : list Node) :
  candidates_count ((fun child => (node_dist child, child)) <$> children)
  = sum_list (node_count <$> children).
Proof.
  unfold candidates_count. rewrite <- list_fmap_compose. done.
Qed.

End DistanceQueryFacts.

Section DistanceLoopFacts.
Context {ndim : nat} {Value : Type}.
Context (BoundGetter : Value -> Box ndim).
Context (q : Box ndim) (K : nat) (stored : list Value).

Local Abbreviation Node := (Node ndim Value).
Local Abbreviation bounds_ok := (bounds_ok BoundGetter).
Local Abbreviation node_dist := (node_dist BoundGetter q).
Local Abbreviation value_dist := (value_dist BoundGetter q).
Local Abbreviation pred := (Predicate.Nearest q K).
Local Abbreviation inv := (distance_inv BoundGetter q K stored).
Local Abbreviation mk := (TruncatedMultiSet.mk (A := Node)).
Local Abbreviation data := (TruncatedMultiSet._data_set (A := Node)).

Lemma node_count_pos (n : Node) : (0 < node_count n)%nat.
Proof. destruct n; simpl; lia. Qed.

(** A node beyond the threshold is given up with all values below it. *)
Lemma inv_prune d n rest L x D :
  inv ((d, n) :: rest) L (Some x) D -> x < d ->
  inv rest L (Some x) (D ++ values n).
Proof.
  intros [Hc Hl Hs Hk Hv Ht Hd] Hlt.
  apply Forall_cons in Hc as [[Hn Hdn] Hc]. simpl in Hn, Hdn.
  destruct Ht as [Hlen Hlast].
  split; try done.
  - rewrite <- Hv. unfold candidate_values. rewrite bind_cons. simpl.
    apply Permutation_app_head.
    rewrite (Permutation_app_comm D), !app_assoc.
    apply Permutation_app_tail, Permutation_app_comm.
  - intros v e [Hin|Hin]%elem_of_app He; [by apply Hd|].
    apply fmap_Some in Hlast as (y & Hy & ->).
    pose proof (sorted_last_max _ e y Hs Hy He) as Hle. unfold key_le in Hle.
    pose proof (values_not_nearer BoundGetter q n Hn v Hin) as Hnear.
    lia.
Qed.

(** A node beyond [numeric_limits::max()] holds no value, when no stored
    value is that far. *)
Lemma inv_prune_sentinel d n rest L D :
  Forall (fun v => value_dist v <= Bound.numeric_max) stored ->
  inv ((d, n) :: rest) L None D -> Bound.numeric_max < d ->
  inv rest L None D.
Proof.
  intros Hrange [Hc Hl Hs Hk Hv Ht Hd] Hlt.
  apply Forall_cons in Hc as [[Hn Hdn] Hc]. simpl in Hn, Hdn.
  assert (values n = []) as Hnil.
  { destruct (values n) as [|v vs] eqn:Hvalues; [done|]. exfalso.
    assert (v ∈ values n) as Hin by (rewrite Hvalues; apply list_elem_of_here).
    pose proof (values_not_nearer BoundGetter q n Hn v Hin) as Hnear.
    assert (v ∈ stored) as Hstored.
    { rewrite <- Hv. apply elem_of_app. right. apply elem_of_app. left.
      unfold candidate_values. rewrite bind_cons. apply elem_of_app. by left. }
    rewrite Forall_forall in Hrange. specialize (Hrange v Hstored). simpl in Hrange. lia. }
  split; try done.
  rewrite <- Hv. unfold candidate_values. rewrite bind_cons. simpl. by rewrite Hnil.
Qed.

(** A page is replaced by its children. *)
Lemma inv_page d p rest L t D :
  inv ((d, PageNode p) :: rest) L t D ->
  inv (push_children BoundGetter pred (nodes_ p) rest) L t D
  /\ (candidates_count (push_children BoundGetter pred (nodes_ p) rest)
      < candidates_count ((d, PageNode p) :: rest))%nat.
Proof.
  intros [Hc Hl Hs Hk Hv Ht Hd].
  apply Forall_cons in Hc as [[[_ Hall]%bounds_ok_page_inv _] Hc].
  split; [split; try done|].
  - rewrite push_children_perm. apply Forall_app. split; [|done].
    apply Forall_fmap. eapply Forall_impl; [exact Hall|]. by intros child Hchild.
  - rewrite <- Hv. apply Permutation_app_head, Permutation_app_tail.
    pose proof (candidate_values_children BoundGetter q (nodes_ p)) as Hchildren.
    unfold candidate_values in *.
    by rewrite push_children_perm, bind_app, bind_cons, Hchildren.
  - pose proof (candidates_count_children BoundGetter q (nodes_ p)) as Hchildren.
    unfold candidates_count in *.
    rewrite push_children_perm, fmap_app, sum_list_with_app, Hchildren.
    rewrite fmap_cons. cbn [sum_list_with snd node_count]. unfold id. lia.
Qed.

End DistanceLoopFacts.

Section DistanceLeafFacts.
Context {ndim : nat} {Value : Type}.
Context (BoundGetter : Value -> Box ndim).
Context (q : Box ndim) (K : nat) (stored : list Value).

Local Abbreviation Node := (Node ndim Value).
Local Abbreviation node_dist := (node_dist BoundGetter q).
Local Abbreviation value_dist := (value_dist BoundGetter q).
Local Abbreviation inv := (distance_inv BoundGetter q K stored).
Local Abbreviation mk := (TruncatedMultiSet.mk (A := Node)).
Local Abbreviation data := (TruncatedMultiSet._data_set (A := Node)).

Lemma leafs_insert (d : Z) (v : Value) (s : list (Z * Node)) :
  d = node_dist (LeafNode v) ->
  Forall (fun e => exists v, snd e = LeafNode v /\ fst e = value_dist v) s ->
  Forall (fun e => exists v, snd e = LeafNode v /\ fst e = value_dist v)
         (multiset_insert (d, LeafNode v) s).
Proof.
  intros Hd Hs. rewrite multiset_insert_perm. constructor; [|done].
  exists v. by split.
Qed.

Lemma candidate_values_insert (d : Z) (v : Value) (s : list (Z * Node)) :
  candidate_values (multiset_insert (d, LeafNode v) s) ≡ₚ v :: candidate_values s.
Proof. unfold candidate_values. by rewrite multiset_insert_perm, bind_cons. Qed.

(** A leaf put into a set that is still below its count. *)
Lemma inv_leaf_below d v rest L D :
  inv ((d, LeafNode v) :: rest) L None D ->
  let ins := multiset_insert (d, LeafNode v) (data L) in
  TruncatedMultiSet.emplace (d, LeafNode v) L = mk ins K
  /\ ((length ins < K)%nat -> inv rest (mk ins K) None D)
  /\ ((K <= length ins)%nat ->
      exists x, TruncatedMultiSet.crbegin_first (mk ins K) = Some x
                /\ inv rest (mk ins K) (Some x) D).
Proof.
  intros [Hc Hl Hs Hk Hv Ht Hd] ins.
  destruct L as [dat cnt]. simpl in *. subst cnt. destruct Ht as [Hlen ->].
  apply Forall_cons in Hc as [[_ Hdist] Hc]. simpl in Hdist.
  assert (length ins = Datatypes.S (length dat)) as Hins by apply multiset_insert_length.
  assert (forall t,
             match t with
             | None => (length ins < K)%nat /\ @nil Value = []
             | Some x => length ins = K /\ fst <$> last ins = Some x
             end -> inv rest (mk ins K) t []) as Hinv.
  { intros t Ht. split; simpl; try done.
    - by apply leafs_insert.
    - by apply multiset_insert_sorted.
    - rewrite <- Hv. unfold ins. rewrite candidate_values_insert.
      unfold candidate_values. simpl. apply Permutation_middle.
    - by intros w e ?%elem_of_nil. }
  split.
  { unfold TruncatedMultiSet.emplace, TruncatedMultiSet.truncate_. simpl.
    fold ins. replace (K <? length ins)%nat with false; [done|].
    symmetry. apply Nat.ltb_ge. lia. }
  split.
  - intros Hlt. by apply Hinv.
  - intros Hge. unfold TruncatedMultiSet.crbegin_first. simpl.
    destruct (last ins) as [y|] eqn:Hlast.
    + exists (fst y). split; [done|]. apply Hinv. split; [lia|done].
    + apply last_None in Hlast. rewrite Hlast in Hins. done.
Qed.

(** A leaf put into a full set: the last element of the set is erased
    and given up. *)
Lemma inv_leaf_full d v rest L x D :
  (1 <= K)%nat ->
  inv ((d, LeafNode v) :: rest) L (Some x) D -> d <= x ->
  let kept := take K (multiset_insert (d, LeafNode v) (data L)) in
  TruncatedMultiSet.emplace (d, LeafNode v) L = mk kept K
  /\ length kept = K
  /\ exists y w, TruncatedMultiSet.crbegin_first (mk kept K) = Some y
                 /\ inv rest (mk kept K) (Some y) (D ++ [w]).
Proof.
  intros HK [Hc Hl Hs Hk Hv Ht Hd] Hdx kept.
  destruct L as [dat cnt]. simpl in *. subst cnt. destruct Ht as [Hlen Hlast].
  apply Forall_cons in Hc as [[_ Hdist] Hc]. simpl in Hdist.
  set (ins := multiset_insert (d, LeafNode v) dat) in *.
  assert (length ins = Datatypes.S K) as Hins.
  { unfold ins. by rewrite multiset_insert_length, Hlen. }
  assert (StronglySorted key_le ins) as Hsorted by by apply multiset_insert_sorted.
  assert (Forall (fun e => exists v, snd e = LeafNode v /\ fst e = value_dist v) ins)
    as Hleafs by by apply leafs_insert.
  destruct (sorted_split_last K ins Hsorted Hins) as ([dw nw] & Hsplit & Hmax).
  fold kept in Hsplit, Hmax.
  assert (length kept = K) as Hkept.
  { unfold kept. rewrite length_take. lia. }
  rewrite Hsplit in Hleafs. apply Forall_app in Hleafs as [Hleafs_kept Hw].
  apply Forall_singleton in Hw as (w & Hnw & Hdw). simpl in Hnw, Hdw. subst nw.
  split.
  { unfold TruncatedMultiSet.emplace, TruncatedMultiSet.truncate_. simpl.
    fold ins. replace (K <? length ins)%nat with true; [done|].
    symmetry. apply Nat.ltb_lt. lia. }
  split; [done|].
  unfold TruncatedMultiSet.crbegin_first. simpl.
  destruct (last kept) as [y|] eqn:Hy.
  2:{ apply last_None in Hy. rewrite Hy in Hkept. simpl in Hkept. lia. }
  exists (fst y), w. split; [done|]. split; simpl; try done.
  - by apply sorted_take.
  - rewrite <- Hv.
    assert (candidate_values ins ≡ₚ v :: candidate_values dat) as Hcv
      by apply candidate_values_insert.
    rewrite Hsplit in Hcv. unfold candidate_values in *.
    rewrite bind_app, bind_singleton in Hcv. simpl in Hcv.
    set (A := kept ≫= _) in *. set (R := rest ≫= _). set (Dat := dat ≫= _) in *.
    trans ((w :: A) ++ R ++ D).
    { simpl. rewrite Permutation_middle. apply Permutation_app_head.
      rewrite app_assoc. symmetry. apply Permutation_cons_append. }
    trans ((v :: Dat) ++ R ++ D).
    { apply Permutation_app_tail. rewrite <- Hcv. apply Permutation_cons_append. }
    simpl. apply Permutation_middle.
  - by rewrite Hy.
  - intros u e [Hu| ->%list_elem_of_singleton]%elem_of_app He.
    + assert (e ∈ ins) as Hin by (rewrite Hsplit; apply elem_of_app; by left).
      unfold ins in Hin. rewrite multiset_insert_perm in Hin.
      apply elem_of_cons in Hin as [->|Hin]; [|by apply Hd].
      simpl. apply fmap_Some in Hlast as (z & Hz & ->).
      assert (z ∈ dat) as Hzin.
      { apply last_Some in Hz as [l' ->]. apply elem_of_app. right. apply list_elem_of_here. }
      specialize (Hd u z Hu Hzin). lia.
    + specialize (Hmax e He). unfold key_le in Hmax. simpl in Hmax. lia.
Qed.

End DistanceLeafFacts.

Section DistanceQueryResult.
Context {ndim : nat} {Value : Type}.
Context (BoundGetter : Value -> Box ndim).
Context (q : Box ndim) (K : nat) (stored : list Value).

Local Abbreviation Node := (Node ndim Value).
Local Abbreviation value_dist := (value_dist BoundGetter q).
Local Abbreviation pred := (Predicate.Nearest q K).
Local Abbreviation inv := (distance_inv BoundGetter q K stored).
Local Abbreviation data := (TruncatedMultiSet._data_set (A := Node)).

(** The loop of the distance query returns, whatever is left to visit,
    and ends in a state that keeps the invariant, when no stored value
    is further than [numeric_limits::max()]. *)
Lemma distance_loop_returns (fuel : nat) :
  (1 <= K)%nat ->
  Forall (fun v => value_dist v <= Bound.numeric_max) stored ->
  forall C L t D,
    inv C L t D -> (candidates_count C <= fuel)%nat ->
    exists L' t' D',
      distance_loop BoundGetter fuel pred C L (threshold_of t) = Some L' /\ inv [] L' t' D'.
Proof.
  intros HK Hrange. induction fuel as [|fuel IH]; intros C L t D Hinv Hfuel.
  - destruct C as [|[d n] rest]; [by exists L, t, D|].
    unfold candidates_count in Hfuel. rewrite fmap_cons in Hfuel.
    cbn [sum_list sum_list_with snd] in Hfuel.
    pose proof (node_count_pos n). unfold id in *. lia.
  - destruct C as [|[d n] rest]; [by exists L, t, D|].
    assert (candidates_count rest <= fuel)%nat as Hrest.
    { unfold candidates_count in *. rewrite fmap_cons in Hfuel.
      cbn [sum_list sum_list_with snd] in Hfuel.
      pose proof (node_count_pos n). unfold id in *. lia. }
    cbn [distance_loop].
    destruct (Z.leb_spec d (threshold_of t)) as [Hat|Hat].
    + destruct n as [v|p].
      * (* a leaf within the threshold *)
        destruct t as [x|].
        -- destruct (inv_leaf_full BoundGetter q K stored d v rest L x D HK Hinv Hat)
             as (Hemplace & Hlen & y & w & Hlast & Hinv').
           rewrite Hemplace. unfold TruncatedMultiSet.size, Predicate.count. simpl.
           rewrite Hlen, Nat.leb_refl.
           rewrite Hlast. simpl. by apply (IH rest _ (Some y) (D ++ [w])).
        -- destruct (inv_leaf_below BoundGetter q K stored d v rest L D Hinv)
             as (Hemplace & Hbelow & Hfull).
           rewrite Hemplace. unfold TruncatedMultiSet.size, Predicate.count. simpl.
           destruct (Nat.leb_spec K (length (multiset_insert (d, LeafNode v) (data L))))
             as [Hge|Hlt].
           ++ destruct (Hfull Hge) as (x & Hlast & Hinv').
              rewrite Hlast. simpl. by apply (IH rest _ (Some x) D).
           ++ apply (IH rest _ None D); [by apply Hbelow|done].
      * (* a page within the threshold *)
        destruct (inv_page BoundGetter q K stored d p rest L t D Hinv) as [Hinv' Hcount].
        eapply IH; [exact Hinv'|lia].
    + (* beyond the threshold *)
      destruct t as [x|].
      * apply (IH rest L (Some x) (D ++ values n)); [|exact Hrest].
        exact (inv_prune BoundGetter q K stored d n rest L x D Hinv Hat).
      * apply (IH rest L None D); [|exact Hrest].
        exact (inv_prune_sentinel BoundGetter q K stored d n rest L D Hrange Hinv Hat).
Qed.

End DistanceQueryResult.

(** For every count [K >= 1] the distance query on a tree whose pages
    carry the bounds of their children, none of whose values has a
    squared distance to the query bound beyond [numeric_limits::max()],
    returns [min(K, |S|)] of the stored values [S], in nondecreasing
    order of their squared distance to the query bound, and none of the
    values left out is nearer than any value returned. *)
Theorem query_distance_nearest {ndim : nat} {Value : Type}
    (BoundGetter : Value -> Box ndim) (t : RTree ndim Value) (q : Box ndim) (K : nat) :
  tree_bounds_ok BoundGetter t -> (1 <= K)%nat ->
  Forall (fun v => value_dist BoundGetter q v <= Bound.numeric_max) (tree_values t) ->
  exists out left_out,
    query_distance BoundGetter t (Predicate.Nearest q K) = Some out
    /\ out ++ left_out ≡ₚ tree_values t
    /\ length out = Nat.min K (length (tree_values t))
    /\ StronglySorted Z.le (value_dist BoundGetter q <$> out)
    /\ forall v w, v ∈ left_out -> w ∈ out ->
         value_dist BoundGetter q w <= value_dist BoundGetter q v.
Proof.
  intros Hok HK Hrange. unfold query_distance, tree_values, tree_bounds_ok in *.
  destruct (root_node_ptr_ t) as [root|].
  2:{ exists [], []. simpl. split; [done|]. split; [done|]. split; [lia|].
      split; [constructor|]. by intros v w ?%elem_of_nil. }
  destruct (distance_loop_returns BoundGetter q K (values root) (node_count root) HK Hrange
              [(node_dist BoundGetter q root, root)] (TruncatedMultiSet.make K) None [])
    as (L & t' & D & Hloop & [_ Hl Hs Hk Hv Ht Hd]).
  { split; simpl.
    - by repeat constructor.
    - constructor.
    - constructor.
    - done.
    - unfold candidate_values. simpl. by rewrite !app_nil_r.
    - split; [lia|done].
    - by intros v e ?%elem_of_nil. }
  { unfold candidates_count. simpl. unfold id. lia. }
  cbv zeta. rewrite distance_apply_Nearest.
  change (Predicate.count (Predicate.Nearest q K)) with K.
  change (threshold_of None) with Bound.numeric_max in Hloop. rewrite Hloop. simpl.
  set (dat := TruncatedMultiSet._data_set L) in *.
  assert (exists out, mapM (fun value_pair : Z * Node ndim Value => getValue (snd value_pair)) dat
                      = Some out
                      /\ candidate_values dat = out
                      /\ fst <$> dat = value_dist BoundGetter q <$> out)
    as (out & Hout & Hvalues & Hkeys).
  { clear -Hl. induction dat as [|[d n] dat IH].
    - by exists [].
    - apply Forall_cons in Hl as [(v & Hn & Hd) Hl]. simpl in Hn, Hd. subst n.
      destruct (IH Hl) as (out & Hout & Hvalues & Hkeys).
      exists (v :: out). split; [|split].
      + change (mapM ?f (?x :: ?l)) with (y ← f x; k ← mapM f l; mret (y :: k)).
        simpl. rewrite Hout. done.
      + unfold candidate_values in *. rewrite bind_cons. simpl. by rewrite Hvalues.
      + rewrite !fmap_cons. simpl. by rewrite Hkeys, Hd. }
  exists out, D. rewrite Hout. split; [done|].
  unfold candidate_values at 2 in Hv. simpl in Hv. rewrite Hvalues in Hv.
  split; [done|]. split; [|split].
  - apply Permutation_length in Hv. rewrite length_app in Hv.
    assert (length dat = length out) as Hlen.
    { apply (f_equal length) in Hkeys. by rewrite !length_fmap in Hkeys. }
    destruct t' as [x|].
    + destruct Ht as [Hfull _]. lia.
    + destruct Ht as [Hbelow ->]. simpl in Hv. lia.
  - rewrite <- Hkeys. clear -Hs. induction Hs as [|e l Hs IH He]; simpl; constructor.
    + done.
    + apply Forall_fmap. eapply Forall_impl; [exact He|]. by intros e'.
  - intros v w Hv' Hw.
    assert (exists e, e ∈ dat /\ fst e = value_dist BoundGetter q w) as (e & He & <-).
    { rewrite <- Hvalues in Hw. unfold candidate_values in Hw.
      apply list_elem_of_bind in Hw as (e & Hw & He). exists e. split; [done|].
      rewrite Forall_forall in Hl. destruct (Hl e He) as (u & Hn & Hd'). rewrite Hn in Hw.
      simpl in Hw. apply list_elem_of_singleton in Hw as ->. done. }
    by apply Hd.
Qed.

(** The theorem at the tree holding the one point (1,5), asked for the
    two values nearest to (5,5). *)
Lemma query_distance_nearest_example :
  tree_bounds_ok Examples.pair_extractor Examples.single_value_tree
  /\ exists out left_out,
       query_distance Examples.pair_extractor Examples.single_value_tree
                      (Predicate.Nearest (Examples.point 5 5) 2) = Some out
       /\ out ++ left_out ≡ₚ tree_values Examples.single_value_tree
       /\ length out = 1%nat
       /\ StronglySorted Z.le
            (value_dist Examples.pair_extractor (Examples.point 5 5) <$> out)
       /\ forall v w, v ∈ left_out -> w ∈ out ->
            value_dist Examples.pair_extractor (Examples.point 5 5) w
            <= value_dist Examples.pair_extractor (Examples.point 5 5) v.
Proof.
  assert (tree_bounds_ok Examples.pair_extractor Examples.single_value_tree) as Hok.
  { apply bounds_ok_page; [reflexivity|]. apply Forall_singleton. constructor. }
  split; [exact Hok|].
  apply (query_distance_nearest Examples.pair_extractor Examples.single_value_tree
           (Examples.point 5 5) 2 Hok).
  - lia.
  - apply Forall_singleton. vm_compute. discriminate.
Defined.

(** The three values of the example cloud nearest to (5,5), as the
    query on the tree built by insertion returns them. *)
Example query_distance_cloud :
  (t ← Examples.build Examples.cloud;
   query_distance Examples.pair_extractor t (Predicate.Nearest (Examples.point 5 5) 3))
  = Some [(Examples.point 4 6, 5%nat); (Examples.point 6 6, 8%nat);
          (Examples.point 7 3, 2%nat)].
Proof. vm_compute. reflexivity. Qed.

(** A value whose squared distance to the query bound is beyond
    [numeric_limits::max()] is not found: the root of the tree that
    holds it already fails the test against the threshold. *)
Example query_distance_beyond_max :
  query_distance Examples.pair_extractor
    (mkRTree (Some (PageNode (mkPage [LeafNode (Examples.point (2 ^ 665) 0, 0%nat)]
                                     (Examples.point (2 ^ 665) 0)))))
    (Predicate.Nearest (Examples.point 0 0) 1)
  = Some [].
Proof. vm_compute. reflexivity. Qed.

(** ** Insertion returns *)

Section InsertReturns.
Context {ndim : nat} {Value : Type}.
Context (BoundGetter : Value -> Box ndim).
Context {S : SplittingType ndim Value} {Contract : SplittingContract S}.

Local Abbreviation Node := (Node ndim Value).
Local Abbreviation Page := (Page ndim Node).
Local Abbreviation parents := (parents ndim Value).

Lemma sizes_ok_page_inv (p : Page) :
  sizes_ok (PageNode p) ->
  (1 <= Page_size p <= max_children)%nat /\ Forall sizes_ok (nodes_ p).
Proof. by inversion 1. Qed.

(** On a page with a child the scan of [find_best_fit_in_node] ends on
    one of the children. *)
Lemma find_best_fit_in_node_returns (bb : Box ndim) (p : Page) :
  (1 <= Page_size p)%nat ->
  exists pos child,
    find_best_fit_in_node BoundGetter bb p = Some pos /\ nodes_ p !! pos = Some child.
Proof.
  intros Hsize. unfold find_best_fit_in_node.
  destruct p as [l b]. unfold Page_size in Hsize. simpl in *.
  destruct l as [|front l']; [simpl in Hsize; lia|].
  destruct (isLeaf front); [by exists 0%nat, front|].
  pose proof (best_fit_scan BoundGetter bb b (front :: l')) as Hinv.
  unfold best_fit_inv in Hinv.
  destruct (fold_left _ _ _) as [[[pos c]|] [m|]]; simpl in Hinv; try done.
  destruct Hinv as (Hpos & _). by exists pos, c.
Qed.

Lemma find_best_fit_from_returns (bb : Box ndim) (current : Node) :
  forall (chain : parents) (p : Page),
    current = PageNode p ->
    sizes_ok current -> chain_sizes_ok chain ->
    exists best chain',
      find_best_fit_from BoundGetter bb current chain = Some (best, chain')
      /\ sizes_ok (PageNode best) /\ chain_sizes_ok chain'.
Proof.
  induction current as [v|q IH] using Node_nested_ind; intros chain p Heq Hok Hchain; [done|].
  simplify_eq. rewrite find_best_fit_from_page.
  destruct (sizes_ok_page_inv _ Hok) as [Hsize Hall].
  destruct (find_best_fit_in_node_returns bb p) as (pos & child & -> & Hchild); [lia|].
  simpl. rewrite Hchild. simpl. destruct child as [v|c].
  - by exists p, chain.
  - eapply (Forall_lookup_1 _ _ _ _ IH Hchild); [done| |].
    + eapply Forall_lookup_1; eauto.
    + apply Forall_cons. split; [|done]. simpl. split; [done|].
      by eapply lookup_lt_Some.
Qed.

Lemma find_best_fit_in_tree_returns (starting_node : option Node) (bb : Box ndim) :
  from_option (fun root => isPage root = true /\ sizes_ok root) True starting_node ->
  exists best chain,
    find_best_fit_in_tree BoundGetter starting_node bb = Some (best, chain)
    /\ (Page_size best <= max_children)%nat /\ Forall sizes_ok (nodes_ best)
    /\ chain_sizes_ok chain.
Proof.
  destruct starting_node as [root|]; simpl.
  - intros [Hpage Hok]. destruct root as [v|p]; [done|].
    destruct (find_best_fit_from_returns bb (PageNode p) [] p eq_refl Hok)
      as (best & chain & Hfind & [Hsize Hall]%sizes_ok_page_inv & Hchain); [constructor|].
    exists best, chain. split; [done|]. split; [lia|done].
  - intros _. exists (Node_new BoundGetter), []. split; [done|].
    split; [unfold Page_size; simpl; lia|]. split; constructor.
Qed.

(** The two halves of an overfull page of well-sized children. *)
Lemma split_node_returns (current : Page) :
  Page_size current = Datatypes.S max_children ->
  Forall sizes_ok (nodes_ current) ->
  exists a b parent',
    split_node BoundGetter current = Some (a, b, parent')
    /\ sizes_ok (PageNode a) /\ sizes_ok (PageNode b).
Proof.
  intros Hsize Hall. destruct (static_assert_bounds (S := S)) as [Hmin Hmax].
  destruct (split_node_spec BoundGetter current Hsize)
    as (a & b & p' & Hsplit & Ha & Hb & Hperm & _).
  rewrite <- Hperm in Hall. apply Forall_app in Hall as [Hall_a Hall_b].
  exists a, b, p'. split; [done|]. split; constructor; try done; lia.
Qed.

Lemma expand_step_returns (sb : Box ndim) (current parent : Page) (pos : nat) :
  (1 <= Page_size current <= Datatypes.S max_children)%nat ->
  Forall sizes_ok (nodes_ current) ->
  sizes_ok (PageNode parent) -> (pos < Page_size parent)%nat ->
  exists parent',
    expand_step BoundGetter sb current (parent, pos) = Some parent'
    /\ (1 <= Page_size parent' <= Datatypes.S max_children)%nat
    /\ Forall sizes_ok (nodes_ parent').
Proof.
  intros Hsize Hall [Hpar Hchildren]%sizes_ok_page_inv Hpos. unfold expand_step.
  destruct (Nat.ltb_spec max_children (Page_size current)) as [Hover|Hfits].
  - destruct (split_node_returns current) as (a & b & p' & -> & Ha & Hb); [lia|done|].
    simpl. eexists. split; [done|]. unfold Page_size in *. simpl.
    rewrite !length_app, length_delete by by apply lookup_lt_is_Some_2.
    simpl. split; [lia|].
    rewrite !Forall_app, !Forall_singleton. split; [split|]; [|done..].
    rewrite delete_take_drop. apply Forall_app. split.
    + by apply Forall_take.
    + by apply Forall_drop.
  - simpl. eexists. split; [done|]. unfold Page_size in *. simpl.
    rewrite length_insert. split; [lia|].
    apply Forall_insert; [done|]. constructor; [unfold Page_size; lia|done].
Qed.

Lemma expand_loop_returns (sb : Box ndim) (chain : parents) :
  forall current : Page,
    (1 <= Page_size current <= Datatypes.S max_children)%nat ->
    Forall sizes_ok (nodes_ current) ->
    chain_sizes_ok chain ->
    exists top,
      expand_loop BoundGetter sb current chain = Some top
      /\ (1 <= Page_size top <= Datatypes.S max_children)%nat
      /\ Forall sizes_ok (nodes_ top).
Proof.
  induction chain as [|[parent pos] chain IH]; intros current Hsize Hall Hchain;
    cbn [expand_loop].
  - by exists current.
  - apply Forall_cons in Hchain as [[Hpar Hpos] Hchain]. simpl in Hpar, Hpos.
    destruct (expand_step_returns sb current parent pos Hsize Hall Hpar Hpos)
      as (parent' & -> & Hsize' & Hall').
    simpl. by apply IH.
Qed.

(** [Algorithm::insert] returns on every well-sized tree, and the tree
    it returns is well-sized. *)
Lemma insert_returns (starting_node : option Node) (value : Value) :
  from_option (fun root => isPage root = true /\ sizes_ok root) True starting_node ->
  exists root,
    insert BoundGetter starting_node (LeafNode value) = Some root
    /\ isPage root = true /\ sizes_ok root.
Proof.
  intros Hstart. destruct (static_assert_bounds (S := S)) as [Hmin Hmax]. unfold insert.
  destruct (find_best_fit_in_tree_returns starting_node
              (getBound BoundGetter (LeafNode value)) Hstart)
    as (best & chain & -> & Hsize & Hall & Hchain).
  simpl. unfold expand_tree.
  destruct (expand_loop_returns
              (bound_ (Page_insert BoundGetter best (LeafNode value))) chain
              (Page_insert BoundGetter best (LeafNode value)))
    as (top & -> & Hsize' & Hall'); [| |done|].
  { unfold Page_size in *. simpl. rewrite length_app. simpl. lia. }
  { simpl. apply Forall_app. split; [done|]. apply Forall_singleton. constructor. }
  simpl. destruct (Nat.ltb_spec max_children (Page_size top)) as [Hover|Hfits].
  - destruct (split_node_returns top) as (a & b & p' & -> & Ha & Hb); [lia|done|].
    simpl. eexists. split; [done|]. split; [done|].
    constructor; [unfold Page_size; simpl; lia|].
    simpl. by rewrite Forall_cons, Forall_singleton.
  - simpl. eexists. split; [done|]. split; [done|]. constructor; [lia|done].
Qed.

End InsertReturns.

(** Inserting a value into a well-sized tree returns a well-sized tree. *)
Theorem RTree_insert_returns {ndim : nat} {Value : Type}
    (BoundGetter : Value -> Box ndim) (Parameters : SplittingType ndim Value)
    (Contract : SplittingContract Parameters) (t : RTree ndim Value) (value : Value) :
  tree_sizes_ok t ->
  exists t', RTree_insert BoundGetter t value = Some t' /\ tree_sizes_ok t'.
Proof.
  intros Hok. unfold RTree_insert.
  destruct (insert_returns BoundGetter (root_node_ptr_ t) value) as (root & -> & Hroot).
  { unfold tree_sizes_ok in Hok. by destruct (root_node_ptr_ t). }
  simpl. by eexists.
Qed.

(** Every sequence of insertions into the default tree returns, and the
    pages of the tree it builds carry the bounds of their children. *)
Theorem RTree_insert_range_returns {ndim : nat} {Value : Type}
    (BoundGetter : Value -> Box ndim) (Parameters : SplittingType ndim Value)
    (Contract : SplittingContract Parameters) (values : list Value) :
  forall t : RTree ndim Value,
    tree_sizes_ok t -> tree_bounds_ok BoundGetter t ->
    exists t',
      RTree_insert_range BoundGetter t values = Some t'
      /\ tree_sizes_ok t' /\ tree_bounds_ok BoundGetter t'.
Proof.
  unfold RTree_insert_range.
  induction values as [|value values IH]; intros t Hsizes Hbounds; simpl.
  - by exists t.
  - destruct (RTree_insert_returns BoundGetter Parameters Contract t value Hsizes)
      as (t1 & Hins & Hsizes1).
    rewrite Hins. apply IH; [done|].
    unfold RTree_insert in Hins.
    destruct (insert BoundGetter (root_node_ptr_ t) (LeafNode value)) as [root|] eqn:Hroot;
      simplify_eq/=.
    unfold tree_bounds_ok. simpl.
    apply (insert_bounds_ok BoundGetter (root_node_ptr_ t) (LeafNode value) root);
      [|constructor|exact Hroot].
    unfold tree_bounds_ok in Hbounds. by destruct (root_node_ptr_ t).
Qed.

Lemma RTree_insert_range_returns_example :
  exists t',
    Examples.build Examples.cloud = Some t'
    /\ tree_sizes_ok (Parameters := Examples.Quadratic_4_2) t'
    /\ tree_bounds_ok Examples.pair_extractor t'.
Proof.
  apply (RTree_insert_range_returns Examples.pair_extractor Examples.Quadratic_4_2
           (Quadratic_contract Examples.pair_extractor 4 2 (conj (le_n 2) (le_n 2)))
           Examples.cloud RTree_default); done.
Defined.

(** ** The emptiness test *)



(** * Further properties *)

(** ** Boxes: the order of containment *)

Section BoxOrder.
Context {ndim : nat}.
Implicit Types a b c : Box ndim.

Lemma Contains_spec a b :
  Bound.Contains a b = true
  <-> forall i, min_ a !!! i <= min_ b !!! i /\ max_ b !!! i <= max_ a !!! i.
Proof.
  unfold Bound.Contains. rewrite andb_true_iff, !std_equal_spec. split.
  - intros [Hmin Hmax] i. specialize (Hmin i). specialize (Hmax i). lia.
  - intros Hall. split; intros i; specialize (Hall i); lia.
Qed.

Lemma Intersects_spec a b :
  Bound.Intersects a b = true
  <-> forall i, min_ a !!! i <= max_ b !!! i /\ min_ b !!! i <= max_ a !!! i.
Proof.
  unfold Bound.Intersects. rewrite andb_true_iff, !std_equal_spec. split.
  - intros [Hmin Hmax] i. specialize (Hmin i). specialize (Hmax i). lia.
  - intros Hall. split; intros i; specialize (Hall i); lia.
Qed.

Lemma Overlaps_spec a b :
  Bound.Overlaps a b = true
  <-> forall i, min_ a !!! i < max_ b !!! i /\ min_ b !!! i < max_ a !!! i.
Proof.
  unfold Bound.Overlaps. rewrite andb_true_iff, !std_equal_spec. split.
  - intros [Hmin Hmax] i. specialize (Hmin i). specialize (Hmax i). lia.
  - intros Hall. split; intros i; specialize (Hall i); lia.
Qed.

Lemma ContainsNonInclusive_spec a b :
  Bound.ContainsNonInclusive a b = true
  <-> forall i, min_ a !!! i <= min_ b !!! i /\ max_ b !!! i < max_ a !!! i.
Proof.
  unfold Bound.ContainsNonInclusive. rewrite andb_true_iff, !std_equal_spec. split.
  - intros [Hmin Hmax] i. specialize (Hmin i). specialize (Hmax i). lia.
  - intros Hall. split; intros i; specialize (Hall i); lia.
Qed.

Lemma Covers_spec a b :
  Bound.Covers a b = true
  <-> forall i, min_ a !!! i < min_ b !!! i /\ max_ b !!! i < max_ a !!! i.
Proof.
  unfold Bound.Covers. rewrite andb_true_iff, !std_equal_spec. split.
  - intros [Hmin Hmax] i. specialize (Hmin i). specialize (Hmax i). lia.
  - intros Hall. split; intros i; specialize (Hall i); lia.
Qed.

Lemma Equals_spec a b : Bound.Equals a b = true <-> a = b.
Proof.
  unfold Bound.Equals. rewrite andb_true_iff, !std_equal_spec. split.
  - intros [Hmin Hmax]. apply Box_eq; apply vec_eq; intros i.
    + specialize (Hmin i). lia.
    + specialize (Hmax i). lia.
  - intros ->. split; intros i; lia.
Qed.

(** [Union(a, b)] holds both boxes, and every box that holds both holds
    the union. *)
Theorem Union_least_upper_bound a b c :
  Bound.Contains (Bound.Union a b) a = true
  /\ Bound.Contains (Bound.Union a b) b = true
  /\ (Bound.Contains c a = true -> Bound.Contains c b = true ->
      Bound.Contains c (Bound.Union a b) = true).
Proof.
  rewrite !Contains_spec. unfold Bound.Union. simpl.
  split; [|split].
  - intros i. rewrite !vlookup_zip_with. lia.
  - intros i. rewrite !vlookup_zip_with. lia.
  - intros Ha Hb i. specialize (Ha i). specialize (Hb i).
    rewrite !vlookup_zip_with. lia.
Qed.

(** [Contains] is reflexive and transitive, and two boxes that contain
    each other are the same box: the one [Equals] and [operator==]
    accept. *)
Theorem Contains_partial_order a b c :
  Bound.Contains a a = true
  /\ (Bound.Contains a b = true -> Bound.Contains b c = true -> Bound.Contains a c = true)
  /\ (Bound.Contains a b = true -> Bound.Contains b a = true ->
      a = b /\ Bound.Equals a b = true /\ Bound.eqb a b = true).
Proof.
  rewrite !Contains_spec. split; [|split].
  - intros i. lia.
  - intros Hab Hbc i. specialize (Hab i). specialize (Hbc i). lia.
  - intros Hab Hba.
    assert (a = b) as ->.
    { apply Box_eq; apply vec_eq; intros i; specialize (Hab i); specialize (Hba i); lia. }
    split; [done|]. split; [by apply Equals_spec|].
    unfold Bound.eqb. by apply bool_decide_eq_true.
Qed.

(** The free function [Equals] and [operator==] give the same answer. *)
Theorem Equals_is_operator_eq a b : Bound.Equals a b = Bound.eqb a b.
Proof.
  unfold Bound.eqb. destruct (Bound.Equals a b) eqn:E.
  - symmetry. apply bool_decide_eq_true. by apply Equals_spec.
  - symmetry. apply bool_decide_eq_false. intros Heq.
    apply Equals_spec in Heq. congruence.
Qed.

(** [Disjoint] is the negation of [Intersects], as the comment in its
    body has it. *)
Theorem Disjoint_is_not_Intersects a b :
  Bound.Disjoint a b = negb (Bound.Intersects a b).
Proof.
  destruct (Bound.Intersects a b) eqn:E; simpl.
  - rewrite Intersects_spec in E. unfold Bound.Disjoint.
    apply not_true_is_false. intros Hex. apply existsb_exists in Hex as (i & _ & Hi).
    specialize (E i). lia.
  - unfold Bound.Disjoint. destruct (existsb _ _) eqn:Hex; [done|].
    exfalso. apply not_true_iff_false in E. apply E, Intersects_spec. intros i.
    assert (In i (Bound.dims (ndim := ndim))) as Hin by apply list_elem_of_In, elem_of_enum.
    destruct ((max_ a !!! i <? min_ b !!! i) || (max_ b !!! i <? min_ a !!! i)) eqn:Hi.
    + exfalso. apply not_true_iff_false in Hex. apply Hex, existsb_exists. eauto.
    + lia.
Qed.

(** The stricter tests imply the weaker ones; containment implies
    intersection when the contained box is not inverted. *)
Theorem box_tests_weaken a b :
  (Bound.Covers a b = true -> Bound.ContainsNonInclusive a b = true)
  /\ (Bound.ContainsNonInclusive a b = true -> Bound.Contains a b = true)
  /\ (Bound.Overlaps a b = true -> Bound.Intersects a b = true)
  /\ (Bound.Contains a b = true -> (forall i, min_ b !!! i <= max_ b !!! i) ->
      Bound.Intersects a b = true).
Proof.
  rewrite Covers_spec, ContainsNonInclusive_spec, Contains_spec, Overlaps_spec,
    Intersects_spec.
  split; [|split; [|split]].
  - intros Hall i. specialize (Hall i). lia.
  - intros Hall i. specialize (Hall i). lia.
  - intros Hall i. specialize (Hall i). lia.
  - intros Hall Hvalid i. specialize (Hall i). specialize (Hvalid i). lia.
Qed.

(** [next_larger] moves every face that is not at its limit one step
    outwards.  A box whose faces all lie strictly between
    [numeric_limits::lowest()] and [max()] then contains, without
    touching its maximum, every box it contained, and covers the box it
    was.  A face that is at its limit stays where it is, and the box
    then does not cover the box it was. *)
Theorem next_larger_contains_non_inclusive a b :
  ((forall i, Bound.numeric_lowest < min_ a !!! i /\ max_ a !!! i < Bound.numeric_max) ->
   Bound.Contains a b = true ->
   Bound.ContainsNonInclusive (Bound.next_larger a) b = true
   /\ Bound.Covers (Bound.next_larger a) a = true)
  /\ (forall i, min_ a !!! i = Bound.numeric_lowest \/ max_ a !!! i = Bound.numeric_max ->
        Bound.Covers (Bound.next_larger a) a = false).
Proof.
  split.
  - rewrite Contains_spec, ContainsNonInclusive_spec, Covers_spec. intros Hrange Hall.
    split; intros i; specialize (Hall i); specialize (Hrange i); simpl;
      rewrite !vlookup_map; unfold Bound.nexttoward;
      destruct (Z.ltb_spec (min_ a !!! i) Bound.numeric_lowest);
      destruct (Z.ltb_spec Bound.numeric_lowest (min_ a !!! i));
      destruct (Z.ltb_spec (max_ a !!! i) Bound.numeric_max);
      destruct (Z.ltb_spec Bound.numeric_max (max_ a !!! i)); lia.
  - intros i Hface. apply not_true_is_false. rewrite Covers_spec. intros Hall.
    specialize (Hall i). simpl in Hall. rewrite !vlookup_map in Hall.
    unfold Bound.nexttoward in Hall.
    destruct (Z.ltb_spec (min_ a !!! i) Bound.numeric_lowest);
      destruct (Z.ltb_spec Bound.numeric_lowest (min_ a !!! i));
      destruct (Z.ltb_spec (max_ a !!! i) Bound.numeric_max);
      destruct (Z.ltb_spec Bound.numeric_max (max_ a !!! i)); lia.
Qed.

End BoxOrder.

Lemma next_larger_contains_non_inclusive_witness :
  Bound.ContainsNonInclusive
    (Bound.next_larger (mkBox [# 0; 0] [# 4; 4])) (mkBox [# 1; 1] [# 4; 4]) = true
  /\ Bound.Covers (Bound.next_larger (mkBox [# 0; 0] [# 4; 4])) (mkBox [# 0; 0] [# 4; 4])
     = true.
Proof.
  apply (proj1 (next_larger_contains_non_inclusive
                  (mkBox [# 0; 0] [# 4; 4]) (mkBox [# 1; 1] [# 4; 4]))).
  - intros i. inv_fin i; [|intros i; inv_fin i; [|intros i; inv_fin i]]; by vm_compute.
  - reflexivity.
Defined.

(** ** Boxes: distances, areas and the longest dimension *)

Section BoxMeasures.
Context {ndim : nat}.
Implicit Types a b : Box ndim.

(** The contribution of one dimension to [Nearest]. *)
Lemma Nearest_step_spec a b (dist_sq : Z) (i : fin ndim) :
  dist_sq <= Bound.Nearest_step a b dist_sq i
  /\ (Bound.Nearest_step a b dist_sq i = dist_sq
      <-> min_ a !!! i <= max_ b !!! i /\ min_ b !!! i <= max_ a !!! i)
  /\ Bound.Nearest_step a b dist_sq i = Bound.Nearest_step b a dist_sq i.
Proof.
  unfold Bound.Nearest_step. cbv zeta.
  set (x := min_ b !!! i - max_ a !!! i). set (y := min_ a !!! i - max_ b !!! i).
  assert (Z.max (Z.max 0 x) (Z.max 0 y) = 0
          <-> min_ a !!! i <= max_ b !!! i /\ min_ b !!! i <= max_ a !!! i) as Hzero
    by (unfold x, y; lia).
  assert (0 <= Z.max (Z.max 0 x) (Z.max 0 y)) as Hnonneg by lia.
  split; [nia|]. split.
  - rewrite <- Hzero. split; [nia|]. intros ->. lia.
  - f_equal. f_equal. lia.
Qed.

Lemma Nearest_fold_spec a b (l : list (fin ndim)) (start : Z) :
  start <= fold_left (Bound.Nearest_step a b) l start
  /\ (fold_left (Bound.Nearest_step a b) l start = start
      <-> forall i, i ∈ l -> min_ a !!! i <= max_ b !!! i /\ min_ b !!! i <= max_ a !!! i)
  /\ fold_left (Bound.Nearest_step a b) l start = fold_left (Bound.Nearest_step b a) l start.
Proof.
  revert start. induction l as [|i l IH]; intros start; simpl.
  - split; [lia|]. split; [|done]. split; [|done]. by intros _ i ?%elem_of_nil.
  - destruct (Nearest_step_spec a b start i) as (Hle & Hzero & Hsym).
    destruct (IH (Bound.Nearest_step a b start i)) as (Hle' & Hzero' & Hsym').
    split; [lia|]. split; [|by rewrite Hsym', Hsym].
    split.
    + intros Heq.
      assert (Bound.Nearest_step a b start i = start) as Hi by lia.
      intros j [->|Hj]%elem_of_cons; [by apply Hzero|].
      apply Hzero'; [lia|done].
    + intros Hall.
      assert (Bound.Nearest_step a b start i = start) as Hi.
      { apply Hzero, Hall, list_elem_of_here. }
      rewrite Hi in *. apply Hzero'. intros j Hj. by apply Hall, list_elem_of_further.
Qed.

(** [Nearest] is a symmetric measure that is never negative, is zero on
    every pair of boxes that [Intersects] accepts, and does not grow
    when its first box is replaced by a box that contains it: the
    measure to a page bound is a lower bound of the measure to what the
    page holds. *)
Theorem Nearest_zero_when_Intersects a b c :
  0 <= Bound.Nearest a b
  /\ Bound.Nearest a b = Bound.Nearest b a
  /\ (Bound.Intersects a b = true -> Bound.Nearest a b = 0)
  /\ (Bound.Contains c a = true -> Bound.Nearest c b <= Bound.Nearest a b).
Proof.
  split; [|split; [|split]].
  - unfold Bound.Nearest. by destruct (Nearest_fold_spec a b Bound.dims 0) as (Hle & _ & _).
  - unfold Bound.Nearest. by destruct (Nearest_fold_spec a b Bound.dims 0) as (_ & _ & Hsym).
  - unfold Bound.Nearest.
    destruct (Nearest_fold_spec a b Bound.dims 0) as (_ & Hzero & _).
    rewrite Hzero, Intersects_spec. intros Hall i _. apply Hall.
  - rewrite Contains_spec. intros Hall. apply Nearest_mono.
    apply Box_eq; apply vec_eq; intros i; simpl;
      rewrite vlookup_zip_with; specialize (Hall i); lia.
Qed.

Lemma Furthest_fold_zero a b (l : list (fin ndim)) :
  (forall i, i ∈ l ->
     xorb (max_ a !!! i <? max_ b !!! i) (min_ b !!! i <? min_ a !!! i) = false) ->
  fold_left (Bound.Furthest_step a b) l 0 = 0.
Proof.
  induction l as [|i l IH]; intros Hall; simpl; [done|].
  unfold Bound.Furthest_step at 2. rewrite (Hall i) by apply list_elem_of_here.
  apply IH. intros j Hj. by apply Hall, list_elem_of_further.
Qed.

(** [Furthest(a, b)] is zero whenever one of the two boxes lies within
    the other: when [a] contains [b], and when [b] covers [a]. *)
Theorem Furthest_zero_when_nested a b :
  Bound.Contains a b = true \/ Bound.Covers b a = true -> Bound.Furthest a b = 0.
Proof.
  intros Hnested. unfold Bound.Furthest. apply Furthest_fold_zero. intros i _.
  destruct Hnested as [Hab|Hba].
  - rewrite Contains_spec in Hab. specialize (Hab i).
    replace (max_ a !!! i <? max_ b !!! i) with false by lia.
    replace (min_ b !!! i <? min_ a !!! i) with false by lia. done.
  - rewrite Covers_spec in Hba. specialize (Hba i).
    replace (max_ a !!! i <? max_ b !!! i) with true by lia.
    replace (min_ b !!! i <? min_ a !!! i) with true by lia. done.
Qed.

(** A product of factors that are not negative grows with its factors. *)
Lemma fold_mul_mono (xs ys : list Z) (x y : Z) :
  Forall2 (fun x y => 0 <= x <= y) xs ys -> 0 <= x <= y ->
  0 <= fold_left Z.mul xs x <= fold_left Z.mul ys y.
Proof.
  intros Hall. revert x y. induction Hall as [|x' y' xs ys Hxy _ IH]; intros x y Hx; simpl.
  - done.
  - apply IH. nia.
Qed.

Lemma area_mono a b :
  (forall i, 0 <= Bound.length a i <= Bound.length b i) ->
  0 <= Bound.area a <= Bound.area b.
Proof.
  intros Hall. unfold Bound.area.
  assert (Forall2 (fun x y => 0 <= x <= y)
            (Bound.length a <$> Bound.dims) (Bound.length b <$> Bound.dims)) as Hlen.
  { apply Forall2_fmap, Forall_Forall2_diag, Forall_forall. intros i _. apply Hall. }
  destruct Hlen as [|x y xs ys Hxy Hrest]; [lia|].
  by apply fold_mul_mono.
Qed.

(** A product of factors between zero and [M]. *)
Lemma fold_mul_le_pow (M : Z) (xs : list Z) (x X : Z) :
  Forall (fun y => 0 <= y <= M) xs -> 0 <= x <= X ->
  0 <= fold_left Z.mul xs x <= X * M ^ Z.of_nat (List.length xs).
Proof.
  intros Hall. revert x X. induction Hall as [|y xs Hy _ IH]; intros x X Hx.
  - simpl. lia.
  - cbn [fold_left List.length]. rewrite Nat2Z.inj_succ, Z.pow_succ_r by lia.
    specialize (IH (x * y) (X * M)). nia.
Qed.

(** The area of a box whose lengths lie between zero and [M]. *)
Lemma area_le_pow (M : Z) a :
  (forall i, 0 <= Bound.length a i <= M) ->
  0 <= Bound.area a <= M ^ Z.of_nat ndim.
Proof.
  intros Hall. unfold Bound.area.
  assert (Forall (fun y => 0 <= y <= M) (Bound.length a <$> Bound.dims)) as Hlen.
  { apply Forall_fmap, Forall_forall. intros i _. apply Hall. }
  assert (List.length (Bound.length a <$> Bound.dims) = ndim) as Hdims.
  { rewrite length_fmap. apply fin_card. }
  destruct (Bound.length a <$> Bound.dims) as [|s rest].
  - simpl in Hdims. subst ndim. simpl. lia.
  - apply Forall_cons in Hlen as [Hs Hrest]. simpl in Hdims. subst ndim.
    rewrite Nat2Z.inj_succ, Z.pow_succ_r by lia.
    by apply fold_mul_le_pow.
Qed.

(** In a cube in which no area overflows, a box whose corners are in
    order never shrinks when it is stretched to hold another one: the
    increase lies between zero and [numeric_limits::max()], short of
    the latter, and it is zero when the box contains the other one. *)
Theorem IncreaseToHold_nonnegative (B : Z) a b :
  Bound.no_overflow (ndim := ndim) B ->
  Bound.within B a -> Bound.within B b ->
  (forall i, min_ a !!! i <= max_ a !!! i) ->
  0 <= Bound.IncreaseToHold a b < Bound.numeric_max
  /\ (Bound.Contains a b = true -> Bound.IncreaseToHold a b = 0).
Proof.
  intros [HB Hcube] Ha Hb Hvalid. unfold Bound.IncreaseToHold. split.
  - assert (0 <= Bound.area a <= Bound.area (Bound.Union a b)) as Hmono.
    { apply area_mono. intros i. specialize (Hvalid i).
      unfold Bound.length, Bound.Union. simpl. rewrite !vlookup_zip_with. lia. }
    assert (0 <= Bound.area (Bound.Union a b) <= (2 * B) ^ Z.of_nat ndim) as Hcap.
    { apply area_le_pow. intros i.
      specialize (Hvalid i). specialize (Ha i). specialize (Hb i).
      unfold Bound.length, Bound.Union. simpl. rewrite !vlookup_zip_with. lia. }
    assert (0 < Bound.numeric_max) as Hmax by reflexivity.
    lia.
  - rewrite Contains_spec. intros Hall.
    assert (Bound.Union a b = a) as ->; [|lia].
    unfold Bound.Union. apply Box_eq; apply vec_eq; intros i; simpl;
      rewrite vlookup_zip_with; specialize (Hall i); lia.
Qed.

(** Stretching the reset box by a box of representable coordinates gives
    that box. *)
Theorem reset_stretch_identity b :
  (forall i, min_ b !!! i <= Bound.numeric_max /\ Bound.numeric_lowest <= max_ b !!! i) ->
  Bound.stretch Bound.reset b = b.
Proof.
  intros Hrange. apply Box_eq; apply vec_eq; intros i; simpl;
    rewrite vlookup_zip_with, vlookup_replicate; specialize (Hrange i); lia.
Qed.

End BoxMeasures.

Lemma IncreaseToHold_nonnegative_witness :
  0 <= Bound.IncreaseToHold (mkBox [# 0; 0] [# 2; 2]) (mkBox [# 1; 1] [# 5; 3])
       < Bound.numeric_max
  /\ (Bound.Contains (mkBox [# 0; 0] [# 2; 2]) (mkBox [# 1; 1] [# 5; 3]) = true ->
      Bound.IncreaseToHold (mkBox [# 0; 0] [# 2; 2]) (mkBox [# 1; 1] [# 5; 3]) = 0).
Proof.
  apply (IncreaseToHold_nonnegative 5 (mkBox [# 0; 0] [# 2; 2]) (mkBox [# 1; 1] [# 5; 3])).
  - split; [lia|]. by vm_compute.
  - intros i. inv_fin i; [|intros i; inv_fin i; [|intros i; inv_fin i]]; by vm_compute.
  - intros i. inv_fin i; [|intros i; inv_fin i; [|intros i; inv_fin i]]; by vm_compute.
  - intros i. inv_fin i; [|intros i; inv_fin i; [|intros i; inv_fin i]]; by vm_compute.
Defined.

Lemma Furthest_zero_when_nested_witness :
  Bound.Furthest (mkBox [# 0; 0] [# 9; 9]) (mkBox [# 1; 1] [# 5; 3]) = 0.
Proof.
  apply (Furthest_zero_when_nested (mkBox [# 0; 0] [# 9; 9]) (mkBox [# 1; 1] [# 5; 3])).
  left. reflexivity.
Defined.

Lemma reset_stretch_identity_witness :
  Bound.stretch Bound.reset (mkBox [# 1; 1] [# 5; 3]) = mkBox [# 1; 1] [# 5; 3].
Proof.
  apply (reset_stretch_identity (mkBox [# 1; 1] [# 5; 3])).
  intros i. unfold Bound.numeric_lowest, Bound.numeric_max.
  assert (2 ^ 971 < 2 ^ 1024) by (apply Z.pow_lt_mono_r; lia).
  assert (0 < 2 ^ 971) by (apply Z.pow_pos_nonneg; lia).
  inv_fin i; [simpl; lia|]. intros i. inv_fin i; [simpl; lia|].
  intros i. inv_fin i.
Defined.

(** ** The longest dimension of a box *)

Lemma fin_enum_lookup (n : nat) (i : fin n) : enum (fin n) !! fin_to_nat i = Some i.
Proof.
  change (enum (fin n)) with (fin_enum n).
  induction i as [n|n i IH]; simpl; [done|].
  by rewrite list_lookup_fmap, IH.
Qed.

Lemma fin_enum_lookup_Some (n : nat) (i : fin n) (k : nat) :
  enum (fin n) !! k = Some i -> k = fin_to_nat i.
Proof.
  intros Hk. pose proof (NoDup_enum (fin n)) as Hnodup.
  eapply NoDup_lookup; [exact Hnodup|exact Hk|apply fin_enum_lookup].
Qed.

(** A scan that replaces its candidate only by a strictly greater one
    ends on the first greatest element. *)
Lemma first_greatest_scan {A} (f : A -> Z) (l pre : list A) (x : A) (k : nat) :
  pre !! k = Some x ->
  (forall j y, pre !! j = Some y -> f y <= f x /\ (f y = f x -> (k <= j)%nat)) ->
  let r := fst (fold_left (fun (acc : A * Z) i => if f i >? snd acc then (i, f i) else acc)
                          l (x, f x)) in
  exists k', (pre ++ l) !! k' = Some r
    /\ forall j y, (pre ++ l) !! j = Some y -> f y <= f r /\ (f y = f r -> (k' <= j)%nat).
Proof.
  revert pre x k. induction l as [|i l IH]; intros pre x k Hk Hmax; simpl.
  - exists k. rewrite app_nil_r. done.
  - replace (pre ++ i :: l) with ((pre ++ [i]) ++ l) by by rewrite <- app_assoc.
    destruct (Z.gtb_spec (f i) (f x)) as [Hgt|Hle].
    + apply (IH (pre ++ [i]) i (length pre)).
      * by rewrite lookup_app_r, Nat.sub_diag by lia.
      * intros j y Hj. apply lookup_app_Some in Hj as [Hj|[Hlen Hj]].
        -- destruct (Hmax j y Hj) as [Hle _]. split; [lia|]. intros Heq. lia.
        -- apply list_lookup_singleton_Some in Hj as [Hj ->]. split; [lia|]. intros _. lia.
    + apply (IH (pre ++ [i]) x k).
      * by apply lookup_app_l_Some.
      * intros j y Hj. apply lookup_app_Some in Hj as [Hj|[Hlen Hj]].
        -- by apply Hmax.
        -- apply list_lookup_singleton_Some in Hj as [Hj ->]. split; [lia|].
           intros _. apply lookup_lt_Some in Hk. lia.
Qed.

(** [longest_dimension] names a dimension of the greatest length, and of
    several such the one with the lowest index. *)
Theorem longest_dimension_first_greatest {n : nat} (a : Box (S n)) (i : fin (S n)) :
  Bound.length a i <= Bound.length a (Bound.longest_dimension a)
  /\ (Bound.length a i = Bound.length a (Bound.longest_dimension a) ->
      (fin_to_nat (Bound.longest_dimension a) <= fin_to_nat i)%nat).
Proof.
  unfold Bound.longest_dimension.
  destruct (first_greatest_scan (Bound.length a) (FS <$> enum (fin n)) [0%fin] 0%fin 0)
    as (k & Hk & Hmax).
  { done. }
  { intros [|j] y Hj; simplify_eq/=. split; [lia|]. intros _. lia. }
  change ([0%fin] ++ (FS <$> enum (fin n))) with (enum (fin (S n))) in Hk, Hmax.
  apply fin_enum_lookup_Some in Hk. subst k.
  exact (Hmax (fin_to_nat i) i (fin_enum_lookup (S n) i)).
Qed.

(** ** The truncated multiset *)

Section TruncatedMultiSetFacts.
Context {A : Type}.
Implicit Types x y : Z * A.
Implicit Types s : list (Z * A).

Local Abbreviation mk := (TruncatedMultiSet.mk (A := A)).

Lemma truncate_take s (K : nat) : TruncatedMultiSet.truncate_ (mk s K) = mk (take K s) K.
Proof.
  unfold TruncatedMultiSet.truncate_. simpl.
  destruct (Nat.ltb_spec K (length s)); [done|].
  by rewrite take_ge by lia.
Qed.

Lemma emplace_take x s (K : nat) :
  TruncatedMultiSet.emplace x (mk s K) = mk (take K (multiset_insert x s)) K.
Proof. unfold TruncatedMultiSet.emplace. simpl. apply truncate_take. Qed.

(** An element that is not below any other goes to the end. *)
Lemma multiset_insert_last x s :
  (forall y, y ∈ s -> fst y <= fst x) -> multiset_insert x s = s ++ [x].
Proof.
  induction s as [|y s IH]; intros Hall; simpl; [done|].
  destruct (Z.ltb_spec (fst x) (fst y)) as [Hlt|_].
  - specialize (Hall y (list_elem_of_here _ _)). lia.
  - f_equal. apply IH. intros z Hz. by apply Hall, list_elem_of_further.
Qed.

(** What is beyond the first [K] elements does not matter to the first
    [K] elements after an insertion. *)
Lemma take_multiset_insert (K : nat) x s :
  take K (multiset_insert x s) = take K (multiset_insert x (take K s)).
Proof.
  revert K. induction s as [|y s IH]; intros [|K]; simpl; try done.
  destruct (Z.ltb_spec (fst x) (fst y)) as [Hlt|Hge]; simpl.
  - f_equal. destruct K as [|K]; simpl; [done|]. by rewrite take_take, Nat.min_l by lia.
  - f_equal. apply IH.
Qed.

Lemma kept_smallest_emplace (K : nat) (seen s dropped : list (Z * A)) x :
  kept_smallest K seen s dropped ->
  exists dropped',
    kept_smallest K (seen ++ [x]) (take K (multiset_insert x s)) dropped'.
Proof.
  intros (Hsorted & Hlen & Hperm & Hord).
  set (ins := multiset_insert x s).
  assert (StronglySorted key_le ins) as Hins_sorted by by apply multiset_insert_sorted.
  assert (length ins = Datatypes.S (length s)) as Hins_len by apply multiset_insert_length.
  assert (ins ≡ₚ x :: s) as Hins_perm by apply multiset_insert_perm.
  destruct (decide (length s < K)%nat) as [Hroom|Hfull].
  - (* nothing has been dropped, and nothing is *)
    assert (dropped = []) as ->.
    { apply Permutation_length in Hperm. rewrite length_app in Hperm.
      destruct dropped; [done|]. simpl in Hperm. lia. }
    exists []. rewrite take_ge by lia. split; [done|]. split; [|split].
    + rewrite Hins_len, length_app. simpl. lia.
    + rewrite app_nil_r in *. rewrite Hins_perm, Hperm. apply Permutation_cons_append.
    + by intros d e ?%elem_of_nil.
  - (* the set is full: the last element of [ins] is dropped *)
    assert (length s = K) as HK by lia.
    destruct (sorted_split_last K ins Hins_sorted) as (z & Hsplit & Hmax); [lia|].
    exists (dropped ++ [z]). split; [by apply sorted_take|]. split; [|split].
    + rewrite length_take, length_app. simpl. lia.
    + trans ((take K ins ++ [z]) ++ dropped).
      { rewrite <- !app_assoc. apply Permutation_app_head, Permutation_app_comm. }
      rewrite <- Hsplit, Hins_perm. simpl. rewrite Hperm. apply Permutation_cons_append.
    + intros d e [Hd| ->%list_elem_of_singleton]%elem_of_app He; [|by apply Hmax].
      destruct (last s) as [s0|] eqn:Hlast.
      2:{ apply last_None in Hlast. subst s. simpl in HK. subst K.
          by apply elem_of_nil in He. }
      assert (s0 ∈ s) as Hs0.
      { apply last_Some in Hlast as [s' ->]. apply elem_of_app. right. apply list_elem_of_here. }
      destruct (Z.ltb_spec (fst x) (fst s0)) as [Hlt|Hge].
      * assert (e ∈ ins) as Hin by (rewrite Hsplit; apply elem_of_app; by left).
        rewrite Hins_perm in Hin. apply elem_of_cons in Hin as [->|Hin]; [|by apply Hord].
        specialize (Hord d s0 Hd Hs0). lia.
      * assert (ins = s ++ [x]) as Hend.
        { apply multiset_insert_last. intros y Hy.
          assert (key_le y s0) as Hle; [|unfold key_le in Hle; lia].
          by apply (sorted_last_max s). }
        rewrite Hend, take_app_length' in He by done. by apply Hord.
Qed.

Lemma emplace_fold_kept_smallest (K : nat) (ys seen data dropped : list (Z * A)) :
  kept_smallest K seen data dropped ->
  exists data' dropped',
    fold_left (fun acc x => TruncatedMultiSet.emplace x acc) ys (mk data K) = mk data' K
    /\ kept_smallest K (seen ++ ys) data' dropped'.
Proof.
  revert seen data dropped.
  induction ys as [|y ys IH]; intros seen data dropped Hinv; simpl.
  - exists data, dropped. by rewrite app_nil_r.
  - rewrite emplace_take.
    destruct (kept_smallest_emplace K seen data dropped y Hinv) as (dropped' & Hinv').
    destruct (IH _ _ _ Hinv') as (data'' & dropped'' & Heq & Hinv'').
    exists data'', dropped''. split; [done|]. by rewrite <- app_assoc in Hinv''.
Qed.

Lemma kept_smallest_nil (K : nat) : kept_smallest (A := A) K [] [] [].
Proof.
  split; [constructor|]. split; [simpl; lia|]. split; [done|].
  by intros d e ?%elem_of_nil.
Qed.

(** However many elements a set of count [K] is given, one at a time, it
    holds the [K] smallest of them in nondecreasing order: none of the
    elements it let go is below one it holds. *)
Theorem emplace_keeps_smallest (K : nat) (xs : list (Z * A)) :
  let result :=
    fold_left (fun acc x => TruncatedMultiSet.emplace x acc) xs (TruncatedMultiSet.make K) in
  TruncatedMultiSet._count result = K
  /\ TruncatedMultiSet.size result = Nat.min K (length xs)
  /\ StronglySorted key_le (TruncatedMultiSet._data_set result)
  /\ exists dropped,
       TruncatedMultiSet._data_set result ++ dropped ≡ₚ xs
       /\ forall d e, d ∈ dropped -> e ∈ TruncatedMultiSet._data_set result ->
            fst e <= fst d.
Proof.
  cbv zeta.
  destruct (emplace_fold_kept_smallest K xs [] [] [] (kept_smallest_nil K))
    as (data & dropped & Heq & Hsorted & Hlen & Hperm & Hord).
  unfold TruncatedMultiSet.make. rewrite Heq. unfold TruncatedMultiSet.size. simpl.
  split; [done|]. split; [done|]. split; [done|]. by exists dropped.
Qed.

(** [insert(first, last)], which truncates once, leaves the set as
    [emplace] of the elements one at a time does, which truncates every
    time. *)
Theorem insert_range_is_repeated_emplace (xs : list (Z * A))
    (set : TruncatedMultiSet.t A) :
  (TruncatedMultiSet.size set <= TruncatedMultiSet._count set)%nat ->
  TruncatedMultiSet.insert_range xs set
  = fold_left (fun acc x => TruncatedMultiSet.emplace x acc) xs set.
Proof.
  destruct set as [data K]. unfold TruncatedMultiSet.size, TruncatedMultiSet.insert_range.
  simpl. intros Hsize. rewrite truncate_take.
  rewrite <- (take_ge data K) at 2 by done.
  clear Hsize. revert data. induction xs as [|x xs IH]; intros data; simpl.
  - done.
  - rewrite IH, emplace_take. f_equal. f_equal. apply take_multiset_insert.
Qed.

End TruncatedMultiSetFacts.

Lemma insert_range_is_repeated_emplace_witness :
  TruncatedMultiSet.insert_range [(5, 1%nat); (2, 2%nat); (7, 3%nat); (2, 4%nat)]
    (TruncatedMultiSet.make 2)
  = TruncatedMultiSet.mk [(2, 2%nat); (2, 4%nat)] 2.
Proof.
  rewrite (insert_range_is_repeated_emplace
             [(5, 1%nat); (2, 2%nat); (7, 3%nat); (2, 4%nat)] (TruncatedMultiSet.make 2)).
  - reflexivity.
  - unfold TruncatedMultiSet.size. simpl. lia.
Defined.

(** ** The exhaustive index *)

Section ExhaustiveQueries.
Context {ndim : nat} {Value : Type}.
Context (BoundExtractor : Value -> Box ndim).

Local Abbreviation Exhaustive := (Exhaustive ndim Value).

(** The distance query of the exhaustive index, asked for the [K] values
    nearest to [q], emits [min(K, n)] of the [n] stored values in
    nondecreasing distance, none of the values left out being nearer than
    one that is emitted; the count it returns is [K], also when it has
    emitted fewer values. *)
Theorem Exhaustive_query_distance_nearest (e : Exhaustive) (q : Box ndim) (K : nat) :
  let dist v := Bound.Nearest (BoundExtractor v) q in
  let '(out, count) := Exhaustive_query_distance BoundExtractor e (Predicate.Nearest q K) in
  count = K
  /\ length out = Nat.min K (Exhaustive_size e)
  /\ StronglySorted Z.le (dist <$> out)
  /\ exists left_out,
       out ++ left_out ≡ₚ _values e
       /\ forall v w, v ∈ left_out -> w ∈ out -> dist w <= dist v.
Proof.
  unfold Exhaustive_query_distance, Exhaustive_size. cbv zeta.
  change (Predicate.count (Predicate.Nearest q K)) with K.
  set (key v := (Bound.Nearest (BoundExtractor v) q, v)).
  assert (forall (l : list Value) (acc : TruncatedMultiSet.t Value),
            fold_left (fun min_set value =>
                         TruncatedMultiSet.emplace
                           (Predicate.distance_apply (Predicate.Nearest q K)
                              (BoundExtractor value) true, value) min_set) l acc
            = fold_left (fun acc x => TruncatedMultiSet.emplace x acc) (key <$> l) acc)
    as Hfold.
  { induction l as [|v l IH]; intros acc; simpl; [done|]. by rewrite IH. }
  rewrite Hfold.
  destruct (emplace_fold_kept_smallest K (key <$> _values e) [] [] [] (kept_smallest_nil K))
    as (data & dropped & Heq & Hsorted & Hlen & Hperm & Hord).
  unfold TruncatedMultiSet.make. rewrite Heq. simpl in *.
  assert (Forall (fun p => p = key (snd p)) (data ++ dropped)) as Hall.
  { rewrite Hperm. apply Forall_fmap, Forall_forall. by intros v _. }
  apply Forall_app in Hall as [Hdata Hdropped].
  split; [done|]. split; [|split].
  - by rewrite length_fmap, Hlen, length_fmap.
  - rewrite <- list_fmap_compose.
    assert ((fun v => Bound.Nearest (BoundExtractor v) q) ∘ snd <$> data = fst <$> data) as ->.
    { apply Forall_fmap_ext. eapply Forall_impl; [exact Hdata|].
      intros p Hp. simpl. by rewrite Hp at 2. }
    clear -Hsorted. induction Hsorted as [|p l _ IH Hp]; simpl; constructor; [done|].
    apply Forall_fmap. eapply Forall_impl; [exact Hp|]. by intros p'.
  - exists (snd <$> dropped). split.
    + rewrite <- fmap_app, Hperm, <- list_fmap_compose. by rewrite list_fmap_id.
    + intros v w [d [-> Hd]]%list_elem_of_fmap [p [-> Hp]]%list_elem_of_fmap.
      specialize (Hord d p Hd Hp).
      rewrite Forall_forall in Hdata, Hdropped.
      rewrite (Hdata p Hp), (Hdropped d Hd) in Hord. done.
Qed.

(** [insert(first, last)] leaves a bound that holds the bound there was
    and the bound of every value inserted. *)
Theorem Exhaustive_insert_range_bound (e : Exhaustive) (values : list Value) :
  let e' := Exhaustive_insert_range BoundExtractor e values in
  _values e' = _values e ++ values
  /\ Bound.Contains (Exhaustive_bounds e') (Exhaustive_bounds e) = true
  /\ forall v, v ∈ values -> Bound.Contains (Exhaustive_bounds e') (BoundExtractor v) = true.
Proof.
  cbv zeta. unfold Exhaustive_insert_range, Exhaustive_bounds.
  revert e. induction values as [|x values IH]; intros e; simpl.
  - rewrite app_nil_r. split; [done|]. split.
    + apply Contains_spec. intros i. lia.
    + by intros v ?%elem_of_nil.
  - destruct (IH (Exhaustive_insert BoundExtractor e x)) as (Hvalues & Hold & Hnew).
    split; [by rewrite Hvalues; simpl; rewrite <- app_assoc|].
    rewrite Contains_spec in Hold. simpl in Hold.
    split.
    + apply Contains_spec. intros i. specialize (Hold i).
      rewrite !vlookup_zip_with in Hold. lia.
    + intros v [->|Hv]%elem_of_cons; [|by apply Hnew].
      apply Contains_spec. intros i. specialize (Hold i).
      rewrite !vlookup_zip_with in Hold. lia.
Qed.

End ExhaustiveQueries.

(** ** UniqueMap: the representatives *)

Section UniqueMapRepresentatives.
Context {T : Type} `{Countable T} `{Inhabited T}.

Lemma setup_fold_first_inv (vals : list T) :
  setup_first_inv vals (fold_left setup_step (imap pair vals) (∅, mkUniqueMap [] [])).
Proof.
  induction vals as [|x vals IH] using rev_ind.
  - simpl. split; [|split; [done|split; [done|by intros d r ?%elem_of_nil]]].
    intros v. rewrite lookup_empty, elem_of_nil.
    split; [by intros [? ?]|done].
  - pose proof (setup_fold_inv vals) as Hinv.
    rewrite imap_app, fold_left_app. simpl. rewrite Nat.add_0_r.
    destruct (fold_left setup_step (imap pair vals) _) as [m um].
    destruct IH as (Hdom & Hfirst & Hperm & Hlt).
    destruct Hinv as (Hm & _ & Hu & _ & _).
    assert ((fun u => (vals ++ [x]) !! u) <$> unique_idx_ um
            = (fun u => vals !! u) <$> unique_idx_ um) as Hsame.
    { apply Forall_fmap_ext, Forall_forall. intros u Hin.
      apply lookup_app_l. by apply Hu. }
    unfold setup_step. destruct (m !! x) as [first_seen|] eqn:Hx;
      unfold setup_first_inv; rewrite reverse_snoc, length_app, Nat.add_1_r, seq_S; simpl.
    + (* a value seen before *)
      assert (x ∈ vals) as Hin by (apply Hdom; eauto).
      destruct (Hm _ _ Hx) as [Hseen _]. apply lookup_lt_Some in Hseen.
      split; [|split; [|split]].
      * intros v. rewrite Hdom, elem_of_app, list_elem_of_singleton.
        split; [by left|]. by intros [?| ->].
      * destruct (decide_rel elem_of x (reverse vals)) as [_|Hd].
        -- by rewrite Hsame.
        -- exfalso. apply Hd. by apply elem_of_reverse.
      * rewrite fmap_app, app_assoc, Hperm. done.
      * intros d r [Hd|Hd%list_elem_of_singleton]%elem_of_app; [by apply Hlt|].
        by simplify_eq.
    + (* a new value *)
      assert (x ∉ vals) as Hnotin.
      { intros Hin. apply Hdom in Hin as [? ?]. congruence. }
      split; [|split; [|split]].
      * intros v. rewrite elem_of_app, list_elem_of_singleton.
        destruct (decide (x = v)) as [->|Hne].
        -- rewrite lookup_insert_eq. split; [by right|eauto].
        -- rewrite lookup_insert_ne by done. rewrite Hdom.
           split; [by left|]. by intros [?| ->].
      * destruct (decide_rel elem_of x (reverse vals)) as [Hd|_].
        -- exfalso. by apply Hnotin, elem_of_reverse.
        -- rewrite reverse_cons, !fmap_app, Hsame, Hfirst. simpl.
           by rewrite lookup_app_r, Nat.sub_diag by lia.
      * rewrite <- Hperm, <- !app_assoc. apply Permutation_app_head, Permutation_app_comm.
      * done.
Qed.

(** [reduce_to_unique] after [setup] on the same vector returns the
    distinct values of the vector in the order of their first
    occurrence. *)
Theorem reduce_to_unique_first_occurrences (vals vout : list T) :
  exists reduced,
    reduce_to_unique (setup vals) vals vout = Some reduced
    /\ reduced = reverse (remove_dups (reverse vals))
    /\ NoDup reduced
    /\ forall x, x ∈ reduced <-> x ∈ vals.
Proof.
  pose proof (setup_fold_inv vals) as Hinv.
  pose proof (setup_fold_first_inv vals) as Hfirst.
  unfold setup.
  destruct (fold_left setup_step (imap pair vals) _) as [m um]. simpl.
  destruct Hinv as (_ & _ & Hu & _ & _). destruct Hfirst as (_ & Hfirst & _ & _).
  destruct (reduce_to_unique_spec um vals vout Hu) as (reduced & Hred & Hlen & Hval).
  exists reduced. split; [done|].
  assert (reduced = reverse (remove_dups (reverse vals))) as ->.
  { apply (inj (fmap Some)). rewrite <- Hfirst.
    apply list_eq. intros i. rewrite !list_lookup_fmap.
    destruct (unique_idx_ um !! i) as [u|] eqn:Hi; simpl.
    - destruct (lookup_lt_is_Some_2 reduced i) as [y Hy].
      { rewrite Hlen. by eapply lookup_lt_Some. }
      rewrite Hy. simpl. f_equal. rewrite <- Hy. by apply Hval.
    - rewrite lookup_ge_None_2; [done|]. rewrite Hlen. by apply lookup_ge_None. }
  split; [done|]. split.
  - rewrite reverse_Permutation. apply NoDup_remove_dups.
  - intros x. by rewrite elem_of_reverse, elem_of_remove_dups, elem_of_reverse.
Qed.

(** [setup] shares out the positions of the vector between the
    representatives and the duplicates, each duplicate pointing back to
    an earlier position that holds the same value and is a
    representative. *)
Theorem setup_shares_out_positions (vals : list T) :
  unique_idx_ (setup vals) ++ (fst <$> non_unique_map_ (setup vals)) ≡ₚ seq 0 (length vals)
  /\ num_total (setup vals) = length vals
  /\ forall d r, (d, r) ∈ non_unique_map_ (setup vals) ->
       (r < d)%nat /\ r ∈ unique_idx_ (setup vals) /\ vals !! d = vals !! r.
Proof.
  pose proof (setup_fold_inv vals) as Hinv.
  pose proof (setup_fold_first_inv vals) as Hfirst.
  unfold setup, num_total.
  destruct (fold_left setup_step (imap pair vals) _) as [m um]. simpl.
  destruct Hinv as (_ & Htotal & _ & Hn & _). destruct Hfirst as (_ & _ & Hperm & Hlt).
  split; [done|]. split; [done|].
  intros d r Hd. destruct (Hn d r Hd) as (_ & Hr & Heq). split; [by apply Hlt|done].
Qed.

End UniqueMapRepresentatives.

(** ** RCB: splitting a box, and the reductions *)

(** A point that a box owns under [ContainsNonInclusive] is owned by
    exactly one of the two halves [split_box] makes of the box, whatever
    the split coordinate: by the low half when it lies below the split,
    by the high half otherwise. *)
Theorem split_box_keeps_every_point (search_box : RCB.box_type) (long_dim : fin RCB.NDim)
    (split : Z) (p : RCB.box_type) :
  min_ p = max_ p ->
  Bound.ContainsNonInclusive search_box p = true ->
  xorb (Bound.ContainsNonInclusive (fst (RCB.split_box search_box long_dim split)) p)
       (Bound.ContainsNonInclusive (snd (RCB.split_box search_box long_dim split)) p) = true
  /\ (Bound.ContainsNonInclusive (fst (RCB.split_box search_box long_dim split)) p = true
      <-> Bound.min p long_dim < split).
Proof.
  intros Hpoint Hin. simpl. unfold Bound.set, Bound.min.
  rewrite ContainsNonInclusive_spec in Hin.
  assert (Bound.ContainsNonInclusive
            (mkBox (min_ search_box) (vinsert long_dim split (max_ search_box))) p = true
          <-> min_ p !!! long_dim < split) as Hlow.
  { rewrite ContainsNonInclusive_spec. simpl. split.
    - intros Hall. specialize (Hall long_dim). rewrite vlookup_insert in Hall.
      rewrite Hpoint. lia.
    - intros Hlt i. specialize (Hin i). destruct (decide (i = long_dim)) as [->|Hne].
      + rewrite vlookup_insert. rewrite Hpoint in *. lia.
      + rewrite vlookup_insert_ne by done. lia. }
  assert (Bound.ContainsNonInclusive
            (mkBox (vinsert long_dim split (min_ search_box)) (max_ search_box)) p = true
          <-> split <= min_ p !!! long_dim) as Hhigh.
  { rewrite ContainsNonInclusive_spec. simpl. split.
    - intros Hall. specialize (Hall long_dim). rewrite vlookup_insert in Hall. lia.
    - intros Hle i. specialize (Hin i). destruct (decide (i = long_dim)) as [->|Hne].
      + rewrite vlookup_insert. lia.
      + rewrite vlookup_insert_ne by done. lia. }
  split; [|done].
  destruct (Z.lt_ge_cases (min_ p !!! long_dim) split) as [Hlt|Hge].
  - rewrite (proj2 Hlow Hlt).
    assert (Bound.ContainsNonInclusive
              (mkBox (vinsert long_dim split (min_ search_box)) (max_ search_box)) p = false)
      as ->; [|done].
    apply not_true_is_false. intros E. apply Hhigh in E. lia.
  - rewrite (proj2 Hhigh Hge).
    assert (Bound.ContainsNonInclusive
              (mkBox (min_ search_box) (vinsert long_dim split (max_ search_box))) p = false)
      as ->; [|done].
    apply not_true_is_false. intros E. apply Hlow in E. lia.
Qed.

Lemma split_box_keeps_every_point_witness :
  xorb (Bound.ContainsNonInclusive
          (fst (RCB.split_box (mkBox [# 0; 0; 0] [# 8; 4; 4]) 0%fin 3))
          (mkBox [# 3; 1; 1] [# 3; 1; 1]))
       (Bound.ContainsNonInclusive
          (snd (RCB.split_box (mkBox [# 0; 0; 0] [# 8; 4; 4]) 0%fin 3))
          (mkBox [# 3; 1; 1] [# 3; 1; 1])) = true
  /\ (Bound.ContainsNonInclusive
        (fst (RCB.split_box (mkBox [# 0; 0; 0] [# 8; 4; 4]) 0%fin 3))
        (mkBox [# 3; 1; 1] [# 3; 1; 1]) = true
      <-> Bound.min (mkBox [# 3; 1; 1] [# 3; 1; 1]) 0%fin < 3).
Proof.
  apply (split_box_keeps_every_point (mkBox [# 0; 0; 0] [# 8; 4; 4]) 0%fin 3
           (mkBox [# 3; 1; 1] [# 3; 1; 1])); reflexivity.
Defined.

(** The two halves of a box that is split within its extent make up the
    box. *)
Theorem split_box_halves_make_the_box (search_box : RCB.box_type) (long_dim : fin RCB.NDim)
    (split : Z) :
  Bound.min search_box long_dim <= split <= Bound.max search_box long_dim ->
  Bound.Union (fst (RCB.split_box search_box long_dim split))
              (snd (RCB.split_box search_box long_dim split)) = search_box.
Proof.
  unfold Bound.min, Bound.max. intros Hsplit. simpl. unfold Bound.Union, Bound.set.
  apply Box_eq; apply vec_eq; intros i; simpl; rewrite vlookup_zip_with;
    (destruct (decide (i = long_dim)) as [->|Hne];
     [rewrite vlookup_insert|rewrite vlookup_insert_ne by done]); lia.
Qed.

Lemma split_box_halves_make_the_box_witness :
  Bound.Union (fst (RCB.split_box (mkBox [# 0; 0; 0] [# 8; 4; 4]) 0%fin 3))
              (snd (RCB.split_box (mkBox [# 0; 0; 0] [# 8; 4; 4]) 0%fin 3))
  = mkBox [# 0; 0; 0] [# 8; 4; 4].
Proof.
  apply (split_box_halves_make_the_box (mkBox [# 0; 0; 0] [# 8; 4; 4]) 0%fin 3).
  unfold Bound.min, Bound.max. simpl. lia.
Defined.

Section ReportReduction.

(** The sum over the ranks of the entry [n] of their vectors. *)
Local Abbreviation column n vectors :=
  (foldr (fun (v : list Z) (sum : Z) => default 0 (v !! n) + sum) 0 vectors) (only parsing).

Lemma report_combiner_sums (a b : list Z) :
  length b = length a ->
  exists c, RCB.report_combiner a b = Some c
    /\ length c = length a
    /\ forall n x y, a !! n = Some x -> b !! n = Some y -> c !! n = Some (x + y).
Proof.
  intros Hlen. unfold RCB.report_combiner.
  destruct (fold_seq_inv
              (fun ans n => ans ← ans; an ← ans !! n; bn ← b !! n; Some (<[n := an + bn]> ans))
              (fun k (ans : list Z) =>
                 length ans = length a
                 /\ (forall n x y, (n < k)%nat -> a !! n = Some x -> b !! n = Some y ->
                       ans !! n = Some (x + y))
                 /\ (forall n, (k <= n)%nat -> ans !! n = a !! n)) (length a))
    with (a0 := a) as (c & Hfold & Hc & Hsum & _).
  - intros i ans Hi (Hans & Hdone & Htodo). simpl.
    destruct (lookup_lt_is_Some_2 a i Hi) as [x Hx].
    destruct (lookup_lt_is_Some_2 b i) as [y Hy]; [lia|].
    rewrite (Htodo i), Hx, Hy by lia. simpl.
    eexists. split; [done|]. split; [by rewrite length_insert|]. split.
    + intros n x' y' Hn Hx' Hy'. destruct (decide (n = i)) as [->|Hne].
      * simplify_eq. rewrite list_lookup_insert_eq by lia. done.
      * rewrite list_lookup_insert_ne by done. apply Hdone; [lia|done|done].
    + intros n Hn. rewrite list_lookup_insert_ne by lia. apply Htodo. lia.
  - split; [done|]. split; [intros; lia|done].
  - exists c. split; [done|]. split; [done|].
    intros n x y Hx Hy. apply (Hsum n x y); [|done|done]. by eapply lookup_lt_Some.
Qed.

(** The reduction of [report] adds up the vectors of the ranks entry by
    entry. *)
Theorem report_all_reduce_sums (L : nat) (in_values : list (list Z)) :
  in_values <> [] -> Forall (fun v => length v = L) in_values ->
  exists out,
    RCB.all_reduce RCB.report_combiner in_values = Some out
    /\ length out = L
    /\ forall n, (n < L)%nat -> out !! n = Some (column n in_values).
Proof.
  intros Hne Hall. destruct in_values as [|v0 rest]; [done|]. clear Hne.
  apply Forall_cons in Hall as [Hv0 Hrest]. unfold RCB.all_reduce.
  assert (forall (vs : list (list Z)) (acc : list Z),
            Forall (fun v => length v = L) vs -> length acc = L ->
            exists out,
              fold_left (fun acc v => acc ← acc; RCB.report_combiner acc v) vs (Some acc)
              = Some out
              /\ length out = L
              /\ forall n, (n < L)%nat ->
                   out !! n = Some (default 0 (acc !! n) + column n vs)) as Hfold.
  { induction vs as [|v vs IH]; intros acc Hvs Hacc; simpl.
    - exists acc. split; [done|]. split; [done|]. intros n Hn.
      destruct (lookup_lt_is_Some_2 acc n) as [x Hx]; [lia|]. rewrite Hx. simpl. f_equal. lia.
    - apply Forall_cons in Hvs as [Hv Hvs].
      destruct (report_combiner_sums acc v) as (c & -> & Hc & Hsum); [lia|].
      destruct (IH c Hvs) as (out & Hout & Hlen & Hcol); [lia|].
      exists out. split; [done|]. split; [done|]. intros n Hn. rewrite (Hcol n Hn).
      destruct (lookup_lt_is_Some_2 acc n) as [x Hx]; [lia|].
      destruct (lookup_lt_is_Some_2 v n) as [y Hy]; [lia|].
      rewrite (Hsum n x y Hx Hy), Hx, Hy. simpl. f_equal. lia. }
  destruct (Hfold rest v0 Hrest Hv0) as (out & Hout & Hlen & Hcol).
  exists out. split; [done|]. split; [done|]. intros n Hn. rewrite (Hcol n Hn). done.
Qed.

End ReportReduction.

Lemma report_all_reduce_sums_witness :
  exists out,
    RCB.all_reduce RCB.report_combiner [[1; 2; 3]; [10; 20; 30]; [100; 200; 300]] = Some out
    /\ length out = 3%nat
    /\ forall n, (n < 3)%nat ->
         out !! n = Some (foldr (fun (v : list Z) (sum : Z) => default 0 (v !! n) + sum) 0
                            [[1; 2; 3]; [10; 20; 30]; [100; 200; 300]]).
Proof.
  apply (report_all_reduce_sums 3 [[1; 2; 3]; [10; 20; 30]; [100; 200; 300]]).
  - discriminate.
  - repeat constructor.
Defined.

(** [init] ends in undefined behaviour as soon as one rank holds no
    point: [rtree.bounds()] then dereferences the null root of the empty
    tree. *)
Theorem init_undefined_on_rank_without_points (adaptors : list RCB.adaptor_type)
    (adapt : RCB.adaptor_type) :
  adapt ∈ adaptors -> RCB.count adapt = 0%nat -> RCB.init adaptors = None.
Proof.
  intros Hin Hcount. unfold RCB.init.
  destruct (mapM _ adaptors) as [ranks|] eqn:Hranks; [|done]. simpl.
  assert (exists weight, (RTree_default, weight) ∈ ranks) as [weight Hrank].
  { apply mapM_Some in Hranks.
    apply list_elem_of_lookup in Hin as [k Hk].
    destruct (Forall2_lookup_l _ _ _ _ _ Hranks Hk) as ([rtree weight] & Hk' & Hrank).
    exists weight. apply list_elem_of_lookup. exists k. rewrite Hk'. f_equal.
    unfold RCB.build_rtree in Hrank. rewrite Hcount in Hrank. simpl in Hrank.
    destruct (RCB.copy_weights adapt); simplify_eq/=. done. }
  destruct (mapM _ ranks) as [bounds_by_rank|] eqn:Hbounds; [|done]. exfalso.
  apply mapM_Some in Hbounds.
  apply list_elem_of_lookup in Hrank as [k Hk].
  destruct (Forall2_lookup_l _ _ _ _ _ Hbounds Hk) as (b & _ & Hb). done.
Qed.

Lemma init_undefined_on_rank_without_points_witness :
  RCB.init [Examples.duplicates_adaptor; RCB.mkAdaptor 0 [] 1 [] 1 [] 1 None 1] = None.
Proof.
  apply (init_undefined_on_rank_without_points
           [Examples.duplicates_adaptor; RCB.mkAdaptor 0 [] 1 [] 1 [] 1 None 1]
           (RCB.mkAdaptor 0 [] 1 [] 1 [] 1 None 1)).
  - apply list_elem_of_further, list_elem_of_here.
  - reflexivity.
Defined.

(** ** The spatial query of the R-tree *)

Section PredicateFactories.
Context {ndim : nat}.
Implicit Types q leaf page : Box ndim.

Lemma Disjoint_prunes_soundly q : prunes_soundly (Predicate.Disjoint q).
Proof. by intros leaf page _ _ _. Qed.

Lemma Intersects_prunes_soundly q : prunes_soundly (Predicate.Intersects q).
Proof.
  intros leaf page _. unfold Predicate.spatial_apply. simpl.
  rewrite Contains_spec, !Intersects_spec. intros Hpage Hleaf i.
  specialize (Hpage i). specialize (Hleaf i). lia.
Qed.

Lemma Overlaps_prunes_soundly q : prunes_soundly (Predicate.Overlaps q).
Proof.
  intros leaf page _. unfold Predicate.spatial_apply. simpl.
  rewrite Contains_spec, !Overlaps_spec. intros Hpage Hleaf i.
  specialize (Hpage i). specialize (Hleaf i). lia.
Qed.

Lemma Contains_prunes_soundly q : prunes_soundly (Predicate.Contains q).
Proof.
  intros leaf page _. unfold Predicate.spatial_apply. simpl.
  rewrite !Contains_spec. intros Hpage Hleaf i.
  specialize (Hpage i). specialize (Hleaf i). lia.
Qed.

Lemma Covers_prunes_soundly q : prunes_soundly (Predicate.Covers q).
Proof.
  intros leaf page _. unfold Predicate.spatial_apply. simpl.
  rewrite Contains_spec, !Covers_spec. intros Hpage Hleaf i.
  specialize (Hpage i). specialize (Hleaf i). lia.
Qed.

Lemma ContainedBy_prunes_soundly q : prunes_soundly (Predicate.ContainedBy q).
Proof.
  intros leaf page Hordered. unfold Predicate.spatial_apply. simpl.
  rewrite !Contains_spec, Intersects_spec. intros Hpage Hleaf i.
  specialize (Hpage i). specialize (Hleaf i). specialize (Hordered i). lia.
Qed.

Lemma ContainedByNonInclusive_prunes_soundly q :
  prunes_soundly (Predicate.ContainedByNonInclusive q).
Proof.
  intros leaf page Hordered. unfold Predicate.spatial_apply. simpl.
  rewrite Contains_spec, ContainsNonInclusive_spec, Intersects_spec. intros Hpage Hleaf i.
  specialize (Hpage i). specialize (Hleaf i). specialize (Hordered i). lia.
Qed.

Lemma CoveredBy_prunes_soundly q : prunes_soundly (Predicate.CoveredBy q).
Proof.
  intros leaf page Hordered. unfold Predicate.spatial_apply. simpl.
  rewrite Contains_spec, Covers_spec, Overlaps_spec. intros Hpage Hleaf i.
  specialize (Hpage i). specialize (Hleaf i). specialize (Hordered i). lia.
Qed.

Lemma Equals_prunes_soundly q : prunes_soundly (Predicate.Equals q).
Proof.
  intros leaf page Hordered. unfold Predicate.spatial_apply. simpl.
  rewrite Contains_spec, Equals_spec, Intersects_spec. intros Hpage <- i.
  specialize (Hpage i). specialize (Hordered i). lia.
Qed.

(** Every predicate that factories.hpp builds pairs its leaf test with a
    node test that accepts each page holding an accepted value, as long
    as the corners of the value's box are in order. *)
Theorem factories_prune_soundly q :
  prunes_soundly (Predicate.Disjoint q)
  /\ prunes_soundly (Predicate.Intersects q)
  /\ prunes_soundly (Predicate.Overlaps q)
  /\ prunes_soundly (Predicate.Contains q)
  /\ prunes_soundly (Predicate.ContainedBy q)
  /\ prunes_soundly (Predicate.ContainedByNonInclusive q)
  /\ prunes_soundly (Predicate.Covers q)
  /\ prunes_soundly (Predicate.CoveredBy q)
  /\ prunes_soundly (Predicate.Equals q).
Proof.
  split; [apply Disjoint_prunes_soundly|].
  split; [apply Intersects_prunes_soundly|].
  split; [apply Overlaps_prunes_soundly|].
  split; [apply Contains_prunes_soundly|].
  split; [apply ContainedBy_prunes_soundly|].
  split; [apply ContainedByNonInclusive_prunes_soundly|].
  split; [apply Covers_prunes_soundly|].
  split; [apply CoveredBy_prunes_soundly|].
  apply Equals_prunes_soundly.
Qed.

End PredicateFactories.

Section SpatialQuery.
Context {ndim : nat} {Value : Type}.
Context (BoundGetter : Value -> Box ndim).

Local Abbreviation Node := (Node ndim Value).
Local Abbreviation bounds_ok := (bounds_ok BoundGetter).
Local Arguments Predicate.spatial_apply : simpl never.

Lemma bind_values_concat (l : list Node) : l ≫= values = concat (values <$> l).
Proof. induction l as [|n l IH]; [done|]. rewrite bind_cons, fmap_cons, IH. done. Qed.

(** The bound of a node holds the bound of every value below it. *)
Lemma bound_contains_values (n : Node) :
  bounds_ok n -> forall v, v ∈ values n ->
  Bound.Contains (getBound BoundGetter n) (BoundGetter v) = true.
Proof.
  induction n as [w|p IH] using Node_nested_ind; intros Hok v Hv; simpl in Hv.
  - apply list_elem_of_singleton in Hv as ->. apply Contains_spec. intros i. simpl. lia.
  - apply bounds_ok_page_inv in Hok as [Hbound Hall].
    apply elem_of_concat in Hv as (vs & Hvs & Hv).
    apply list_elem_of_fmap in Hvs as (child & -> & Hchild).
    rewrite Forall_forall in IH, Hall.
    specialize (IH child Hchild (Hall child Hchild) v Hv).
    assert (Bound.stretch (bound_ p) (getBound BoundGetter child) = bound_ p) as Habs.
    { rewrite Hbound. apply fold_stretch_absorb, list_elem_of_fmap. by exists child. }
    rewrite Contains_spec in *. intros i. specialize (IH i).
    destruct (stretch_absorbs_le _ _ i Habs). simpl. lia.
Qed.

Section Loop.
Context (pred : Predicate.spatial_predicate ndim) (Hsound : prunes_soundly pred).

Local Abbreviation accepted :=
  (List.filter (fun v => Predicate.spatial_apply pred (BoundGetter v) true)).

Lemma accepted_app (l1 l2 : list Value) : accepted (l1 ++ l2) = accepted l1 ++ accepted l2.
Proof. apply List.filter_app. Qed.


(** A page that the node test rejects holds no value that the leaf test
    accepts. *)
Lemma rejected_page_holds_none (n : Node) (vs : list Value) :
  bounds_ok n -> Forall (fun v => ordered (BoundGetter v)) vs ->
  (forall v, v ∈ vs -> v ∈ values n) ->
  Predicate.spatial_apply pred (getBound BoundGetter n) false = false ->
  accepted vs = [].
Proof.
  intros Hok Hordered Hsub Hreject.
  induction vs as [|v vs IH]; simpl; [done|].
  apply Forall_cons in Hordered as [Hv Hordered].
  destruct (Predicate.spatial_apply pred (BoundGetter v) true) eqn:Hleaf.
  - exfalso.
    assert (Predicate.spatial_apply pred (getBound BoundGetter n) false = true); [|congruence].
    apply (Hsound (BoundGetter v)); [done| |done].
    apply bound_contains_values; [done|]. apply Hsub, list_elem_of_here.
  - apply IH; [done|]. intros w Hw. by apply Hsub, list_elem_of_further.
Qed.

Lemma spatial_loop_returns (fuel : nat) :
  forall (candidate_nodes : list Node) (out : list Value),
    Forall bounds_ok candidate_nodes ->
    Forall (fun v => ordered (BoundGetter v)) (candidate_nodes ≫= values) ->
    (sum_list (node_count <$> candidate_nodes) <= fuel)%nat ->
    exists found,
      spatial_loop BoundGetter fuel pred candidate_nodes out = Some (out ++ found)
      /\ found ≡ₚ accepted (candidate_nodes ≫= values).
Proof.
  induction fuel as [|fuel IH]; intros candidates out Hok Hordered Hfuel.
  - destruct candidates as [|n rest].
    + exists []. by rewrite app_nil_r.
    + simpl in Hfuel. pose proof (node_count_pos n). lia.
  - destruct candidates as [|n rest].
    + exists []. by rewrite app_nil_r.
    + apply Forall_cons in Hok as [Hn Hrest].
      rewrite bind_cons in Hordered. apply Forall_app in Hordered as [Hvals Hrest_vals].
      change (sum_list (node_count <$> n :: rest))
        with (node_count n + sum_list (node_count <$> rest))%nat in Hfuel.
      pose proof (node_count_pos n) as Hpos.
      rewrite bind_cons, accepted_app. cbn [spatial_loop].
      destruct n as [v|p].
      * (* a leaf *)
        simpl. destruct (Predicate.spatial_apply pred (BoundGetter v) true) eqn:Hleaf.
        -- destruct (IH rest (out ++ [v]) Hrest Hrest_vals) as (found & Hloop & Hfound);
             [lia|].
           exists (v :: found). split.
           ++ rewrite Hloop. by rewrite <- app_assoc.
           ++ by constructor.
        -- destruct (IH rest out Hrest Hrest_vals) as (found & Hloop & Hfound);
             [lia|].
           by exists found.
      * (* a page *)
        simpl isLeaf. cbv iota.
        destruct (Predicate.spatial_apply pred (getBound BoundGetter (PageNode p)) false)
          eqn:Hnode.
        -- apply bounds_ok_page_inv in Hn as [_ Hchildren].
           destruct (IH (rest ++ nodes_ p) out) as (found & Hloop & Hfound).
           { by apply Forall_app. }
           { rewrite bind_app. apply Forall_app. split; [done|].
             by rewrite bind_values_concat. }
           { rewrite fmap_app, sum_list_with_app. simpl in Hfuel.
             fold (sum_list (node_count <$> rest)). fold (sum_list (node_count <$> nodes_ p)).
             lia. }
           exists found. split; [done|].
           rewrite Hfound, bind_app, accepted_app, (bind_values_concat (nodes_ p)).
           change (concat (values <$> nodes_ p)) with (values (PageNode p)).
           apply Permutation_app_comm.
        -- destruct (IH rest out Hrest Hrest_vals) as (found & Hloop & Hfound); [lia|].
           exists found. split; [done|].
           rewrite (rejected_page_holds_none (PageNode p) (values (PageNode p))); done.
Qed.

End Loop.

(** On a tree whose pages carry the bounds of their children and whose
    values have boxes with corners in order, the spatial query with a
    predicate that prunes soundly returns, and it returns exactly the
    stored values that the leaf test of the predicate accepts. *)
Theorem query_spatial_exact (t : RTree ndim Value) (pred : Predicate.spatial_predicate ndim) :
  tree_bounds_ok BoundGetter t ->
  Forall (fun v => ordered (BoundGetter v)) (tree_values t) ->
  prunes_soundly pred ->
  exists out,
    query_spatial BoundGetter t pred = Some out
    /\ out ≡ₚ List.filter (fun v => Predicate.spatial_apply pred (BoundGetter v) true)
                           (tree_values t).
Proof.
  unfold tree_bounds_ok, tree_values, query_spatial. intros Hok Hordered Hsound.
  destruct (root_node_ptr_ t) as [root|]; [|by exists []].
  destruct (spatial_loop_returns pred Hsound (node_count root) [root] [])
    as (found & Hloop & Hfound).
  - by apply Forall_singleton.
  - simpl. by rewrite app_nil_r.
  - simpl. lia.
  - exists found. split; [done|]. rewrite Hfound. simpl. by rewrite app_nil_r.
Qed.

End SpatialQuery.

Lemma query_spatial_exact_witness :
  exists out,
    query_spatial Examples.pair_extractor Examples.single_value_tree
                  (Predicate.Intersects (mkBox [# 0; 0] [# 3; 7])) = Some out
    /\ out ≡ₚ List.filter
                (fun v => Predicate.spatial_apply
                            (Predicate.Intersects (mkBox [# 0; 0] [# 3; 7]))
                            (Examples.pair_extractor v) true)
                (tree_values Examples.single_value_tree).
Proof.
  apply (query_spatial_exact Examples.pair_extractor Examples.single_value_tree
           (Predicate.Intersects (mkBox [# 0; 0] [# 3; 7]))).
  - apply bounds_ok_page; [reflexivity|]. apply Forall_singleton. constructor.
  - apply Forall_singleton. intros i. simpl. lia.
  - apply Intersects_prunes_soundly.
Defined.

(** ** Insertion keeps the values *)

Section InsertValues.
Context {ndim : nat} {Value : Type}.
Context (BoundGetter : Value -> Box ndim).
Context {S : SplittingType ndim Value} {Contract : SplittingContract S}.

Local Abbreviation Node := (Node ndim Value).
Local Abbreviation Page := (Page ndim Node).
Local Abbreviation parents := (parents ndim Value).

(** The values below the children of a page. *)
Local Abbreviation values_of l := (concat (values <$> l)) (only parsing).

Lemma values_of_perm (l l' : list Node) : l ≡ₚ l' -> values_of l ≡ₚ values_of l'.
Proof. intros Hperm. by rewrite Hperm. Qed.

Lemma values_of_app (l l' : list Node) : values_of (l ++ l') = values_of l ++ values_of l'.
Proof. by rewrite fmap_app, concat_app. Qed.

Lemma values_of_delete (l : list Node) (pos : nat) (old : Node) :
  l !! pos = Some old -> values_of l ≡ₚ values old ++ values_of (delete pos l).
Proof.
  intros Hpos. rewrite (values_of_perm l (old :: delete pos l)); [done|].
  by apply delete_Permutation.
Qed.

Lemma values_of_insert (l : list Node) (pos : nat) (old new : Node) :
  l !! pos = Some old -> values_of (<[pos := new]> l) ≡ₚ values new ++ values_of (delete pos l).
Proof.
  intros Hpos.
  rewrite (values_of_delete (<[pos := new]> l) pos new).
  - apply Permutation_app_head, values_of_perm.
    revert pos Hpos. induction l as [|n l IH]; intros [|pos] Hpos; simplify_eq/=; [done|].
    apply perm_skip. by apply IH.
  - apply list_lookup_insert_eq. by eapply lookup_lt_Some.
Qed.

Lemma find_best_fit_from_chain (bb : Box ndim) (current : Node) :
  forall (chain : parents) (p best : Page) (chain' : parents),
    current = PageNode p -> chain_holds p chain ->
    find_best_fit_from BoundGetter bb current chain = Some (best, chain') ->
    chain_holds best chain' /\ chain_top best chain' = chain_top p chain.
Proof.
  induction current as [v|q IH] using Node_nested_ind;
    intros chain p best chain' Heq Hchain Hfind; [done|].
  simplify_eq. rewrite find_best_fit_from_page in Hfind.
  destruct (find_best_fit_in_node BoundGetter bb p) as [pos|]; [|done].
  simpl in Hfind. destruct (nodes_ p !! pos) as [child|] eqn:Hchild; [|done].
  simpl in Hfind. destruct child as [v|c].
  - by simplify_eq.
  - destruct (Forall_lookup_1 _ _ _ _ IH Hchild ((p, pos) :: chain) c best chain')
      as [Hholds Htop]; [done|by constructor|done|].
    done.
Qed.

Lemma expand_step_values (sb : Box ndim) (current old parent parent' : Page) (pos : nat)
    (added : list Value) :
  nodes_ parent !! pos = Some (PageNode old) ->
  values (PageNode current) ≡ₚ added ++ values (PageNode old) ->
  expand_step BoundGetter sb current (parent, pos) = Some parent' ->
  values (PageNode parent') ≡ₚ added ++ values (PageNode parent).
Proof.
  intros Hpos Hcurrent Hstep. unfold expand_step in Hstep. simpl in *.
  rewrite (values_of_delete (nodes_ parent) pos (PageNode old) Hpos). simpl.
  destruct (Nat.ltb_spec max_children (Page_size current)) as [Hover|_].
  - destruct (split_node BoundGetter current) as [[[a b] p']|] eqn:Hsplit; simplify_eq/=.
    destruct (split_node_Some BoundGetter _ _ _ _ Hover Hsplit) as (Hperm & _ & _).
    rewrite !values_of_app. simpl. rewrite !app_nil_r, <- app_assoc.
    rewrite <- (values_of_app (nodes_ a)), (values_of_perm _ _ Hperm), Hcurrent.
    rewrite (Permutation_app_comm (values_of (delete pos (nodes_ parent)))).
    by rewrite <- app_assoc.
  - simplify_eq/=.
    rewrite (values_of_insert (nodes_ parent) pos (PageNode old) (PageNode current) Hpos).
    simpl. rewrite Hcurrent. by rewrite <- app_assoc.
Qed.

Lemma expand_loop_values (sb : Box ndim) (added : list Value) (chain : parents) :
  forall current old root : Page,
    chain_holds old chain ->
    values (PageNode current) ≡ₚ added ++ values (PageNode old) ->
    expand_loop BoundGetter sb current chain = Some root ->
    values (PageNode root) ≡ₚ added ++ values (PageNode (chain_top old chain)).
Proof.
  induction chain as [|[parent pos] chain IH]; intros current old root Hchain Hcurrent Hloop;
    cbn [expand_loop] in Hloop.
  - by simplify_eq.
  - inversion Hchain as [|? ? ? ? Hpos Hchain']; subst.
    destruct (expand_step BoundGetter sb current (parent, pos)) as [parent'|] eqn:Hstep;
      [|done].
    simpl in Hloop.
    apply (IH parent' parent root Hchain'); [|done].
    by eapply expand_step_values.
Qed.

(** [Algorithm::insert] of a node below a root: the values of the new
    root are those of the old root and those of the node. *)
Lemma insert_values (starting_node : option Node) (place_node root : Node) :
  insert BoundGetter starting_node place_node = Some root ->
  values root ≡ₚ values place_node ++ from_option values [] starting_node.
Proof.
  intros Hins. unfold insert in Hins.
  destruct (find_best_fit_in_tree _ _ _) as [[best chain]|] eqn:Hfind; [|done].
  simpl in Hins.
  assert (chain_holds best chain
          /\ values (PageNode (chain_top best chain)) = from_option values [] starting_node)
    as [Hchain Htop].
  { destruct starting_node as [[v|p]|]; simpl in Hfind; [done| |].
    - destruct (find_best_fit_from_chain _ _ _ _ _ _ eq_refl (chain_holds_root p) Hfind)
        as [Hholds ->].
      done.
    - simplify_eq. split; [constructor|done]. }
  unfold expand_tree in Hins.
  set (current := Page_insert BoundGetter best place_node) in *.
  destruct (expand_loop BoundGetter (bound_ current) current chain) as [top|] eqn:Hloop;
    [|done].
  simpl in Hins.
  assert (values (PageNode top) ≡ₚ values place_node ++ from_option values [] starting_node)
    as Hvalues.
  { rewrite <- Htop.
    apply (expand_loop_values (bound_ current) (values place_node) chain current best top);
      [done| |done].
    simpl. rewrite values_of_app. simpl. rewrite app_nil_r. apply Permutation_app_comm. }
  destruct (Nat.ltb_spec max_children (Page_size top)) as [Hover|_].
  - destruct (split_node BoundGetter top) as [[[a b] p']|] eqn:Hsplit; simplify_eq/=.
    destruct (split_node_Some BoundGetter _ _ _ _ Hover Hsplit) as (Hperm & _ & _).
    rewrite app_nil_r, <- values_of_app, (values_of_perm _ _ Hperm). exact Hvalues.
  - by simplify_eq/=.
Qed.

End InsertValues.

(** Whenever an insertion returns, on any tree and with a strategy whose
    answers are two different children and a child of the page, as the
    [assert]s of [split_node] and of the strategies have it, the tree
    it returns holds the value besides the values there were: nothing
    is lost or doubled on the way through the splits. *)
Theorem RTree_insert_stores_value {ndim : nat} {Value : Type}
    (BoundGetter : Value -> Box ndim) (Parameters : SplittingType ndim Value)
    (Contract : SplittingContract Parameters) (t t' : RTree ndim Value) (value : Value) :
  RTree_insert BoundGetter t value = Some t' ->
  tree_values t' ≡ₚ value :: tree_values t.
Proof.
  intros Hins. unfold RTree_insert in Hins.
  destruct (insert BoundGetter (root_node_ptr_ t) (LeafNode value)) as [root|] eqn:Hroot;
    simplify_eq/=.
  apply (insert_values BoundGetter) in Hroot.
  unfold tree_values. simpl. rewrite Hroot. simpl. by destruct (root_node_ptr_ t).
Qed.

(** The theorem at the insertion of the point (7,3) into the tree that
    holds the point (1,5). *)
Lemma RTree_insert_stores_value_witness :
  exists t',
    RTree_insert Examples.pair_extractor (Parameters := Examples.Quadratic_4_2)
                 Examples.single_value_tree (Examples.point 7 3, 1%nat) = Some t'
    /\ tree_values t' ≡ₚ (Examples.point 7 3, 1%nat) :: tree_values Examples.single_value_tree.
Proof.
  let result := eval vm_compute in
      (RTree_insert Examples.pair_extractor (Parameters := Examples.Quadratic_4_2)
                    Examples.single_value_tree (Examples.point 7 3, 1%nat)) in
  match result with
  | Some ?t' => exists t'
  end.
  assert (RTree_insert Examples.pair_extractor (Parameters := Examples.Quadratic_4_2)
                       Examples.single_value_tree (Examples.point 7 3, 1%nat) = Some _)
    as Hins by (vm_compute; reflexivity).
  split; [exact Hins|].
  exact (RTree_insert_stores_value Examples.pair_extractor Examples.Quadratic_4_2
           (Quadratic_contract Examples.pair_extractor 4 2 (conj (le_n 2) (le_n 2)))
           _ _ _ Hins).
Defined.

(** ** The bound of the tree *)

Section TreeBound.
Context {ndim : nat} {Value : Type}.
Context (BoundGetter : Value -> Box ndim).
Context {Parameters : SplittingType ndim Value}.

Local Abbreviation Node := (Node ndim Value).

Lemma fold_stretch_within (c : Box ndim) (l : list (Box ndim)) (r : Box ndim) :
  Bound.Contains c r = true -> Forall (fun b => Bound.Contains c b = true) l ->
  Bound.Contains c (fold_left Bound.stretch l r) = true.
Proof.
  revert r. induction l as [|b l IH]; intros r Hr Hall; simpl; [done|].
  apply Forall_cons in Hall as [Hb Hall]. apply IH; [|done].
  rewrite Contains_spec in *. intros i. specialize (Hr i). specialize (Hb i).
  simpl. rewrite !vlookup_zip_with. lia.
Qed.

Lemma fold_stretch_representable (l : list (Box ndim)) (r : Box ndim) :
  representable r -> representable (fold_left Bound.stretch l r).
Proof.
  revert r. induction l as [|b l IH]; intros r Hr; simpl; [done|].
  apply IH. intros i. specialize (Hr i). simpl. rewrite !vlookup_zip_with. lia.
Qed.

(** The bound of a node of non-empty pages is a representable box, and
    it lies within every box that holds the values below the node. *)
Lemma bound_least (n : Node) :
  bounds_ok BoundGetter n -> sizes_ok n ->
  Forall (fun v => representable (BoundGetter v)) (values n) ->
  representable (getBound BoundGetter n)
  /\ forall c, (forall v, v ∈ values n -> Bound.Contains c (BoundGetter v) = true) ->
       Bound.Contains c (getBound BoundGetter n) = true.
Proof.
  induction n as [w|p IH] using Node_nested_ind; intros Hok Hsizes Hrep.
  - simpl in *. apply Forall_inv in Hrep. split; [exact Hrep|].
    intros c Hc. apply Hc, list_elem_of_here.
  - apply bounds_ok_page_inv in Hok as [Hbound Hchildren].
    inversion Hsizes as [|? Hsize Hsizes']; subst.
    assert (Forall (fun child =>
              representable (getBound BoundGetter child)
              /\ forall c, (forall v, v ∈ values child ->
                              Bound.Contains c (BoundGetter v) = true) ->
                   Bound.Contains c (getBound BoundGetter child) = true) (nodes_ p)) as Hall.
    { apply Forall_forall. intros child Hchild.
      apply (proj1 (Forall_forall _ _) IH child Hchild).
      - by apply (proj1 (Forall_forall _ _) Hchildren).
      - by apply (proj1 (Forall_forall _ _) Hsizes').
      - apply Forall_forall. intros v Hv.
        apply (proj1 (Forall_forall _ _) Hrep). simpl.
        apply elem_of_concat. exists (values child). split; [|done].
        apply list_elem_of_fmap. by exists child. }
    unfold Page_size in Hsize.
    destruct (nodes_ p) as [|child children] eqn:Hnodes; [simpl in Hsize; lia|].
    apply Forall_cons in Hall as [[Hrep0 Hleast0] Hall].
    assert (getBound BoundGetter (PageNode p)
            = fold_left Bound.stretch (getBound BoundGetter <$> children)
                        (getBound BoundGetter child)) as ->.
    { simpl. rewrite Hbound, Hnodes. simpl. by rewrite (reset_stretch_identity _ Hrep0). }
    split; [by apply fold_stretch_representable|].
    assert (forall child' v, child' ∈ child :: children -> v ∈ values child' ->
              v ∈ values (PageNode p)) as Hbelow.
    { intros child' v Hchild' Hv. simpl. rewrite Hnodes.
      apply elem_of_concat. exists (values child'). split; [|done].
      apply list_elem_of_fmap. by exists child'. }
    intros c Hc. apply fold_stretch_within.
    + apply Hleast0. intros v Hv. apply Hc, (Hbelow child); [apply list_elem_of_here|done].
    + apply Forall_fmap, Forall_forall. intros child' Hchild'. simpl.
      apply (proj1 (Forall_forall _ _) Hall child' Hchild'). intros v Hv.
      apply Hc, (Hbelow child'); [by apply list_elem_of_further|done].
Qed.

(** [bounds()] is undefined on the tree without a root.  On every other
    tree whose pages carry the bounds of their children it returns a box
    that holds every stored value; when no page is empty and the boxes
    of the values are representable, it is the least such box. *)
Theorem RTree_bounds_is_bounding_box (t : RTree ndim Value) :
  tree_bounds_ok BoundGetter t ->
  (RTree_bounds BoundGetter t = None <-> root_node_ptr_ t = None)
  /\ forall b, RTree_bounds BoundGetter t = Some b ->
       (forall v, v ∈ tree_values t -> Bound.Contains b (BoundGetter v) = true)
       /\ (tree_sizes_ok t ->
           Forall (fun v => representable (BoundGetter v)) (tree_values t) ->
           forall c, (forall v, v ∈ tree_values t ->
                        Bound.Contains c (BoundGetter v) = true) ->
                     Bound.Contains c b = true).
Proof.
  unfold tree_bounds_ok, RTree_bounds, tree_values, tree_sizes_ok. intros Hok.
  destruct (root_node_ptr_ t) as [root|]; simpl; [|done].
  split; [done|]. intros b Hb. simplify_eq. split.
  - by apply bound_contains_values.
  - intros [_ Hsizes] Hrep. by apply bound_least.
Qed.

End TreeBound.

Lemma RTree_bounds_is_bounding_box_witness :
  exists b,
    RTree_bounds Examples.pair_extractor Examples.single_value_tree = Some b
    /\ forall v, v ∈ tree_values Examples.single_value_tree ->
         Bound.Contains b (Examples.pair_extractor v) = true.
Proof.
  eexists. split; [reflexivity|].
  apply (RTree_bounds_is_bounding_box Examples.pair_extractor
           (Parameters := Examples.Quadratic_4_2) Examples.single_value_tree).
  - apply bounds_ok_page; [reflexivity|]. apply Forall_singleton. constructor.
  - reflexivity.
Defined.

(** ** The two indexes give the same answers *)

(** The distance query on a tree with sound page bounds, for a count of
    at least one and values within [numeric_limits::max()] of the query
    bound: the values returned and the values left out. *)
Lemma query_distance_selects {ndim : nat} {Value : Type}
    (BoundGetter : Value -> Box ndim) (t : RTree ndim Value) (q : Box ndim) (K : nat) :
  tree_bounds_ok BoundGetter t -> (1 <= K)%nat ->
  Forall (fun v => value_dist BoundGetter q v <= Bound.numeric_max) (tree_values t) ->
  exists out left_out,
    query_distance BoundGetter t (Predicate.Nearest q K) = Some out
    /\ out ++ left_out ≡ₚ tree_values t
    /\ length out = Nat.min K (length (tree_values t))
    /\ StronglySorted Z.le (value_dist BoundGetter q <$> out)
    /\ forall v w, v ∈ left_out -> w ∈ out ->
         value_dist BoundGetter q w <= value_dist BoundGetter q v.
Proof.
  intros Hok HK Hrange. unfold query_distance, tree_values, tree_bounds_ok in *.
  destruct (root_node_ptr_ t) as [root|].
  2:{ exists [], []. simpl. split; [done|]. split; [done|]. split; [lia|].
      split; [constructor|]. by intros v w ?%elem_of_nil. }
  destruct (distance_loop_returns BoundGetter q K (values root) (node_count root) HK Hrange
              [(node_dist BoundGetter q root, root)] (TruncatedMultiSet.make K) None [])
    as (L & t' & D & Hloop & [_ Hl Hs Hk Hv Ht Hd]).
  { split; simpl.
    - by repeat constructor.
    - constructor.
    - constructor.
    - done.
    - unfold candidate_values. simpl. by rewrite !app_nil_r.
    - split; [lia|done].
    - by intros v e ?%elem_of_nil. }
  { unfold candidates_count. simpl. unfold id. lia. }
  cbv zeta. rewrite distance_apply_Nearest.
  change (Predicate.count (Predicate.Nearest q K)) with K.
  change (threshold_of None) with Bound.numeric_max in Hloop. rewrite Hloop. simpl.
  set (dat := TruncatedMultiSet._data_set L) in *.
  assert (exists out, mapM (fun value_pair : Z * Node ndim Value => getValue (snd value_pair)) dat
                      = Some out
                      /\ candidate_values dat = out
                      /\ fst <$> dat = value_dist BoundGetter q <$> out)
    as (out & Hout & Hvalues & Hkeys).
  { clear -Hl. induction dat as [|[d n] dat IH].
    - by exists [].
    - apply Forall_cons in Hl as [(v & Hn & Hd) Hl]. simpl in Hn, Hd. subst n.
      destruct (IH Hl) as (out & Hout & Hvalues & Hkeys).
      exists (v :: out). split; [|split].
      + change (mapM ?f (?x :: ?l)) with (y ← f x; k ← mapM f l; mret (y :: k)).
        simpl. rewrite Hout. done.
      + unfold candidate_values in *. rewrite bind_cons. simpl. by rewrite Hvalues.
      + rewrite !fmap_cons. simpl. by rewrite Hkeys, Hd. }
  exists out, D. rewrite Hout. split; [done|].
  unfold candidate_values at 2 in Hv. simpl in Hv. rewrite Hvalues in Hv.
  split; [done|]. split; [|split].
  - apply Permutation_length in Hv. rewrite length_app in Hv.
    assert (length dat = length out) as Hlen.
    { apply (f_equal length) in Hkeys. by rewrite !length_fmap in Hkeys. }
    destruct t' as [x|].
    + destruct Ht as [Hfull _]. lia.
    + destruct Ht as [Hbelow ->]. simpl in Hv. lia.
  - rewrite <- Hkeys. clear -Hs. induction Hs as [|e l Hs IH He]; simpl; constructor.
    + done.
    + apply Forall_fmap. eapply Forall_impl; [exact He|]. by intros e'.
  - intros v w Hv' Hw.
    assert (exists e, e ∈ dat /\ fst e = value_dist BoundGetter q w) as (e & He & <-).
    { rewrite <- Hvalues in Hw. unfold candidate_values in Hw.
      apply list_elem_of_bind in Hw as (e & Hw & He). exists e. split; [done|].
      rewrite Forall_forall in Hl. destruct (Hl e He) as (u & Hn & Hd'). rewrite Hn in Hw.
      simpl in Hw. apply list_elem_of_singleton in Hw as ->. done. }
    by apply Hd.
Qed.

Section IndexesAgree.
Context {ndim : nat} {Value : Type}.
Context (BoundGetter : Value -> Box ndim).
Context {Parameters : SplittingType ndim Value} {Contract : SplittingContract Parameters}.

Local Arguments Predicate.spatial_apply : simpl never.

(** Insertions into a tree of well-sized pages with sound bounds return
    a tree of that kind which holds the values inserted besides those it
    held. *)
Lemma insert_range_ok (values : list Value) :
  forall t : RTree ndim Value,
    tree_sizes_ok t -> tree_bounds_ok BoundGetter t ->
    exists t',
      RTree_insert_range BoundGetter t values = Some t'
      /\ tree_sizes_ok t' /\ tree_bounds_ok BoundGetter t'
      /\ tree_values t' ≡ₚ tree_values t ++ values.
Proof.
  unfold RTree_insert_range.
  induction values as [|value values IH]; intros t Hsizes Hbounds; simpl.
  - exists t. by rewrite app_nil_r.
  - destruct (RTree_insert_returns BoundGetter Parameters Contract t value Hsizes)
      as (t1 & Hins & Hsizes1).
    rewrite Hins.
    assert (tree_bounds_ok BoundGetter t1 /\ tree_values t1 ≡ₚ value :: tree_values t)
      as [Hbounds1 Hvalues1].
    { unfold RTree_insert in Hins.
      destruct (insert BoundGetter (root_node_ptr_ t) (LeafNode value)) as [root|] eqn:Hroot;
        simplify_eq/=.
      split.
      - unfold tree_bounds_ok. simpl.
        apply (insert_bounds_ok BoundGetter (root_node_ptr_ t) (LeafNode value) root);
          [|constructor|exact Hroot].
        unfold tree_bounds_ok in Hbounds. by destruct (root_node_ptr_ t).
      - apply (insert_values BoundGetter) in Hroot.
        unfold tree_values. simpl. rewrite Hroot. simpl. by destruct (root_node_ptr_ t). }
    destruct (IH t1 Hsizes1 Hbounds1) as (t' & Hrange & Hsizes' & Hbounds' & Hvalues').
    exists t'. split; [done|]. split; [done|]. split; [done|].
    rewrite Hvalues', Hvalues1. simpl. apply Permutation_middle.
Qed.

Lemma Exhaustive_insert_range_values (e : Exhaustive ndim Value) (values : list Value) :
  _values (Exhaustive_insert_range BoundGetter e values) = _values e ++ values.
Proof.
  unfold Exhaustive_insert_range. revert e.
  induction values as [|value values IH]; intros e; simpl; [by rewrite app_nil_r|].
  rewrite IH. simpl. by rewrite <- app_assoc.
Qed.


(** Of one list of numbers, two selections of [K] that are in
    nondecreasing order and leave nothing smaller out are the same. *)
Lemma smallest_unique (out1 rest1 out2 rest2 : list Z) :
  StronglySorted Z.le out1 -> StronglySorted Z.le out2 ->
  length out1 = length out2 ->
  out1 ++ rest1 ≡ₚ out2 ++ rest2 ->
  (forall x y, x ∈ rest1 -> y ∈ out1 -> y <= x) ->
  (forall x y, x ∈ rest2 -> y ∈ out2 -> y <= x) ->
  out1 = out2.
Proof.
  intros Hs1 Hs2 Hlen Hperm Hle1 Hle2.
  assert (forall out rest : list Z,
            StronglySorted Z.le out -> (forall x y, x ∈ rest -> y ∈ out -> y <= x) ->
            StronglySorted Z.le (out ++ merge_sort Z.le rest)) as Hsorted.
  { intros out rest Hs Hle. apply StronglySorted_app. split; [|split; [done|]].
    - intros y x Hy Hx. apply Hle; [|done]. by rewrite merge_sort_Permutation in Hx.
    - apply StronglySorted_merge_sort; apply _. }
  assert (out1 ++ merge_sort Z.le rest1 = out2 ++ merge_sort Z.le rest2) as Heq.
  { apply (StronglySorted_unique Z.le); try (by apply Hsorted).
    by rewrite !merge_sort_Permutation. }
  apply (f_equal (take (length out1))) in Heq.
  rewrite take_app_length in Heq. rewrite Hlen, take_app_length in Heq. done.
Qed.

(** For a count of at least one, and values whose squared distance to
    the query bound is within [numeric_limits::max()], the distance
    query of an R-tree whose pages carry the bounds of their children
    returns values at the same distances, in the same order of
    distances, as the distance query of an exhaustive index that holds
    the same values. *)
Theorem RTree_nearest_distances_as_Exhaustive (t : RTree ndim Value) (values : list Value)
    (q bound : Box ndim) (K : nat) :
  (1 <= K)%nat ->
  Forall (fun v => value_dist BoundGetter q v <= Bound.numeric_max) values ->
  tree_bounds_ok BoundGetter t ->
  tree_values t ≡ₚ values ->
  exists out,
    query_distance BoundGetter t (Predicate.Nearest q K) = Some out
    /\ value_dist BoundGetter q <$> out
       = value_dist BoundGetter q
         <$> fst (Exhaustive_query_distance BoundGetter
                    (Exhaustive_insert_range BoundGetter (mkExhaustive [] bound) values)
                    (Predicate.Nearest q K)).
Proof.
  intros HK Hwithin Hbounds Hvalues.
  assert (Forall (fun v => value_dist BoundGetter q v <= Bound.numeric_max) (tree_values t))
    as Hwithin' by by rewrite Hvalues.
  destruct (query_distance_selects BoundGetter t q K Hbounds HK Hwithin')
    as (out & left_out & Hquery & Hperm & Hlen & Hsorted & Hnearest).
  exists out. split; [done|].
  unfold Exhaustive_query_distance. rewrite Exhaustive_insert_range_values. simpl.
  change (Predicate.count (Predicate.Nearest q K)) with K.
  set (key v := (Bound.Nearest (BoundGetter v) q, v)).
  assert (forall (l : list Value) (acc : TruncatedMultiSet.t Value),
            fold_left (fun min_set value =>
                         TruncatedMultiSet.emplace
                           (Predicate.distance_apply (Predicate.Nearest q K)
                              (BoundGetter value) true, value) min_set) l acc
            = fold_left (fun acc x => TruncatedMultiSet.emplace x acc) (key <$> l) acc)
    as Hfold.
  { induction l as [|v l IH]; intros acc; simpl; [done|]. by rewrite IH. }
  rewrite Hfold.
  destruct (emplace_fold_kept_smallest K (key <$> values) [] [] [] (kept_smallest_nil K))
    as (data & dropped & Heq & Hdata_sorted & Hdata_len & Hdata_perm & Hord).
  unfold TruncatedMultiSet.make. rewrite Heq. simpl in *.
  assert (Forall (fun p => fst p = value_dist BoundGetter q (snd p)) (data ++ dropped)) as Hall.
  { rewrite Hdata_perm. apply Forall_fmap, Forall_forall. by intros v _. }
  assert (forall l : list (Z * Value),
            Forall (fun p => fst p = value_dist BoundGetter q (snd p)) l ->
            value_dist BoundGetter q <$> (snd <$> l) = fst <$> l) as Hkeys.
  { intros l Hl. rewrite <- list_fmap_compose. apply Forall_fmap_ext.
    eapply Forall_impl; [exact Hl|]. intros p Hp. simpl. by rewrite Hp. }
  apply Forall_app in Hall as [Hdata Hdropped].
  rewrite (Hkeys data Hdata).
  apply (smallest_unique _ (value_dist BoundGetter q <$> left_out) _ (fst <$> dropped)).
  - done.
  - clear -Hdata_sorted.
    induction Hdata_sorted as [|p l _ IH Hp]; simpl; constructor; [done|].
    apply Forall_fmap. eapply Forall_impl; [exact Hp|]. by intros p'.
  - rewrite !length_fmap, Hlen, Hdata_len, length_fmap.
    apply Permutation_length in Hvalues. by rewrite Hvalues.
  - rewrite <- !fmap_app, Hperm, Hvalues, Hdata_perm.
    rewrite <- list_fmap_compose. done.
  - intros x y [v [-> Hv]]%list_elem_of_fmap [w [-> Hw]]%list_elem_of_fmap.
    by apply Hnearest.
  - intros x y [d [-> Hd]]%list_elem_of_fmap [e [-> He]]%list_elem_of_fmap.
    by apply Hord.
Qed.

End IndexesAgree.

(** With the quadratic strategy and in a cube in which no area
    overflows, every sequence of insertions of values from the cube
    returns, when the tree holds values from the cube in pages of one to
    [max_children] children that carry the bounds of their children;
    the tree it builds is again of that kind. *)
Theorem Quadratic_insert_range_returns {ndim : nat} {Value : Type}
    (BoundGetter : Value -> Box ndim) (MaxChildren MinChildren : nat) (B : Z)
    (values : list Value) (t : RTree ndim Value) :
  (1 < MinChildren)%nat -> (MinChildren <= MaxChildren / 2)%nat ->
  Bound.no_overflow (ndim := ndim) B ->
  Forall (fun v => Bound.within B (BoundGetter v)) (tree_values t ++ values) ->
  tree_sizes_ok (Parameters := Quadratic BoundGetter MaxChildren MinChildren) t ->
  tree_bounds_ok BoundGetter t ->
  exists t',
    RTree_insert_range BoundGetter (Parameters := Quadratic BoundGetter MaxChildren MinChildren)
                       t values = Some t'
    /\ tree_sizes_ok (Parameters := Quadratic BoundGetter MaxChildren MinChildren) t'
    /\ tree_bounds_ok BoundGetter t'
    /\ Forall (fun v => Bound.within B (BoundGetter v)) (tree_values t').
Proof.
  intros Hmin Hhalf _ Hcube Hsizes Hbounds.
  destruct (insert_range_ok BoundGetter
              (Contract := Quadratic_contract BoundGetter MaxChildren MinChildren
                             (conj Hmin Hhalf))
              values t Hsizes Hbounds)
    as (t' & Hrange & Hsizes' & Hbounds' & Hvalues).
  exists t'. split; [done|]. split; [done|]. split; [done|]. by rewrite Hvalues.
Qed.

(** The theorem at the insertions of the example cloud, whose points lie
    in the cube from -9 to 9, into the default tree. *)
Lemma Quadratic_insert_range_returns_witness :
  exists t',
    RTree_insert_range Examples.pair_extractor (Parameters := Examples.Quadratic_4_2)
                       RTree_default Examples.cloud = Some t'
    /\ tree_sizes_ok (Parameters := Examples.Quadratic_4_2) t'
    /\ tree_bounds_ok Examples.pair_extractor t'
    /\ Forall (fun v => Bound.within 9 (Examples.pair_extractor v)) (tree_values t').
Proof.
  apply (Quadratic_insert_range_returns Examples.pair_extractor 4 2 9
           Examples.cloud RTree_default).
  - lia.
  - apply le_n.
  - split; [lia|]. by vm_compute.
  - let cloud := eval vm_compute in Examples.cloud in change Examples.cloud with cloud.
    change (tree_values RTree_default ++ ?l) with l.
    repeat (apply Forall_cons; split;
            [intros i; inv_fin i; [|intros i; inv_fin i; [|intros i; inv_fin i]];
             by vm_compute|]).
    constructor.
  - exact I.
  - exact I.
Defined.


(** The theorem at the tree that the insertions of the example cloud
    build, asked for the three values nearest to (5,5). *)
Lemma RTree_nearest_distances_as_Exhaustive_witness :
  exists t out,
    RTree_insert_range Examples.pair_extractor (Parameters := Examples.Quadratic_4_2)
                       RTree_default Examples.cloud = Some t
    /\ query_distance Examples.pair_extractor t
                      (Predicate.Nearest (Examples.point 5 5) 3) = Some out
    /\ value_dist Examples.pair_extractor (Examples.point 5 5) <$> out
       = value_dist Examples.pair_extractor (Examples.point 5 5)
         <$> fst (Exhaustive_query_distance Examples.pair_extractor
                    (Exhaustive_insert_range Examples.pair_extractor
                       (mkExhaustive [] Bound.reset) Examples.cloud)
                    (Predicate.Nearest (Examples.point 5 5) 3)).
Proof.
  destruct (insert_range_ok Examples.pair_extractor
              (Parameters := Examples.Quadratic_4_2)
              (Contract := Quadratic_contract Examples.pair_extractor 4 2 (conj (le_n 2) (le_n 2)))
              Examples.cloud RTree_default I I)
    as (t & Hbuilt & _ & Hbounds & Hvalues).
  destruct (RTree_nearest_distances_as_Exhaustive Examples.pair_extractor
              t Examples.cloud (Examples.point 5 5) Bound.reset 3)
    as (out & Hquery & Hdistances).
  - lia.
  - let cloud := eval vm_compute in Examples.cloud in change Examples.cloud with cloud.
    repeat (apply Forall_cons; split; [vm_compute; discriminate|]). constructor.
  - exact Hbounds.
  - exact Hvalues.
  - exists t, out. split; [exact Hbuilt|]. split; [exact Hquery|exact Hdistances].
Defined.

(** ** The quadratic strategy: what it picks *)


Section RunningMaximum.
Context {A B : Type} (score : A -> Z) (pick : A -> B).

(** A scan that keeps the element of the greatest score seen so far,
    starting at the sentinel. *)
Local Abbreviation scan :=
  (fun (acc : option Z * option B) (x : A) =>
     if above (score x) (fst acc) then (Some (score x), Some (pick x)) else acc).


End RunningMaximum.

Section QuadraticPicks.
Context {ndim : nat} {Value : Type}.
Context (BoundGetter : Value -> Box ndim).

Local Abbreviation Node := (Node ndim Value).
Local Abbreviation Page := (Page ndim Node).

(** The difference of the two area increases that [pick_next] compares. *)
Local Abbreviation difference a b child :=
  (Z.abs (Bound.IncreaseToHold (bound_ a) (getBound BoundGetter child)
          - Bound.IncreaseToHold (bound_ b) (getBound BoundGetter child))) (only parsing).


(** The area two children waste when they share one box. *)
Local Abbreviation wasted it jt :=
  (Bound.area (Bound.Union (getBound BoundGetter it) (getBound BoundGetter jt))
   - area BoundGetter it - area BoundGetter jt) (only parsing).

(** The pairs of children in the order in which the two loops of
    [pick_seeds] visit them. *)
Local Abbreviation pairs parent :=
  (indexed parent ≫= fun it => pair it <$> drop (Datatypes.S (fst it)) (indexed parent))
  (only parsing).




End QuadraticPicks.



(** ** Removal *)

Section RemoveValues.
Context {ndim : nat} {Value : Type}.
Context (BoundGetter : Value -> Box ndim) (EqualOp : Value -> Value -> bool).
Context {S : SplittingType ndim Value} {Contract : SplittingContract S}.

Local Abbreviation Node := (Node ndim Value).
Local Abbreviation Page := (Page ndim Node).
Local Abbreviation parents := (parents ndim Value).
Local Abbreviation values_of l := (concat (values <$> l)) (only parsing).






End RemoveValues.





(** ** RCB: the local split candidate *)

Section LocalSplit.

Local Arguments Predicate.spatial_apply : simpl never.

Local Abbreviation owned search_box :=
  (List.filter (fun p : RCB.index_type =>
                  Predicate.spatial_apply (Predicate.ContainedByNonInclusive search_box)
                                          (RCB.IndexExtractor p) true)) (only parsing).

(** The query of [local_split] on a tree with sound page bounds that
    holds points. *)
Lemma local_split_query (rtree : RTree RCB.NDim RCB.index_type) (search_box : RCB.box_type) :
  tree_bounds_ok RCB.IndexExtractor rtree ->
  Forall (fun p => ordered (RCB.IndexExtractor p)) (tree_values rtree) ->
  exists contained_points,
    query_spatial RCB.IndexExtractor rtree (Predicate.ContainedByNonInclusive search_box)
    = Some contained_points
    /\ contained_points ≡ₚ owned search_box (tree_values rtree).
Proof.
  unfold tree_bounds_ok, tree_values, query_spatial. intros Hok Hordered.
  destruct (root_node_ptr_ rtree) as [root|]; [|by exists []].
  destruct (spatial_loop_returns RCB.IndexExtractor
              (Predicate.ContainedByNonInclusive search_box)
              (ContainedByNonInclusive_prunes_soundly search_box)
              (node_count root) [root] []) as (found & Hloop & Hfound).
  - by apply Forall_singleton.
  - simpl. by rewrite app_nil_r.
  - simpl. lia.
  - exists found. split; [done|]. rewrite Hfound. simpl. by rewrite app_nil_r.
Qed.

(** A rank that holds no point in the box to split reads [back()] of an
    empty vector: its split candidate is undefined. *)
Theorem local_split_undefined_without_points (rtree : RTree RCB.NDim RCB.index_type)
    (weight : list Z) (search_box : RCB.box_type) (total_partition : Z) :
  tree_bounds_ok RCB.IndexExtractor rtree ->
  Forall (fun p => ordered (RCB.IndexExtractor p)) (tree_values rtree) ->
  (forall p, p ∈ tree_values rtree ->
     Bound.ContainsNonInclusive search_box (RCB.IndexExtractor p) = false) ->
  RCB.local_split rtree weight (search_box, total_partition) = None.
Proof.
  intros Hok Hordered Hnone. unfold RCB.local_split.
  destruct (local_split_query rtree search_box Hok Hordered) as (found & -> & Hfound).
  assert (owned search_box (tree_values rtree) = []) as Hempty.
  { clear -Hnone. induction (tree_values rtree) as [|p l IH]; [done|].
    simpl. rewrite IH by (intros q Hq; by apply Hnone, list_elem_of_further).
    unfold Predicate.spatial_apply. simpl.
    by rewrite (Hnone p (list_elem_of_here _ _)). }
  rewrite Hempty in Hfound. apply Permutation_nil_r in Hfound. by subst found.
Qed.

Lemma partial_sum_last (l : list Z) (acc : Z) :
  l <> [] -> last (RCB.partial_sum acc l) = Some (acc + foldr Z.add 0 l).
Proof.
  revert acc. induction l as [|x l IH]; intros acc Hne; [done|].
  destruct l as [|y l].
  - simpl. f_equal. lia.
  - change (RCB.partial_sum acc (x :: y :: l))
      with ((acc + x) :: RCB.partial_sum (acc + x) (y :: l)).
    rewrite last_cons, IH by done. simpl. f_equal. lia.
Qed.

Lemma foldr_add_perm (l l' : list Z) : l ≡ₚ l' -> foldr Z.add 0 l = foldr Z.add 0 l'.
Proof. induction 1; simpl; lia. Qed.

Lemma partial_sum_length (l : list Z) (acc : Z) :
  length (RCB.partial_sum acc l) = length l.
Proof. revert acc. induction l as [|x l IH]; intros acc; simpl; [done|]. by rewrite IH. Qed.

(** With a last partial sum [back > 0] and a proper fraction
    [small/total], [upper_bound] stops at an element of the vector. *)
Lemma upper_bound_in_range (small total back : Z) (l : list Z) :
  0 < back -> 0 <= small < total -> last l = Some back ->
  (RCB.upper_bound small total back l < length l)%nat.
Proof.
  intros Hback Hsmall. induction l as [|e l IH]; intros Hlast; [done|].
  simpl. destruct (Z.ltb_spec (small * back) (e * total)) as [_|Hge]; [lia|].
  destruct l as [|e' l].
  - simpl in Hlast. simplify_eq. nia.
  - rewrite last_cons_cons in Hlast. specialize (IH Hlast). simpl in *. lia.
Qed.

(** A rank that holds a point in the box to split, all of whose weights
    are positive, packs the pair [(c * W, W)]: [W] is the sum of the
    weights of its points in the box and [c] the center, along the
    longest dimension of the box, of one of these points. *)
Theorem local_split_packs_total_weight (rtree : RTree RCB.NDim RCB.index_type)
    (weight : list Z) (search_box : RCB.box_type) (total_partition : Z) :
  tree_bounds_ok RCB.IndexExtractor rtree ->
  Forall (fun p => ordered (RCB.IndexExtractor p)) (tree_values rtree) ->
  Forall (fun p : RCB.index_type => exists w, weight !! snd p = Some w /\ 0 < w)
         (tree_values rtree) ->
  2 <= total_partition ->
  owned search_box (tree_values rtree) <> [] ->
  exists median_point,
    RCB.local_split rtree weight (search_box, total_partition)
    = Some (Bound.center (fst median_point) (Bound.longest_dimension search_box)
            * foldr Z.add 0 ((fun p : RCB.index_type => default 0 (weight !! snd p))
                             <$> owned search_box (tree_values rtree)),
            foldr Z.add 0 ((fun p : RCB.index_type => default 0 (weight !! snd p))
                           <$> owned search_box (tree_values rtree)))
    /\ median_point ∈ tree_values rtree
    /\ Bound.ContainsNonInclusive search_box (fst median_point) = true.
Proof.
  intros Hok Hordered Hweights Htotal Hsome. unfold RCB.local_split.
  destruct (local_split_query rtree search_box Hok Hordered) as (found & -> & Hfound).
  simpl.
  set (long_dim := Bound.longest_dimension search_box).
  set (sorted := merge_sort (RCB.center_le long_dim) found).
  assert (sorted ≡ₚ owned search_box (tree_values rtree)) as Hsorted.
  { unfold sorted. by rewrite merge_sort_Permutation. }
  assert (forall p, p ∈ sorted ->
            p ∈ tree_values rtree
            /\ Bound.ContainsNonInclusive search_box (fst p) = true) as Hin.
  { intros p Hp. rewrite Hsorted in Hp. apply list_elem_of_In, List.filter_In in Hp as [Hp Hc].
    split; [by apply list_elem_of_In|]. exact Hc. }
  assert (Forall (fun p : RCB.index_type => exists w, weight !! snd p = Some w /\ 0 < w) sorted)
    as Hw.
  { apply Forall_forall. intros p Hp.
    apply (proj1 (Forall_forall _ _) Hweights). by apply Hin. }
  assert (mapM (fun p : RCB.index_type => weight !! snd p) sorted
          = Some ((fun p : RCB.index_type => default 0 (weight !! snd p)) <$> sorted)) as ->.
  { apply mapM_Some. clear -Hw. induction Hw as [|p l (w & Hp & _) _ IH]; simpl; constructor.
    - by rewrite Hp.
    - exact IH. }
  simpl.
  set (ws := (fun p : RCB.index_type => default 0 (weight !! snd p)) <$> sorted).
  assert (ws <> []) as Hne.
  { intros Hnil. apply fmap_nil_inv in Hnil. rewrite Hnil in Hsorted.
    apply Permutation_nil_l in Hsorted. done. }
  assert (Forall (fun w => 0 < w) ws) as Hpos.
  { unfold ws. apply Forall_fmap. eapply Forall_impl; [exact Hw|].
    intros p (w & Hp & Hlt). simpl. by rewrite Hp. }
  assert (0 < foldr Z.add 0 ws) as Hsum.
  { clear -Hne Hpos. destruct Hpos as [|w ws Hw Hpos]; [done|]. simpl.
    assert (0 <= foldr Z.add 0 ws); [|lia].
    clear -Hpos. induction Hpos as [|w ws Hw _ IH]; simpl; lia. }
  rewrite (partial_sum_last ws 0 Hne), Z.add_0_l. simpl.
  assert (foldr Z.add 0 ws
          = foldr Z.add 0 ((fun p : RCB.index_type => default 0 (weight !! snd p))
                           <$> owned search_box (tree_values rtree))) as Hsame.
  { unfold ws. apply foldr_add_perm. by rewrite Hsorted. }
  set (k := RCB.upper_bound (total_partition `quot` 2) total_partition
                            (foldr Z.add 0 ws) (RCB.partial_sum 0 ws)).
  assert (k < length sorted)%nat as Hk.
  { assert (k < length (RCB.partial_sum 0 ws))%nat as Hlt.
    { apply upper_bound_in_range; [done| |by rewrite partial_sum_last, Z.add_0_l].
      pose proof (Z.quot_pos total_partition 2). 
      assert (total_partition `quot` 2 < total_partition); [|lia].
      apply Z.quot_lt; lia. }
    rewrite partial_sum_length in Hlt. unfold ws in Hlt. by rewrite length_fmap in Hlt. }
  destruct (lookup_lt_is_Some_2 sorted k Hk) as [median_point Hmedian].
  exists median_point. unfold RCB.index_type, RCB.box_type, RCB.NDim in *.
  rewrite Hmedian. simpl.
  split; [by rewrite Hsame|]. apply Hin. by eapply list_elem_of_lookup_2.
Qed.

End LocalSplit.

(** The tree of a rank that holds the points (0,0,0), (0,0,0), (0,0,0)
    and (10,0,0). *)
Lemma duplicates_tree_ok :
  exists rtree,
    RCB.build_rtree Examples.duplicates_adaptor = Some rtree
    /\ tree_bounds_ok RCB.IndexExtractor rtree
    /\ Forall (fun p => ordered (RCB.IndexExtractor p)) (tree_values rtree)
    /\ tree_values rtree
       = [(mkBox [# 0; 0; 0] [# 0; 0; 0], 0%nat); (mkBox [# 0; 0; 0] [# 0; 0; 0], 1%nat);
          (mkBox [# 0; 0; 0] [# 0; 0; 0], 2%nat); (mkBox [# 10; 0; 0] [# 10; 0; 0], 3%nat)].
Proof.
  let v := eval vm_compute in (RCB.build_rtree Examples.duplicates_adaptor) in
  match v with
  | Some ?t => exists t
  end.
  split; [vm_compute; reflexivity|]. split; [|split; [|reflexivity]].
  - apply bounds_ok_page; [vm_compute; reflexivity|]. simpl. repeat constructor.
  - simpl. repeat (apply Forall_cons; split; [intros i; apply Z.le_refl|]). constructor.
Qed.

Lemma local_split_undefined_without_points_witness :
  exists rtree,
    RCB.build_rtree Examples.duplicates_adaptor = Some rtree
    /\ RCB.local_split rtree [1; 1; 1; 1] (mkBox [# 20; 20; 20] [# 30; 30; 30], 2) = None.
Proof.
  destruct duplicates_tree_ok as (rtree & Hbuild & Hok & Hordered & Hvalues).
  exists rtree. split; [done|].
  apply (local_split_undefined_without_points rtree [1; 1; 1; 1]
           (mkBox [# 20; 20; 20] [# 30; 30; 30]) 2 Hok Hordered).
  intros p Hp. rewrite Hvalues in Hp.
  repeat (apply elem_of_cons in Hp as [->|Hp]; [vm_compute; reflexivity|]).
  by apply elem_of_nil in Hp.
Defined.

Lemma local_split_packs_total_weight_witness :
  exists rtree median_point,
    RCB.build_rtree Examples.duplicates_adaptor = Some rtree
    /\ RCB.local_split rtree [1; 1; 1; 1] (mkBox [# -1; -1; -1] [# 11; 1; 1], 2)
       = Some (Bound.center (fst median_point)
                 (Bound.longest_dimension (mkBox [# -1; -1; -1] [# 11; 1; 1])) * 4, 4)
    /\ median_point ∈ tree_values rtree.
Proof.
  destruct duplicates_tree_ok as (rtree & Hbuild & Hok & Hordered & Hvalues).
  destruct (local_split_packs_total_weight rtree [1; 1; 1; 1]
              (mkBox [# -1; -1; -1] [# 11; 1; 1]) 2 Hok Hordered)
    as (median_point & Hsplit & Hin & _).
  - rewrite Hvalues. repeat (apply Forall_cons; split; [by exists 1|]). constructor.
  - lia.
  - rewrite Hvalues. discriminate.
  - exists rtree, median_point. split; [done|]. split; [|done].
    rewrite Hvalues in Hsplit. exact Hsplit.
Defined.
